(** * DeepSearch relevance engine of KillPhilosophy (js/deepsearch-api.js)

    A shallow embedding of [DeepSearchAPI.demoSearch], [executeSearch] and
    [convertToNetworkData], and the properties of the relevance engine.

    Modelling conventions.
    - A JavaScript string is a [string] whose characters are read as code
      units in the Latin-1 range (0..255); [toLowerCase], [trim], [/\s+/]
      and [/[^\w]/] are given their ECMAScript meaning on that range.
    - A property that may be absent ([undefined]) is an [option].
    - A plain object used as a dictionary whose enumeration order does not
      influence any stated property (the taxonomies of an academic) is a
      [gmap]; the query cache and the node [Map], whose insertion order is
      observable, are association lists in insertion order.
    - Scores and strengths are JavaScript numbers holding small integers;
      they are modelled in [Z].
    - A thrown exception is the [Throw] outcome of the [res] monad.
    - [console.log] output is not modelled.
    - Reading a property of a plain object also finds the members of
      [Object.prototype]. [demoSearch], [executeSearch] and
      [formatAcademicData] are embedded twice: first reading own properties
      only, which is the code wherever no taxonomy category, cache key or
      evidence category names such a member, and then, in module [Proto],
      with these members. The part on the prototype chain proves where the
      two agree and what the code does where they differ. *)

From Stdlib Require Import ZArith Ascii String DecimalString.
From stdpp Require Import gmap strings list sorting.

Local Open Scope Z_scope.

(** ** JavaScript string primitives *)

Module JsString.

Definition code (c : ascii) : N := N_of_ascii c.

(** The [WhiteSpace] and [LineTerminator] code points below 256: TAB, LF,
    VT, FF, CR, SP and NBSP. This is the class [\s] and the set removed by
    [String.prototype.trim]. *)
Definition isWhiteSpace (c : ascii) : bool :=
  let n := code c in
  ((9 <=? n) && (n <=? 13) || (n =? 32) || (n =? 160))%N.

(** The class [\w]: [A-Za-z0-9_]. *)
Definition isWordChar (c : ascii) : bool :=
  let n := code c in
  ((48 <=? n) && (n <=? 57) || (65 <=? n) && (n <=? 90)
   || (n =? 95) || (97 <=? n) && (n <=? 122))%N.

(** Lower-case mapping on Latin-1: A..Z and the accented capitals
    U+00C0..U+00DE (except the multiplication sign U+00D7) move up by 32. *)
Definition lowerChar (c : ascii) : ascii :=
  let n := code c in
  if ((65 <=? n) && (n <=? 90)
      || (192 <=? n) && (n <=? 222) && negb (n =? 215))%N
  then ascii_of_N (n + 32) else c.

Fixpoint toLowerCase (s : string) : string :=
  match s with
  | EmptyString => EmptyString
  | String c r => String (lowerChar c) (toLowerCase r)
  end.

Definition isEmpty (s : string) : bool :=
  match s with EmptyString => true | _ => false end.

Fixpoint trimStart (s : string) : string :=
  match s with
  | EmptyString => EmptyString
  | String c r => if isWhiteSpace c then trimStart r else s
  end.

Fixpoint trimEnd (s : string) : string :=
  match s with
  | EmptyString => EmptyString
  | String c r =>
      let r' := trimEnd r in
      if isWhiteSpace c && isEmpty r' then EmptyString else String c r'
  end.

Definition trim (s : string) : string := trimEnd (trimStart s).

(** [s.split(/\s+/)]: the pieces of [s] between maximal runs of white
    space. [cur] is the piece being read and [gap] tells that the previous
    character was white space. A leading or trailing run yields an empty
    piece, and the empty string yields one empty piece. *)
Fixpoint split_from (cur : string) (gap : bool) (s : string) : list string :=
  match s with
  | EmptyString => [cur]
  | String c r =>
      if isWhiteSpace c
      then if gap then split_from cur true r
           else cur :: split_from EmptyString true r
      else split_from (cur +:+ String c EmptyString) false r
  end.

Definition split_ws (s : string) : list string :=
  split_from EmptyString false s.

(** [w.replace(/[^\w]/g, '')] *)
Fixpoint stripNonWord (s : string) : string :=
  match s with
  | EmptyString => EmptyString
  | String c r =>
      if isWordChar c then String c (stripNonWord r) else stripNonWord r
  end.

(** [s.includes(k)]: [k] occurs in [s] at some position. *)
Fixpoint includes (s k : string) : bool :=
  String.prefix k s
  || match s with
     | EmptyString => false
     | String _ r => includes r k
     end.

(** Decimal rendering of a non-negative integer in a template literal. *)
Definition decimal (n : nat) : string :=
  NilEmpty.string_of_uint (Nat.to_uint n).

End JsString.

Import JsString.

(** ** Outcomes *)

Inductive error : Type :=
| TypeError                 (* a property read on [undefined] *)
| EmptyQuery                (* [new Error('Empty search query')] *)
| ApiError (msg : string).  (* a failed [fetch], or a response that is not ok *)

Inductive res (A : Type) : Type :=
| Ok (a : A)
| Throw (e : error).
Arguments Ok {A} a.
Arguments Throw {A} e.

(** Sequencing of statements that may throw, with stdpp's [x ← m; k]. *)
#[global] Instance res_bind : MBind res := fun A B k m =>
  match m with
  | Ok a => k a
  | Throw e => Throw e
  end.

(** [l.forEach(body)] where the body updates an accumulator and may throw:
    the first exception leaves the loop. *)
Fixpoint forEachM {A S} (body : S -> A -> res S) (l : list A) (s : S) : res S :=
  match l with
  | [] => Ok s
  | a :: r => s' ← body s a; forEachM body r s'
  end.

(** The settlement of a promise. *)
Inductive promise (A : Type) : Type :=
| Resolved (a : A)
| Rejected (e : error)
| NeverSettles.
Arguments Resolved {A} a.
Arguments Rejected {A} e.
Arguments NeverSettles {A}.

(** ** Data model *)

(** A paper or an event; the engine reads the title only. *)
Record Paper : Type := { title : option string }.

Record Academic : Type := {
  name : option string;
  bio : option string;
  (** category name to array of values, or to [null] *)
  taxonomies : option (gmap string (option (list string)));
  papers : option (list Paper);
  events : option (list Paper);
  connections : option (list string)
}.

(** An entry of the local [matches] array of [demoSearch]. *)
Record Scored : Type := { academic : Academic; score : Z }.

Module Result.

Record match_ : Type := {
  name : option string;
  score : Z;
  relevance : string
}.

Record sharedTaxonomy : Type := {
  category : string;
  values : list string
}.

Record connection : Type := {
  academicA : option string;
  academicB : option string;
  isDirectlyConnected : bool;
  sharedTaxonomies : list sharedTaxonomy;
  strength : Z
}.

(** The object resolved by [demoSearch]; a remote answer may lack
    [matches] or [connections]. *)
Record t : Type := {
  query : string;
  timestamp : string;
  matches : option (list match_);
  connections : option (list connection);
  analysis : string
}.

End Result.

(** ** Scoring ([demoSearch], lines 168-236) *)

(** [query.toLowerCase().split(/\s+/).filter(word => word.length > 3)
         .map(word => word.replace(/[^\w]/g, ''))] *)
Definition keywords (query : string) : list string :=
  map stripNonWord
    (List.filter (fun word => (3 <? String.length word)%nat)
       (split_ws (toLowerCase query))).

(** [keywords.forEach(keyword => { if (text.includes(keyword)) score += w })] *)
Definition addMatches (text : string) (w : Z) (kws : list string) (score : Z) : Z :=
  fold_left (fun score keyword => if includes text keyword then score + w else score)
    kws score.

(** [values.forEach(value => { const valueLower = value.toLowerCase(); ... })] *)
Definition addValues (kws : list string) (vals : list string) (score : Z) : Z :=
  fold_left (fun score value => addMatches (toLowerCase value) 3 kws score)
    vals score.

(** [for (const category in academic.taxonomies) { ... }] guarded by
    [values && Array.isArray(values)] *)
Definition addTaxonomies (kws : list string)
    (tax : gmap string (option (list string))) (score : Z) : Z :=
  fold_left (fun score entry =>
               match snd entry with
               | Some vals => addValues kws vals score
               | None => score
               end)
    (map_to_list tax) score.

(** [items.forEach(item => { const titleLower = item.title.toLowerCase(); ... })] *)
Definition addTitles (kws : list string) (items : list Paper) (score : Z) : res Z :=
  forEachM (fun score item =>
              match title item with
              | Some t => Ok (addMatches (toLowerCase t) 1 kws score)
              | None => Throw TypeError
              end)
    items score.

(** The body of [academics.forEach(academic => { ... })] up to the test
    [score > 0]. *)
Definition scoreAcademic (kws : list string) (a : Academic) : res Z :=
  let score := 0 in
  nameLower ← match name a with
               | Some n => Ok (toLowerCase n)
               | None => Throw TypeError
               end;
  let nameMatch := existsb (fun keyword => includes nameLower keyword) kws in
  let score := if nameMatch then score + 5 else score in
  let score := match bio a with
               | Some b =>
                   if isEmpty b then score
                   else addMatches (toLowerCase b) 2 kws score
               | None => score
               end in
  let score := match taxonomies a with
               | Some tax => addTaxonomies kws tax score
               | None => score
               end in
  score ← match papers a with
           | Some ps => addTitles kws ps score
           | None => Ok score
           end;
  score ← match events a with
           | Some es => addTitles kws es score
           | None => Ok score
           end;
  Ok score.

(** [academics.forEach(...)] with [matches.push({academic, score})] *)
Definition scoreAll (kws : list string) (academics : list Academic) : res (list Scored) :=
  forEachM (fun matches a =>
              score ← scoreAcademic kws a;
              Ok (if 0 <? score
                  then matches ++ [{| academic := a; score := score |}]
                  else matches))
    academics [].

(** ** Sorting

    [Array.prototype.sort] is stable and orders by the comparator; on a
    consistent comparator its result is the one of this insertion sort. *)
Fixpoint insertBy {A} (cmp : A -> A -> Z) (x : A) (l : list A) : list A :=
  match l with
  | [] => [x]
  | y :: r => if 0 <? cmp x y then y :: insertBy cmp x r else x :: l
  end.

Definition sortBy {A} (cmp : A -> A -> Z) (l : list A) : list A :=
  foldr (insertBy cmp) [] l.

(** ** Connection inference ([demoSearch], lines 242-284) *)

(** [a.connections?.includes(b.name)], with [undefined] read as [false] *)
Definition lists (a b : Academic) : bool :=
  match connections a, name b with
  | Some l, Some n => bool_decide (n ∈ l)
  | _, _ => false
  end.

(** The loop over [academicA.taxonomies], with
    [academicB.taxonomies[category]] read as an own property;
    [Proto.sharedTaxonomiesOf] reads the inherited members too. *)
Definition sharedTaxonomiesOf (a b : Academic) : list Result.sharedTaxonomy :=
  match taxonomies a, taxonomies b with
  | Some taxA, Some taxB =>
      fold_left (fun acc entry =>
                   let category := fst entry in
                   match snd entry, taxB !! category with
                   | Some valuesA, Some (Some valuesB) =>
                       let shared := filter (fun value => value ∈ valuesB) valuesA in
                       if (0 <? length shared)%nat
                       then acc ++ [{| Result.category := category;
                                       Result.values := shared |}]
                       else acc
                   | _, _ => acc
                   end)
        (map_to_list taxA) []
  | _, _ => []
  end.

(** The body of the inner loop: the connection pushed for the pair, if any. *)
Definition connect (a b : Academic) : option Result.connection :=
  let isDirectlyConnected := lists a b || lists b a in
  let sharedTaxonomies := sharedTaxonomiesOf a b in
  if isDirectlyConnected || (0 <? length sharedTaxonomies)%nat
  then Some {| Result.academicA := name a;
               Result.academicB := name b;
               Result.isDirectlyConnected := isDirectlyConnected;
               Result.sharedTaxonomies := sharedTaxonomies;
               Result.strength := (if isDirectlyConnected then 5 else 0)
                                  + Z.of_nat (length sharedTaxonomies) * 2 |}
  else None.

(** The index pairs [i < j] of the two nested loops, in loop order. *)
Fixpoint pairs {A} (l : list A) : list (A * A) :=
  match l with
  | [] => []
  | a :: r => map (pair a) r ++ pairs r
  end.

(** [for i < min(length, 5)] [for i < j < min(length, 5)] *)
Definition connectTop (sorted : list Scored) : list Result.connection :=
  omap (fun p => connect (academic (fst p)) (academic (snd p)))
    (pairs (take 5 sorted)).

(** ** The response ([demoSearch], lines 287-300) *)

(** [Math.max(...scores)]; it is evaluated only inside the [map] over a
    non-empty [matches], where the list is not empty. *)
Definition Math_max (scores : list Z) : Z :=
  match scores with
  | [] => 0
  | x :: r => fold_left Z.max r x
  end.

Definition quote : string := String (ascii_of_N 34) EmptyString.
Definition newline : string := String (ascii_of_N 10) EmptyString.

(** [matches[0]?.academic.name || 'none'] *)
Definition topName (sorted : list Scored) : string :=
  match sorted with
  | m :: _ =>
      match name (academic m) with
      | Some n => if isEmpty n then "none" else n
      | None => "none"
      end
  | [] => "none"
  end.

Definition analysisOf (sorted : list Scored) (conns : list Result.connection)
    (query : string) : string :=
  "Found " +:+ decimal (length sorted) +:+ " academics and "
  +:+ decimal (length conns) +:+ " connections related to " +:+ quote
  +:+ query +:+ quote +:+ "." +:+ newline
  +:+ "The most relevant academic is " +:+ topName sorted +:+ ".".

Section Engine.

(** [(score / max * 100).toFixed(1) + '%'], computed by the host in
    double precision; the engine is parametric in it. *)
Variable relevanceOf : Z -> Z -> string.

Definition matchOut (sorted : list Scored) (m : Scored) : Result.match_ :=
  {| Result.name := name (academic m);
     Result.score := score m;
     Result.relevance := relevanceOf (score m) (Math_max (map score sorted)) |}.

(** The callback run by the timer of [demoSearch]. [now] is the reading of
    [new Date().toISOString()], [databaseManager] is the global of that
    name when it is defined, given by its [getAllAcademics()]. *)
Definition demoSearchBody (now : string)
    (databaseManager : option (list Academic)) (query : string) : res Result.t :=
  let academics := match databaseManager with
                   | Some all => all
                   | None => []
                   end in
  let kws := keywords query in
  matches ← scoreAll kws academics;
  let matches := sortBy (fun a b => score b - score a) matches in
  let connections := connectTop matches in
  Ok {| Result.query := query;
        Result.timestamp := now;
        Result.matches := Some (map (matchOut matches) (take 10 matches));
        Result.connections :=
          Some (sortBy (fun a b => Result.strength b - Result.strength a)
                  connections);
        Result.analysis := analysisOf matches connections query |}.

(** [demoSearch] resolves its promise from the timer callback; an
    exception raised there is outside the promise, which then stays
    pending for ever. *)
Definition demoSearch (now : string)
    (databaseManager : option (list Academic)) (query : string) : promise Result.t :=
  match demoSearchBody now databaseManager query with
  | Ok results => Resolved results
  | Throw _ => NeverSettles
  end.

End Engine.

(** ** Insertion-ordered dictionaries

    The query cache (a plain object whose keys all contain an underscore and
    are therefore never array indices; with the depths basic, medium and deep
    they are not names inherited from [Object.prototype] either) and the node
    [Map] enumerate their keys in insertion order; assigning to an existing
    key keeps its place. *)

Module Assoc.
Section Ops.
Context {K V : Type} `{EqDecision K}.

Fixpoint get (k : K) (m : list (K * V)) : option V :=
  match m with
  | [] => None
  | (k', v) :: r => if decide (k = k') then Some v else get k r
  end.

Definition has (k : K) (m : list (K * V)) : bool :=
  match get k m with Some _ => true | None => false end.

Fixpoint set (k : K) (v : V) (m : list (K * V)) : list (K * V) :=
  match m with
  | [] => [(k, v)]
  | (k', v') :: r =>
      if decide (k = k') then (k, v) :: r else (k', v') :: set k v r
  end.

Fixpoint delete (k : K) (m : list (K * V)) : list (K * V) :=
  match m with
  | [] => []
  | (k', v') :: r =>
      if decide (k = k') then delete k r else (k', v') :: delete k r
  end.

Definition keys (m : list (K * V)) : list K := map fst m.
End Ops.
End Assoc.

(** ** The DeepSearchAPI object *)

(** A value held by the cache or handed to the caller: the object resolved by
    [demoSearch], or whatever the remote service answered, where [None] stands
    for a falsy answer such as [null]. *)
Definition answer : Type := option Result.t.

Record State : Type := {
  apiKey : string;
  isInitialized : bool;
  searchInProgress : bool;
  searchDepth : string;
  searchCache : list (string * answer)
}.

(** [constructor()]; [savedKey] is what [localStorage] holds for the key. *)
Definition constructor (savedKey : option string) : State :=
  let loaded := match savedKey with
                | Some k => negb (isEmpty k)
                | None => false
                end in
  {| apiKey := if loaded then default EmptyString savedKey else EmptyString;
     isInitialized := loaded;
     searchInProgress := false;
     searchDepth := "medium";
     searchCache := [] |}.

Definition setAPIKey (key : string) (s : State) : State :=
  if isEmpty key then s
  else {| apiKey := key; isInitialized := true;
          searchInProgress := searchInProgress s;
          searchDepth := searchDepth s; searchCache := searchCache s |}.

Definition clearAPIKey (s : State) : State :=
  {| apiKey := EmptyString; isInitialized := false;
     searchInProgress := searchInProgress s;
     searchDepth := searchDepth s; searchCache := searchCache s |}.

Definition setSearchDepth (depth : string) (s : State) : State :=
  if bool_decide (depth ∈ ["basic"; "medium"; "deep"]%string)
  then {| apiKey := apiKey s; isInitialized := isInitialized s;
          searchInProgress := searchInProgress s;
          searchDepth := depth; searchCache := searchCache s |}
  else s.

Definition isSearching (s : State) : bool := searchInProgress s.

Definition setInProgress (b : bool) (s : State) : State :=
  {| apiKey := apiKey s; isInitialized := isInitialized s;
     searchInProgress := b;
     searchDepth := searchDepth s; searchCache := searchCache s |}.

Definition setCache (c : list (string * answer)) (s : State) : State :=
  {| apiKey := apiKey s; isInitialized := isInitialized s;
     searchInProgress := searchInProgress s;
     searchDepth := searchDepth s; searchCache := c |}.

(** What one call of [executeSearch] meets outside the object: the clock,
    the global [databaseManager], and the settlement of the remote request
    ([fetch], the [ok] test and [response.json()] taken together). *)
Record World : Type := {
  now : string;
  databaseManager : option (list Academic);
  remote : promise answer
}.

(** The [options] argument; only [depth] is read locally. *)
Record Options : Type := { depth : option string }.

(** How a call of [executeSearch] ends: it returns, it throws, or its
    promise stays pending. *)
Inductive completion : Type :=
| Returned (results : answer)
| Threw (e : error)
| Pending.

(** [options.depth || this.searchDepth] *)
Definition depthOf (options : Options) (s : State) : string :=
  match depth options with
  | Some d => if isEmpty d then searchDepth s else d
  | None => searchDepth s
  end.

(** [`${query}_${depth}`] *)
Definition cacheKeyOf (query depth : string) : string :=
  query +:+ "_" +:+ depth.

(** [this.searchCache[cacheKey] = results] followed by the size limit. *)
Definition cacheStore (cacheKey : string) (results : answer)
    (cache : list (string * answer)) : list (string * answer) :=
  let cache := Assoc.set cacheKey results cache in
  let cacheKeys := Assoc.keys cache in
  if (20 <? length cacheKeys)%nat
  then match cacheKeys with
       | first :: _ => Assoc.delete first cache
       | [] => cache
       end
  else cache.

Section Api.

Variable relevanceOf : Z -> Z -> string.

(** [executeSearch(query, options)], with [this.searchCache[cacheKey]]
    read as an own property; [Proto.executeSearch] reads the inherited
    members too. *)
Definition executeSearch (w : World) (query : string) (options : Options)
    (s : State) : completion * State :=
  if isEmpty query || isEmpty (trim query) then (Threw EmptyQuery, s)
  else
    let query := trim query in
    let depth := depthOf options s in
    let cacheKey := cacheKeyOf query depth in
    match Assoc.get cacheKey (searchCache s) with
    | Some (Some cached) => (Returned (Some cached), s)
    | _ =>
        let s := setInProgress true s in
        let settled :=
          if isInitialized s then remote w
          else match demoSearch relevanceOf (now w) (databaseManager w) query with
               | Resolved r => Resolved (Some r)
               | Rejected e => Rejected e
               | NeverSettles => NeverSettles
               end in
        match settled with
        | Resolved results =>
            let s := setCache (cacheStore cacheKey results (searchCache s)) s in
            (Returned results, setInProgress false s)
        | Rejected e => (Threw e, setInProgress false s)
        | NeverSettles => (Pending, s)
        end
    end.

(** The methods of the object that change its state. *)
Inductive call : Type :=
| ExecuteSearch (w : World) (query : string) (options : Options)
| SetAPIKey (key : string)
| ClearAPIKey
| SetSearchDepth (depth : string).

(** The state after a call that completes. *)
Definition run (c : call) (s : State) : option State :=
  match c with
  | ExecuteSearch w query options =>
      match executeSearch w query options s with
      | (Pending, _) => None
      | (_, s') => Some s'
      end
  | SetAPIKey key => Some (setAPIKey key s)
  | ClearAPIKey => Some (clearAPIKey s)
  | SetSearchDepth d => Some (setSearchDepth d s)
  end.

(** The states of an object on which calls are made one after the other,
    each one completing before the next. *)
Inductive reachable : State -> Prop :=
| reach_new savedKey : reachable (constructor savedKey)
| reach_call s c s' : reachable s -> run c s = Some s' -> reachable s'.

End Api.

(** ** Network data ([convertToNetworkData], lines 387-438) *)

Module Graph.

Inductive group_ : Type := match_ | related.
Inductive type_ : Type := direct | indirect.

Record node : Type := { id : option string; group : group_; score : Z }.

Record link : Type := {
  source : option string;
  target : option string;
  value : Z;
  type : type_
}.

Record t : Type := { nodes : list node; links : list link }.

End Graph.

(** [x || 1] on a number *)
Definition orOne (x : Z) : Z := if x =? 0 then 1 else x.

(** [results.matches.forEach(match => nodes.set(match.name, {...}))] *)
Definition addMatchNodes (ms : list Result.match_)
    (nodes : list (option string * Graph.node)) : list (option string * Graph.node) :=
  fold_left (fun nodes m =>
               Assoc.set (Result.name m)
                 {| Graph.id := Result.name m;
                    Graph.group := Graph.match_;
                    Graph.score := orOne (Result.score m) |} nodes)
    ms nodes.

(** [if (!nodes.has(who)) nodes.set(who, {id: who, group: 'related', score: 1})] *)
Definition addRelated (who : option string)
    (nodes : list (option string * Graph.node)) : list (option string * Graph.node) :=
  if Assoc.has who nodes then nodes
  else Assoc.set who {| Graph.id := who; Graph.group := Graph.related;
                        Graph.score := 1 |} nodes.

Definition linkOf (c : Result.connection) : Graph.link :=
  {| Graph.source := Result.academicA c;
     Graph.target := Result.academicB c;
     Graph.value := orOne (Result.strength c);
     Graph.type := if Result.isDirectlyConnected c
                   then Graph.direct else Graph.indirect |}.

(** [results.connections.forEach(connection => { ... })] *)
Definition addConnections (conns : list Result.connection)
    (acc : list (option string * Graph.node) * list Graph.link)
    : list (option string * Graph.node) * list Graph.link :=
  fold_left (fun acc c =>
               let nodes := addRelated (Result.academicA c) (fst acc) in
               let nodes := addRelated (Result.academicB c) nodes in
               (nodes, snd acc ++ [linkOf c]))
    conns acc.

Definition convertToNetworkData (results : answer) : Graph.t :=
  match results with
  | None => {| Graph.nodes := []; Graph.links := [] |}
  | Some r =>
      match Result.connections r with
      | None => {| Graph.nodes := []; Graph.links := [] |}
      | Some conns =>
          let nodes := match Result.matches r with
                       | Some ms => addMatchNodes ms []
                       | None => []
                       end in
          let acc := addConnections conns (nodes, []) in
          {| Graph.nodes := map snd (fst acc); Graph.links := snd acc |}
      end
  end.

(** ** Specification-level definitions

    The definitions below follow the wording of the specification; the
    theorems compare them with the code above. *)

(** A record the scoring loop can read: it has a name, and each of its
    papers and events has a title. *)
Definition titled (items : option (list Paper)) : bool :=
  match items with
  | Some l => forallb (fun p => bool_decide (is_Some (title p))) l
  | None => true
  end.

Definition wellFormed (a : Academic) : bool :=
  bool_decide (is_Some (name a)) && titled (papers a) && titled (events a).

(** The number of (text, token) pairs in which the token is a substring of
    the lower-cased text. *)
Definition hits (kws texts : list string) : Z :=
  Z.of_nat (length (List.filter
                      (fun p => includes (toLowerCase (fst p)) (snd p))
                      (list_prod texts kws))).

(** All tag values of a record, over all categories. *)
Definition allValues (tax : gmap string (option (list string))) : list string :=
  flat_map (fun entry => default [] (snd entry)) (map_to_list tax).

Definition tagValues (a : Academic) : list string :=
  match taxonomies a with
  | Some tax => allValues tax
  | None => []
  end.

Definition titlesOf (items : option (list Paper)) : list string :=
  omap title (default [] items).

Definition nameBonus (kws : list string) (a : Academic) : Z :=
  if existsb (fun k => includes (toLowerCase (default EmptyString (name a))) k) kws
  then 5 else 0.

(** The score as the specification words it: every description counts. *)
Definition statedScore (kws : list string) (a : Academic) : Z :=
  nameBonus kws a
  + 2 * hits kws (option_list (bio a))
  + 3 * hits kws (tagValues a)
  + hits kws (titlesOf (papers a))
  + hits kws (titlesOf (events a)).

(** The same sum where only a non-empty description counts. *)
Definition describedScore (kws : list string) (a : Academic) : Z :=
  nameBonus kws a
  + 2 * hits kws (List.filter (fun b => negb (isEmpty b)) (option_list (bio a)))
  + 3 * hits kws (tagValues a)
  + hits kws (titlesOf (papers a))
  + hits kws (titlesOf (events a)).

(** The records of a corpus that score above zero, in encounter order. *)
Definition found (kws : list string) (corpus : list Academic) : list Scored :=
  List.filter (fun m => 0 <? score m)
    (map (fun a => {| academic := a; score := describedScore kws a |}) corpus).



(** The tag values of [a] in category [c], when [a] has that category. *)
Definition tagsIn (a : Academic) (c : string) : option (list string) :=
  match taxonomies a with
  | Some tax => match tax !! c with
                | Some (Some vals) => Some vals
                | _ => None
                end
  | None => None
  end.


(** Non-increasing order of a list by an integer key. *)
Definition descending {A} (key : A -> Z) (l : list A) : Prop :=
  StronglySorted (fun x y => key y <= key x) l.

(** Elements of equal key keep the relative order they have in [l]. *)
Definition keepsTies {A} (key : A -> Z) (l sorted : list A) : Prop :=
  forall k, List.filter (fun x => key x =? k) sorted
            = List.filter (fun x => key x =? k) l.

(** The identifiers a result refers to: match names and relation endpoints. *)
Definition referenced (ms : list Result.match_) (conns : list Result.connection)
    : list (option string) :=
  map Result.name ms
  ++ flat_map (fun c => [Result.academicA c; Result.academicB c]) conns.

Definition matchNode (m : Result.match_) : Graph.node :=
  {| Graph.id := Result.name m; Graph.group := Graph.match_;
     Graph.score := orOne (Result.score m) |}.

(** The summary of a search that found nothing. *)
Definition noMatchAnalysis (query : string) : string :=
  "Found 0 academics and 0 connections related to " +:+ quote +:+ query
  +:+ quote +:+ "." +:+ newline +:+ "The most relevant academic is none.".

(** The evidence the loop over [academicA.taxonomies] records for one
    entry, against the taxonomies of the other record. *)
Definition sharedEntry (taxB : gmap string (option (list string)))
    (entry : string * option (list string)) : option Result.sharedTaxonomy :=
  match snd entry, taxB !! fst entry with
  | Some valuesA, Some (Some valuesB) =>
      let shared := filter (fun value => value ∈ valuesB) valuesA in
      if (0 <? length shared)%nat
      then Some {| Result.category := fst entry; Result.values := shared |}
      else None
  | _, _ => None
  end.

(** Every character of [s] satisfies [p]. *)
Fixpoint allChars (p : ascii -> bool) (s : string) : bool :=
  match s with
  | EmptyString => true
  | String c r => p c && allChars p r
  end.

(** ** Sample data

    The two records of the scenario of the specification, and records used
    to exercise the corner cases. *)

Definition foucault : Academic :=
  {| name := Some "michel-foucault"; bio := None;
     taxonomies := Some {[ "theme" := Some ["Power"] ]}%string;
     papers := None; events := None;
     connections := Some ["judith-butler"]%string |}.

Definition butler : Academic :=
  {| name := Some "judith-butler"; bio := None;
     taxonomies := Some {[ "theme" := Some ["Power"; "Gender"] ]}%string;
     papers := None; events := None;
     connections := Some [] |}.

(** A record without a name. *)
Definition nameless : Academic :=
  {| name := None; bio := Some "Writes on power."; taxonomies := None;
     papers := None; events := None; connections := None |}.

(** A record whose description is the empty string. *)
Definition terse : Academic :=
  {| name := Some "x"; bio := Some EmptyString; taxonomies := None;
     papers := None; events := None; connections := None |}.

(** A stand-in for the host's number formatting. *)
Definition plainRelevance (score top : Z) : string := "%".

(** What holds of the object between two calls. *)
Definition quiescent (s : State) : Prop :=
  searchInProgress s = false
  /\ NoDup (Assoc.keys (searchCache s))
  /\ (length (searchCache s) <= 20)%nat.

(** The settlement [executeSearch] waits for: the remote request when a key
    is set, the local search otherwise. *)
Definition settlement (relevanceOf : Z -> Z -> string) (w : World)
    (query : string) (s : State) : promise answer :=
  if isInitialized s then remote w
  else match demoSearch relevanceOf (now w) (databaseManager w) query with
       | Resolved r => Resolved (Some r)
       | Rejected e => Rejected e
       | NeverSettles => NeverSettles
       end.

(** A world for the local search over a given corpus. *)
Definition localWorld (corpus : list Academic) : World :=
  {| now := "T"; databaseManager := Some corpus; remote := NeverSettles |}.

Definition noOptions : Options := {| depth := None |}.

(** Twenty-one calls with distinct queries, one after the other. *)
Definition manyQueries : list string :=
  ["q01"; "q02"; "q03"; "q04"; "q05"; "q06"; "q07"; "q08"; "q09"; "q10"; "q11";
   "q12"; "q13"; "q14"; "q15"; "q16"; "q17"; "q18"; "q19"; "q20"; "q21"]%string.

Definition runQueries (queries : list string) (s : State) : State :=
  fold_left (fun s q => snd (executeSearch plainRelevance (localWorld []) q noOptions s))
    queries s.

(** The node added for an endpoint that is not among the matches. *)
Definition relatedNode (who : option string) : Graph.node :=
  {| Graph.id := who; Graph.group := Graph.related; Graph.score := 1 |}.

(** Every entry of the node map is filed under the [id] of its node. *)
Definition filedById (nodes : list (option string * Graph.node)) : Prop :=
  Forall (fun entry => Graph.id (snd entry) = fst entry) nodes.

(** A result a remote service may answer: matches without connections. *)
Definition withoutConnections : Result.t :=
  {| Result.query := "power"; Result.timestamp := "T";
     Result.matches := Some [{| Result.name := Some "michel-foucault";
                                Result.score := 3;
                                Result.relevance := "100.0%" |}];
     Result.connections := None;
     Result.analysis := EmptyString |}.

(** The result of the scenario of the specification. *)
Definition scenarioResult : Result.t :=
  {| Result.query := "power"; Result.timestamp := "T";
     Result.matches := Some [{| Result.name := Some "michel-foucault";
                                Result.score := 3;
                                Result.relevance := "100.0%" |};
                             {| Result.name := Some "judith-butler";
                                Result.score := 3;
                                Result.relevance := "100.0%" |}];
     Result.connections :=
       Some [{| Result.academicA := Some "michel-foucault";
                Result.academicB := Some "judith-butler";
                Result.isDirectlyConnected := true;
                Result.sharedTaxonomies :=
                  [{| Result.category := "theme"; Result.values := ["Power"] |}];
                Result.strength := 7 |};
             {| Result.academicA := Some "judith-butler";
                Result.academicB := Some "gilles-deleuze";
                Result.isDirectlyConnected := false;
                Result.sharedTaxonomies :=
                  [{| Result.category := "era"; Result.values := ["20th"] |}];
                Result.strength := 2 |}]%string;
     Result.analysis := EmptyString |}.

(** ** Further methods of the DeepSearchAPI object *)

(** [isQueryCached(query, depth)]: [!!this.searchCache[cacheKey]] *)
Definition isQueryCached (query depth : string) (s : State) : bool :=
  match Assoc.get (cacheKeyOf query depth) (searchCache s) with
  | Some (Some _) => true
  | _ => false
  end.

(** [getCachedResults(query, depth)]: [this.searchCache[cacheKey] || null] *)
Definition getCachedResults (query depth : string) (s : State) : answer :=
  match Assoc.get (cacheKeyOf query depth) (searchCache s) with
  | Some (Some cached) => Some cached
  | _ => None
  end.

(** The item [killphilosophy_deepsearch_api_key] of [localStorage]; when
    [failing] is set every access to the storage throws. *)
Record Storage : Type := { item : option string; failing : bool }.

(** The methods with the value they return and their effect on the storage. *)
Module Method.

(** [_saveAPIKey(apiKey)] *)
Definition _saveAPIKey (apiKey : string) (st : Storage) : bool * Storage :=
  if failing st then (false, st)
  else if isEmpty apiKey
       then (false, {| item := None; failing := failing st |})
       else (true, {| item := Some apiKey; failing := failing st |}).

(** What [_loadAPIKey()] reads; an exception is caught and nothing is loaded. *)
Definition _loadAPIKey (st : Storage) : option string :=
  if failing st then None else item st.

(** [new DeepSearchAPI()] *)
Definition create (st : Storage) : State := constructor (_loadAPIKey st).

(** [setAPIKey(apiKey)] *)
Definition setAPIKey (key : string) (s : State) (st : Storage)
    : bool * State * Storage :=
  if isEmpty key then (false, s, st)
  else (true,
        {| apiKey := key; isInitialized := true;
           searchInProgress := searchInProgress s;
           searchDepth := searchDepth s; searchCache := searchCache s |},
        snd (_saveAPIKey key st)).

(** [clearAPIKey()] *)
Definition clearAPIKey (s : State) (st : Storage) : bool * State * Storage :=
  (true,
   {| apiKey := EmptyString; isInitialized := false;
      searchInProgress := searchInProgress s;
      searchDepth := searchDepth s; searchCache := searchCache s |},
   snd (_saveAPIKey EmptyString st)).

(** [setSearchDepth(depth)] *)
Definition setSearchDepth (depth : string) (s : State) : bool * State :=
  if bool_decide (depth ∈ ["basic"; "medium"; "deep"]%string)
  then (true,
        {| apiKey := apiKey s; isInitialized := isInitialized s;
           searchInProgress := searchInProgress s;
           searchDepth := depth; searchCache := searchCache s |})
  else (false, s).

End Method.

(** ** [formatAcademicData] (lines 445-492) *)

Module Formatted.

(** The record built for the top match. *)
Record t : Type := {
  name : option string;
  bio : string;
  taxonomies : gmap string (list string);
  connections : list (option string);
  papers : list Paper;
  events : list Paper
}.

End Formatted.

(** [conn.academicA === topMatch.name || conn.academicB === topMatch.name] *)
Definition involves (top : option string) (conn : Result.connection) : bool :=
  bool_decide (Result.academicA conn = top)
  || bool_decide (Result.academicB conn = top).

(** [conn.academicA === topMatch.name ? conn.academicB : conn.academicA] *)
Definition otherEnd (top : option string) (conn : Result.connection) : option string :=
  if bool_decide (Result.academicA conn = top)
  then Result.academicB conn else Result.academicA conn.

(** [if (!taxonomies[category].includes(value)) taxonomies[category].push(value)] *)
Definition pushValue (category : string) (tax : gmap string (list string))
    (value : string) : gmap string (list string) :=
  let held := default [] (tax !! category) in
  if bool_decide (value ∈ held) then tax
  else <[category := held ++ [value]]> tax.

(** The body of [conn.sharedTaxonomies.forEach(taxonomy => { ... })], with
    [taxonomies[taxonomy.category]] read as an own property;
    [Proto.mergeTaxonomy] reads the inherited members too. *)
Definition mergeTaxonomy (tax : gmap string (list string))
    (taxonomy : Result.sharedTaxonomy) : gmap string (list string) :=
  let tax := match tax !! Result.category taxonomy with
             | Some _ => tax
             | None => <[Result.category taxonomy := []]> tax
             end in
  fold_left (pushValue (Result.category taxonomy)) (Result.values taxonomy) tax.

(** [connections.forEach(conn => { if (conn.sharedTaxonomies) ... })] *)
Definition mergeConnections (conns : list Result.connection)
    (tax : gmap string (list string)) : gmap string (list string) :=
  fold_left (fun tax conn => fold_left mergeTaxonomy (Result.sharedTaxonomies conn) tax)
    conns tax.

Definition foundThrough (query : string) : string :=
  "This academic was found through a DeepSearch query: " +:+ quote
  +:+ query +:+ quote.

(** [formatAcademicData(results)]; [Ok None] is the [null] it returns, and
    reading [results.connections.filter] on a result without connections
    throws. *)
Definition formatAcademicData (results : answer) : res (option Formatted.t) :=
  match results with
  | None => Ok None
  | Some r =>
      match Result.matches r with
      | None | Some [] => Ok None
      | Some (topMatch :: _) =>
          match Result.connections r with
          | None => Throw TypeError
          | Some all =>
              let connections := List.filter (involves (Result.name topMatch)) all in
              let connectionNames := map (otherEnd (Result.name topMatch)) connections in
              let taxonomies := mergeConnections connections ∅ in
              Ok (Some {| Formatted.name := Result.name topMatch;
                          Formatted.bio := foundThrough (Result.query r);
                          Formatted.taxonomies := taxonomies;
                          Formatted.connections := connectionNames;
                          Formatted.papers := [];
                          Formatted.events := [] |})
          end
      end
  end.

(** ** Character classes used in the statements *)

(** [a-z0-9_] *)
Definition isTokenChar (c : ascii) : bool :=
  let n := code c in
  ((48 <=? n) && (n <=? 57) || (n =? 95) || (97 <=? n) && (n <=? 122))%N.

(** The first character of [s], if any, satisfies [p]. *)
Definition headChar (p : ascii -> bool) (s : string) : bool :=
  match s with
  | EmptyString => true
  | String c _ => p c
  end.

(** The last character of [s], if any, satisfies [p]. *)
Fixpoint lastChar (p : ascii -> bool) (s : string) : bool :=
  match s with
  | EmptyString => true
  | String c EmptyString => p c
  | String _ r => lastChar p r
  end.

(** The texts of a record the scoring loop looks into: the name, the
    description unless it is empty, the tag values and the titles. *)
Definition searchableTexts (a : Academic) : list string :=
  option_list (name a)
  ++ List.filter (fun b => negb (isEmpty b)) (option_list (bio a))
  ++ tagValues a ++ titlesOf (papers a) ++ titlesOf (events a).

(** A record whose four optional text fields are all absent. *)
Definition bare (n : string) : Academic :=
  {| name := Some n; bio := None; taxonomies := None;
     papers := None; events := None; connections := None |}.

(** [tax] holds, per category, the values of the evidence [entries] of that
    category, each value once; a category is present exactly when some
    entry names it. *)
Definition mergedFrom (entries : list Result.sharedTaxonomy)
    (tax : gmap string (list string)) : Prop :=
  forall c,
    (is_Some (tax !! c) <-> exists e, e ∈ entries /\ Result.category e = c)
    /\ forall vs, tax !! c = Some vs ->
         NoDup vs
         /\ forall v, v ∈ vs
                      <-> exists e, e ∈ entries /\ Result.category e = c
                                    /\ v ∈ Result.values e.

(** A result in which the top match takes part in two connections. *)
Definition sharedResult : Result.t :=
  {| Result.query := "power"; Result.timestamp := "T";
     Result.matches := Some [{| Result.name := Some "judith-butler";
                                Result.score := 6;
                                Result.relevance := "100.0%" |}];
     Result.connections :=
       Some [{| Result.academicA := Some "michel-foucault";
                Result.academicB := Some "judith-butler";
                Result.isDirectlyConnected := true;
                Result.sharedTaxonomies :=
                  [{| Result.category := "theme"; Result.values := ["Power"] |}];
                Result.strength := 7 |};
             {| Result.academicA := Some "judith-butler";
                Result.academicB := Some "gilles-deleuze";
                Result.isDirectlyConnected := false;
                Result.sharedTaxonomies :=
                  [{| Result.category := "theme";
                      Result.values := ["Power"; "Desire"] |}];
                Result.strength := 2 |}]%string;
     Result.analysis := EmptyString |}.

(** ** The record store behind [databaseManager] (database.js)

    [this.academics] is a plain object from keys to records; it is modelled
    as a finite map, and [Object.values] and [for ... in] as its list of
    entries. A name whose key would be [__proto__] is outside the model
    (assigning under that key sets the prototype instead of a property). *)

Module Store.

(** [s.replace(/\s+/g, '-')]: every maximal run of white space becomes one
    hyphen. [gap] tells that the previous character was white space. *)
Fixpoint dashSpaces (gap : bool) (s : string) : string :=
  match s with
  | EmptyString => EmptyString
  | String c r =>
      if isWhiteSpace c
      then if gap then dashSpaces true r else String "-" (dashSpaces true r)
      else String c (dashSpaces false r)
  end.

Definition isKeyChar (c : ascii) : bool := isWordChar c || (code c =? 45)%N.

(** [s.replace(/[^\w-]/g, '')] *)
Fixpoint stripKey (s : string) : string :=
  match s with
  | EmptyString => EmptyString
  | String c r => if isKeyChar c then String c (stripKey r) else stripKey r
  end.

(** [name.toLowerCase().replace(/\s+/g, '-').replace(/[^\w-]/g, '')] *)
Definition keyOf (n : string) : string :=
  stripKey (dashSpaces false (toLowerCase n)).

(** [addOrUpdateAcademic(academic)]: the value returned and the store
    afterwards. [saveData] catches its own exceptions. *)
Definition addOrUpdateAcademic (a : option Academic)
    (db : gmap string Academic) : bool * gmap string Academic :=
  match a with
  | Some a =>
      match name a with
      | Some n => if isEmpty n then (false, db) else (true, <[keyOf n := a]> db)
      | None => (false, db)
      end
  | None => (false, db)
  end.

(** [getAllAcademics()] *)
Definition getAllAcademics (db : gmap string Academic) : list Academic :=
  map snd (map_to_list db).

(** The second loop of [getAcademic]: reading [name.toLowerCase()] throws
    on a record without a name. *)
Fixpoint findLower (nameLower : string) (l : list Academic) : res (option Academic) :=
  match l with
  | [] => Ok None
  | a :: r =>
      match name a with
      | Some m =>
          if bool_decide (toLowerCase m = nameLower) then Ok (Some a)
          else findLower nameLower r
      | None => Throw TypeError
      end
  end.

(** [getAcademic(name)]; [Ok None] is the [null] it returns. *)
Definition getAcademic (n : string) (db : gmap string Academic)
    : res (option Academic) :=
  match List.find (fun a => bool_decide (name a = Some n)) (getAllAcademics db) with
  | Some a => Ok (Some a)
  | None => findLower (toLowerCase n) (getAllAcademics db)
  end.

(** [deleteAcademic(name)] *)
Definition deleteAcademic (n : string) (db : gmap string Academic)
    : bool * gmap string Academic :=
  match List.find (fun entry => bool_decide (name (snd entry) = Some n))
          (map_to_list db) with
  | Some entry => (true, delete (fst entry) db)
  | None => (false, db)
  end.

(** Every record sits under the key of its name, which is not empty. *)
Definition keyed (db : gmap string Academic) : Prop :=
  forall k a, db !! k = Some a ->
    exists n, name a = Some n /\ isEmpty n = false /\ k = keyOf n.

(** A key the model covers: any but [__proto__]. *)
Definition ownKey (k : string) : Prop := k <> "__proto__"%string.

(** The record is refused, or its key is one the model covers. *)
Definition storable (a : option Academic) : Prop :=
  forall r n, a = Some r -> name r = Some n -> ownKey (keyOf n).

(** The stores obtained from the empty one by adding and deleting. *)
Inductive built : gmap string Academic -> Prop :=
| built_empty : built ∅
| built_add a db :
    storable a -> built db -> built (snd (addOrUpdateAcademic a db))
| built_delete n db : built db -> built (snd (deleteAcademic n db)).

End Store.

(** ** Members inherited from [Object.prototype]

    Reading [obj[key]] on a plain object yields the own property of that
    name and, when there is none, the member of [Object.prototype] of that
    name: a function, or under [__proto__] the prototype itself. Such a
    member is truthy and has no [includes]. Three reads of the engine meet
    these members: [academicB.taxonomies[category]] in the pair loop,
    [this.searchCache[cacheKey]], and [taxonomies[taxonomy.category]] in
    [formatAcademicData]. The definitions above read own properties only;
    this module gives the same functions with the inherited members, and
    the section on the prototype chain below relates the two. *)

Module Proto.

(** The names of the members of [Object.prototype]. *)
Definition prototypeNames : list string :=
  ["constructor"; "hasOwnProperty"; "isPrototypeOf"; "propertyIsEnumerable";
   "toLocaleString"; "toString"; "valueOf"; "__proto__";
   "__defineGetter__"; "__defineSetter__"; "__lookupGetter__";
   "__lookupSetter__"]%string.

(** What [obj[key]] yields. *)
Inductive slot (V : Type) : Type :=
| Own (v : V)     (* the own property *)
| Inherited       (* the member of [Object.prototype] *)
| Absent.         (* [undefined] *)
Arguments Own {V} v.
Arguments Inherited {V}.
Arguments Absent {V}.

(** [obj[key]], given the own property of that name if there is one. *)
Definition read {V} (own : option V) (key : string) : slot V :=
  match own with
  | Some v => Own v
  | None => if bool_decide (key ∈ prototypeNames) then Inherited else Absent
  end.

(** The loop over [academicA.taxonomies] (lines 257-270). On an inherited
    [valuesB] the callback of [valuesA.filter] calls [valuesB.includes],
    which is not a function; it is called once [valuesA] has a value. *)
Definition sharedTaxonomiesOf (a b : Academic) : res (list Result.sharedTaxonomy) :=
  match taxonomies a, taxonomies b with
  | Some taxA, Some taxB =>
      forEachM (fun sharedTaxonomies entry =>
                  let category := fst entry in
                  match snd entry, read (taxB !! category) category with
                  | Some valuesA, Own (Some valuesB) =>
                      let shared := filter (fun value => value ∈ valuesB) valuesA in
                      Ok (if (0 <? length shared)%nat
                          then sharedTaxonomies
                               ++ [{| Result.category := category;
                                      Result.values := shared |}]
                          else sharedTaxonomies)
                  | Some (_ :: _), Inherited => Throw TypeError
                  | _, _ => Ok sharedTaxonomies
                  end)
        (map_to_list taxA) []
  | _, _ => Ok []
  end.

(** The body of the inner loop (lines 245-283). *)
Definition connect (a b : Academic) : res (option Result.connection) :=
  let isDirectlyConnected := lists a b || lists b a in
  sharedTaxonomies ← sharedTaxonomiesOf a b;
  Ok (if isDirectlyConnected || (0 <? length sharedTaxonomies)%nat
      then Some {| Result.academicA := name a;
                   Result.academicB := name b;
                   Result.isDirectlyConnected := isDirectlyConnected;
                   Result.sharedTaxonomies := sharedTaxonomies;
                   Result.strength := (if isDirectlyConnected then 5 else 0)
                                      + Z.of_nat (length sharedTaxonomies) * 2 |}
      else None).

(** The two nested loops (lines 243-284); an exception leaves them. *)
Definition connectTop (sorted : list Scored) : res (list Result.connection) :=
  forEachM (fun connections p =>
              connection ← connect (academic (fst p)) (academic (snd p));
              Ok (match connection with
                  | Some c => connections ++ [c]
                  | None => connections
                  end))
    (pairs (take 5 sorted)) [].

Section Engine.

Variable relevanceOf : Z -> Z -> string.

(** The callback run by the timer of [demoSearch] (lines 161-300). *)
Definition demoSearchBody (now : string)
    (databaseManager : option (list Academic)) (query : string) : res Result.t :=
  let academics := match databaseManager with
                   | Some all => all
                   | None => []
                   end in
  let kws := keywords query in
  matches ← scoreAll kws academics;
  let matches := sortBy (fun a b => score b - score a) matches in
  connections ← connectTop matches;
  Ok {| Result.query := query;
        Result.timestamp := now;
        Result.matches := Some (map (matchOut relevanceOf matches) (take 10 matches));
        Result.connections :=
          Some (sortBy (fun a b => Result.strength b - Result.strength a)
                  connections);
        Result.analysis := analysisOf matches connections query |}.

(** [demoSearch(query)]: an exception of the timer callback leaves the
    promise pending. *)
Definition demoSearch (now : string)
    (databaseManager : option (list Academic)) (query : string) : promise Result.t :=
  match demoSearchBody now databaseManager query with
  | Ok results => Resolved results
  | Throw _ => NeverSettles
  end.

(** How a call of [executeSearch] ends. Under a cache key that names a
    member of [Object.prototype] the call returns that member. *)
Inductive completion : Type :=
| Returned (results : answer)
| ReturnedMember (key : string)
| Threw (e : error)
| Pending.

(** What the [try] block of [executeSearch] waits for. *)
Definition settlement (w : World) (query : string) (s : State) : promise answer :=
  if isInitialized s then remote w
  else match demoSearch (now w) (databaseManager w) query with
       | Resolved r => Resolved (Some r)
       | Rejected e => Rejected e
       | NeverSettles => NeverSettles
       end.

(** [executeSearch(query, options)] (lines 311-380). *)
Definition executeSearch (w : World) (query : string) (options : Options)
    (s : State) : completion * State :=
  if isEmpty query || isEmpty (trim query) then (Threw EmptyQuery, s)
  else
    let query := trim query in
    let depth := depthOf options s in
    let cacheKey := cacheKeyOf query depth in
    match read (Assoc.get cacheKey (searchCache s)) cacheKey with
    | Own (Some cached) => (Returned (Some cached), s)
    | Inherited => (ReturnedMember cacheKey, s)
    | _ =>
        let s := setInProgress true s in
        let settled :=
          if isInitialized s then remote w
          else match demoSearch (now w) (databaseManager w) query with
               | Resolved r => Resolved (Some r)
               | Rejected e => Rejected e
               | NeverSettles => NeverSettles
               end in
        match settled with
        | Resolved results =>
            let s := setCache (cacheStore cacheKey results (searchCache s)) s in
            (Returned results, setInProgress false s)
        | Rejected e => (Threw e, setInProgress false s)
        | NeverSettles => (Pending, s)
        end
    end.

End Engine.

(** [if (!taxonomies[category].includes(value)) taxonomies[category].push(value)];
    only an array has [includes]. *)
Definition pushValue (category : string) (tax : gmap string (list string))
    (value : string) : res (gmap string (list string)) :=
  match read (tax !! category) category with
  | Own held =>
      Ok (if bool_decide (value ∈ held) then tax
          else <[category := held ++ [value]]> tax)
  | _ => Throw TypeError
  end.

(** The body of [conn.sharedTaxonomies.forEach(taxonomy => { ... })]
    (lines 468-478): an inherited member is truthy, so the category is not
    initialised. *)
Definition mergeTaxonomy (tax : gmap string (list string))
    (taxonomy : Result.sharedTaxonomy) : res (gmap string (list string)) :=
  let tax := match read (tax !! Result.category taxonomy) (Result.category taxonomy) with
             | Absent => <[Result.category taxonomy := []]> tax
             | _ => tax
             end in
  forEachM (pushValue (Result.category taxonomy)) (Result.values taxonomy) tax.

(** [connections.forEach(conn => { if (conn.sharedTaxonomies) ... })] *)
Definition mergeConnections (conns : list Result.connection)
    (tax : gmap string (list string)) : res (gmap string (list string)) :=
  forEachM (fun tax conn => forEachM mergeTaxonomy (Result.sharedTaxonomies conn) tax)
    conns tax.

(** [formatAcademicData(results)] (lines 445-492). *)
Definition formatAcademicData (results : answer) : res (option Formatted.t) :=
  match results with
  | None => Ok None
  | Some r =>
      match Result.matches r with
      | None | Some [] => Ok None
      | Some (topMatch :: _) =>
          match Result.connections r with
          | None => Throw TypeError
          | Some all =>
              let connections := List.filter (involves (Result.name topMatch)) all in
              let connectionNames := map (otherEnd (Result.name topMatch)) connections in
              taxonomies ← mergeConnections connections ∅;
              Ok (Some {| Formatted.name := Result.name topMatch;
                          Formatted.bio := foundThrough (Result.query r);
                          Formatted.taxonomies := taxonomies;
                          Formatted.connections := connectionNames;
                          Formatted.papers := [];
                          Formatted.events := [] |})
          end
      end
  end.

End Proto.

(** ** Records and evidence next to the prototype chain *)

(** No category of the record names a member of [Object.prototype]. *)
Definition plainCategories (a : Academic) : bool :=
  match taxonomies a with
  | Some tax => forallb (fun c => bool_decide (tax !! c = None)) Proto.prototypeNames
  | None => true
  end.

(** An entry of the taxonomies of one record, holding at least one value,
    under a category that the other record ([taxB]) does not have and that
    names a member of [Object.prototype]. *)
Definition clash (taxB : gmap string (option (list string)))
    (entry : string * option (list string)) : bool :=
  match snd entry with
  | Some (_ :: _) =>
      bool_decide (taxB !! fst entry = None)
      && bool_decide (fst entry ∈ Proto.prototypeNames)
  | _ => false
  end.

Definition clashes (a b : Academic) : bool :=
  match taxonomies a, taxonomies b with
  | Some taxA, Some taxB => existsb (clash taxB) (map_to_list taxA)
  | _, _ => false
  end.

(** Two of the first five records of the ranking clash, the one of higher
    rank first. *)
Definition topClash (sorted : list Scored) : bool :=
  existsb (fun p => clashes (academic (fst p)) (academic (snd p)))
    (pairs (take 5 sorted)).

(** An evidence entry that holds a value under a category naming a member
    of [Object.prototype]. *)
Definition unmergeable (e : Result.sharedTaxonomy) : bool :=
  bool_decide (Result.category e ∈ Proto.prototypeNames)
  && negb (bool_decide (Result.values e = [])).

(** The own-property reading of a completion. *)
Definition withMembers (c : completion) : Proto.completion :=
  match c with
  | Returned results => Proto.Returned results
  | Threw e => Proto.Threw e
  | Pending => Proto.Pending
  end.

(** A record whose only category is named like a member of
    [Object.prototype], and which lists [foucault]. *)
Definition arendt : Academic :=
  {| name := Some "hannah-arendt"; bio := None;
     taxonomies := Some {[ "constructor" := Some ["Power"] ]}%string;
     papers := None; events := None;
     connections := Some ["michel-foucault"]%string |}.

(** A record with the same category, holding the same value. *)
Definition weil : Academic :=
  {| name := Some "simone-weil"; bio := None;
     taxonomies := Some {[ "constructor" := Some ["Power"] ]}%string;
     papers := None; events := None; connections := None |}.

(** A world whose remote service has not answered. *)
Definition awaitingWorld : World :=
  {| now := "T"; databaseManager := None; remote := NeverSettles |}.

(** A result whose connection has evidence under such a category. *)
Definition inheritedEvidence : Result.t :=
  {| Result.query := "power"; Result.timestamp := "T";
     Result.matches := Some [{| Result.name := Some "hannah-arendt";
                                Result.score := 3;
                                Result.relevance := "100.0%" |}];
     Result.connections :=
       Some [{| Result.academicA := Some "hannah-arendt";
                Result.academicB := Some "simone-weil";
                Result.isDirectlyConnected := false;
                Result.sharedTaxonomies :=
                  [{| Result.category := "constructor";
                      Result.values := ["Power"] |}];
                Result.strength := 2 |}]%string;
     Result.analysis := EmptyString |}.

(** * Properties *)

(** ** Strings *)

Lemma prefix_nil s : String.prefix EmptyString s = true.
Proof. by destruct s. Qed.

Lemma prefix_cons c k d s :
  String.prefix (String c k) (String d s)
  = if Ascii.ascii_dec c d then String.prefix k s else false.
Proof. reflexivity. Qed.

Lemma append_nil s : EmptyString +:+ s = s.
Proof. reflexivity. Qed.

Lemma append_cons c s t : String c s +:+ t = String c (s +:+ t).
Proof. reflexivity. Qed.

Lemma prefix_app k s :
  String.prefix k s = true <-> exists post, s = k +:+ post.
Proof.
  revert s. induction k as [|c k IH]; intros s.
  - rewrite prefix_nil. split; [intros _; by exists s | done].
  - destruct s as [|d s].
    + split; [done | intros [post H]; discriminate].
    + rewrite prefix_cons. destruct (Ascii.ascii_dec c d) as [->|Hne].
      * rewrite IH. split; intros [post H]; exists post.
        -- rewrite append_cons. by rewrite H.
        -- rewrite append_cons in H. congruence.
      * split; [done | intros [post H]; rewrite append_cons in H; congruence].
Qed.

Lemma includes_unfold s k :
  includes s k
  = String.prefix k s
    || match s with EmptyString => false | String _ r => includes r k end.
Proof. by destruct s. Qed.

(** [includes] is the substring relation. *)
Lemma includes_substring s k :
  includes s k = true <-> exists pre post, s = pre +:+ k +:+ post.
Proof.
  induction s as [|c s IH]; rewrite includes_unfold.
  - rewrite orb_false_r, prefix_app. split.
    + intros [post H]. by exists EmptyString, post.
    + intros [pre [post H]]. destruct pre; [by exists post | discriminate].
  - rewrite orb_true_iff, prefix_app, IH. split.
    + intros [[post H] | [pre [post H]]].
      * by exists EmptyString, post.
      * exists (String c pre), post. rewrite append_cons. by rewrite H.
    + intros [pre [post H]]. destruct pre as [|d pre].
      * left. by exists post.
      * right. exists pre, post. rewrite append_cons in H. congruence.
Qed.

Lemma includes_empty s : includes s EmptyString = true.
Proof. destruct s; reflexivity. Qed.

Lemma allChars_snoc p s c :
  allChars p (s +:+ String c EmptyString) = allChars p s && p c.
Proof.
  induction s as [|d s IH].
  - rewrite append_nil. simpl. by rewrite andb_true_r.
  - rewrite append_cons. simpl. by rewrite IH, andb_assoc.
Qed.

(** The pieces of a split hold no white space. *)
Lemma split_from_no_space cur gap s :
  allChars (fun c => negb (isWhiteSpace c)) cur = true ->
  Forall (fun piece => allChars (fun c => negb (isWhiteSpace c)) piece = true)
    (split_from cur gap s).
Proof.
  revert cur gap. induction s as [|c s IH]; intros cur gap Hcur; simpl.
  - by repeat constructor.
  - destruct (isWhiteSpace c) eqn:Hc.
    + destruct gap; [by apply IH|]. constructor; [done | by apply IH].
    + apply IH. by rewrite allChars_snoc, Hcur, Hc.
Qed.

Lemma split_ws_no_space s :
  Forall (fun piece => allChars (fun c => negb (isWhiteSpace c)) piece = true)
    (split_ws s).
Proof. by apply split_from_no_space. Qed.

Lemma stripNonWord_word s : allChars isWordChar (stripNonWord s) = true.
Proof.
  induction s as [|c s IH]; [done|]. simpl.
  destruct (isWordChar c) eqn:Hc; [|done]. simpl. by rewrite Hc.
Qed.

(** Every token is made of word characters only. *)
Lemma keywords_word_characters q :
  Forall (fun k => allChars isWordChar k = true) (keywords q).
Proof.
  unfold keywords. apply Forall_map, Forall_forall. intros w _.
  apply stripNonWord_word.
Qed.

Example split_ws_pieces :
  split_ws "  a b " = [""; "a"; "b"; ""]%string
  /\ split_ws "" = [""]%string
  /\ split_ws "one" = ["one"]%string.
Proof. repeat split; reflexivity. Qed.

Example toLowerCase_latin1 :
  toLowerCase "Michel FOUCAULT_9" = "michel foucault_9"%string.
Proof. reflexivity. Qed.

Example includes_cases :
  includes "power" "" = true /\ includes "" "" = true
  /\ includes "power" "owe" = true /\ includes "power" "wo" = false.
Proof. repeat split; reflexivity. Qed.

Example trim_cases :
  trim "  a b  " = "a b"%string /\ trim "   " = ""%string.
Proof. split; reflexivity. Qed.

Example keywords_cases :
  keywords "What's  POWER? !!!! a.b. abc" = ["whats"; "power"; ""; "ab"]%string
  /\ keywords "a is to" = [].
Proof. split; reflexivity. Qed.

(** ** Scoring *)

Lemma addMatches_count text w kws sc :
  addMatches text w kws sc
  = sc + w * Z.of_nat (length (List.filter (fun k => includes text k) kws)).
Proof.
  unfold addMatches. revert sc.
  induction kws as [|k kws IH]; intros sc; simpl; [lia|].
  rewrite IH. destruct (includes text k); simpl; lia.
Qed.

Lemma hits_nil kws : hits kws [] = 0.
Proof. reflexivity. Qed.

Lemma hits_cons kws t ts :
  hits kws (t :: ts)
  = Z.of_nat (length (List.filter (fun k => includes (toLowerCase t) k) kws))
    + hits kws ts.
Proof.
  unfold hits. simpl. rewrite List.filter_app, length_app, Nat2Z.inj_add.
  f_equal. f_equal. f_equal.
  induction kws as [|k kws IH]; simpl; [done|].
  destruct (includes (toLowerCase t) k); simpl; by rewrite IH.
Qed.

Lemma hits_app kws ts1 ts2 :
  hits kws (ts1 ++ ts2) = hits kws ts1 + hits kws ts2.
Proof.
  induction ts1 as [|t ts1 IH]; simpl; [rewrite hits_nil; lia|].
  rewrite !hits_cons, IH. lia.
Qed.

Lemma hits_nonneg kws ts : 0 <= hits kws ts.
Proof. unfold hits. lia. Qed.

Lemma hits_no_keywords ts : hits [] ts = 0.
Proof.
  induction ts as [|t ts IH]; [done|]. rewrite hits_cons, IH. reflexivity.
Qed.

Lemma addValues_hits kws vals sc :
  addValues kws vals sc = sc + 3 * hits kws vals.
Proof.
  unfold addValues. revert sc.
  induction vals as [|v vals IH]; intros sc; simpl.
  - rewrite hits_nil. lia.
  - rewrite IH, addMatches_count, hits_cons. lia.
Qed.

Lemma addTaxonomies_hits kws tax sc :
  addTaxonomies kws tax sc = sc + 3 * hits kws (allValues tax).
Proof.
  unfold addTaxonomies, allValues. generalize (map_to_list tax) as entries. intros entries.
  revert sc. induction entries as [|[c vals] entries IH]; intros sc; simpl.
  - rewrite hits_nil. lia.
  - rewrite IH, hits_app. destruct vals as [vals|]; simpl.
    + rewrite addValues_hits. lia.
    + rewrite hits_nil. lia.
Qed.

Lemma forEachM_cons {A S} (body : S -> A -> res S) a r s :
  forEachM body (a :: r) s
  = match body s a with
    | Ok s' => forEachM body r s'
    | Throw e => Throw e
    end.
Proof. reflexivity. Qed.

Lemma bind_Ok {A B} (a : A) (k : A -> res B) : (Ok a ≫= k) = k a.
Proof. reflexivity. Qed.

Lemma bind_Throw {A B} e (k : A -> res B) : (Throw e ≫= k) = Throw e.
Proof. reflexivity. Qed.

Lemma addTitles_hits kws items sc :
  forallb (fun p => bool_decide (is_Some (title p))) items = true ->
  addTitles kws items sc = Ok (sc + hits kws (omap title items)).
Proof.
  unfold addTitles. revert sc.
  induction items as [|p items IH]; intros sc H.
  - simpl. rewrite hits_nil. f_equal. lia.
  - simpl in H. apply andb_true_iff in H as [Hp Hr].
    apply bool_decide_eq_true in Hp. destruct Hp as [t Ht].
    rewrite forEachM_cons, Ht, (IH _ Hr), addMatches_count.
    simpl. rewrite Ht, hits_cons.
    change (list_omap _ _ title items) with (omap title items). f_equal. lia.
Qed.

Lemma addTitles_untitled kws items sc :
  forallb (fun p => bool_decide (is_Some (title p))) items = false ->
  addTitles kws items sc = Throw TypeError.
Proof.
  unfold addTitles. revert sc.
  induction items as [|p items IH]; intros sc H; [done|].
  rewrite forEachM_cons. simpl in H.
  destruct (title p) as [t|] eqn:Ht; [|reflexivity].
  rewrite bool_decide_eq_true_2 in H by eauto. by apply IH.
Qed.

Lemma scoreAcademic_wellFormed kws a :
  wellFormed a = true -> scoreAcademic kws a = Ok (describedScore kws a).
Proof.
  unfold wellFormed, titled. intros H.
  apply andb_true_iff in H as [H He]. apply andb_true_iff in H as [Hn Hp].
  apply bool_decide_eq_true in Hn. destruct Hn as [n Hn].
  unfold scoreAcademic, describedScore, nameBonus, tagValues, titlesOf.
  rewrite Hn, bind_Ok.
  destruct (bio a) as [b|]; [destruct (isEmpty b) eqn:Hb|];
    destruct (taxonomies a) as [tax|];
    destruct (papers a) as [ps|]; destruct (events a) as [es|];
    unfold option_list, default, id; simpl List.filter;
    rewrite ?Hb; simpl negb; cbv iota;
    rewrite ?addTaxonomies_hits, ?addMatches_count;
    rewrite ?addTitles_hits by done; rewrite ?bind_Ok;
    rewrite ?addTitles_hits by done; rewrite ?bind_Ok;
    f_equal; rewrite ?hits_cons, ?hits_nil;
    change (list_omap _ _ title []) with (@nil string);
    rewrite ?hits_nil;
    destruct (existsb _ kws); lia.
Qed.

Lemma scoreAcademic_malformed kws a :
  wellFormed a = false -> scoreAcademic kws a = Throw TypeError.
Proof.
  unfold wellFormed, titled, scoreAcademic. intros H.
  destruct (name a) as [n|]; [|reflexivity].
  rewrite bool_decide_eq_true_2 in H by eauto. rewrite bind_Ok.
  simpl in H. apply andb_false_iff in H as [H|H].
  - destruct (papers a) as [ps|]; [|done].
    by rewrite addTitles_untitled.
  - destruct (papers a) as [ps|].
    + destruct (addTitles kws ps _) as [s3|e] eqn:Hps.
      * rewrite bind_Ok. destruct (events a) as [es|]; [|done].
        by rewrite addTitles_untitled.
      * rewrite bind_Throw. f_equal.
        destruct (forallb (fun p => bool_decide (is_Some (title p))) ps) eqn:Hf.
        -- rewrite addTitles_hits in Hps by done. discriminate.
        -- rewrite addTitles_untitled in Hps by done. congruence.
    + rewrite bind_Ok. destruct (events a) as [es|]; [|done].
      by rewrite addTitles_untitled.
Qed.

Lemma describedScore_nonneg kws a : 0 <= describedScore kws a.
Proof.
  unfold describedScore, nameBonus.
  pose proof (hits_nonneg kws (List.filter (fun b => negb (isEmpty b))
                                 (option_list (bio a)))).
  pose proof (hits_nonneg kws (tagValues a)).
  pose proof (hits_nonneg kws (titlesOf (papers a))).
  pose proof (hits_nonneg kws (titlesOf (events a))).
  destruct (existsb _ kws); lia.
Qed.

Lemma describedScore_no_keywords a : describedScore [] a = 0.
Proof.
  unfold describedScore, nameBonus. simpl. by rewrite !hits_no_keywords.
Qed.

Lemma found_cons kws a corpus :
  found kws (a :: corpus)
  = (if 0 <? describedScore kws a
     then [{| academic := a; score := describedScore kws a |}] else [])
    ++ found kws corpus.
Proof. unfold found. simpl. by destruct (0 <? describedScore kws a). Qed.

Lemma scoreAll_from kws corpus acc :
  forallb wellFormed corpus = true ->
  forEachM (fun matches a =>
              score ← scoreAcademic kws a;
              Ok (if 0 <? score
                  then matches ++ [{| academic := a; score := score |}]
                  else matches))
    corpus acc
  = Ok (acc ++ found kws corpus).
Proof.
  revert acc. induction corpus as [|a corpus IH]; intros acc H.
  - simpl. by rewrite app_nil_r.
  - simpl in H. apply andb_true_iff in H as [Ha Hr].
    rewrite forEachM_cons, (scoreAcademic_wellFormed _ _ Ha), bind_Ok.
    rewrite (IH _ Hr), found_cons.
    destruct (0 <? describedScore kws a); by rewrite <- ?app_assoc.
Qed.

Lemma scoreAll_found kws corpus :
  forallb wellFormed corpus = true ->
  scoreAll kws corpus = Ok (found kws corpus).
Proof. intros H. unfold scoreAll. by rewrite scoreAll_from. Qed.

Lemma scoreAll_from_malformed kws corpus acc :
  forallb wellFormed corpus = false ->
  forEachM (fun matches a =>
              score ← scoreAcademic kws a;
              Ok (if 0 <? score
                  then matches ++ [{| academic := a; score := score |}]
                  else matches))
    corpus acc
  = Throw TypeError.
Proof.
  revert acc. induction corpus as [|a corpus IH]; intros acc H; [done|].
  rewrite forEachM_cons. simpl in H.
  destruct (wellFormed a) eqn:Ha.
  - rewrite (scoreAcademic_wellFormed _ _ Ha), bind_Ok. by apply IH.
  - by rewrite (scoreAcademic_malformed _ _ Ha), bind_Throw.
Qed.

Lemma scoreAll_malformed kws corpus :
  forallb wellFormed corpus = false ->
  scoreAll kws corpus = Throw TypeError.
Proof. apply scoreAll_from_malformed. Qed.

(** ** Sorting *)

Section SortByKey.
Context {A : Type} (key : A -> Z).

Lemma insertBy_perm x l : insertBy (fun a b => key b - key a) x l ≡ₚ x :: l.
Proof.
  induction l as [|y l IH]; simpl; [done|].
  destruct (0 <? (fun a b => key b - key a) x y); [|done].
  rewrite IH. apply perm_swap.
Qed.

Lemma sortBy_perm l : sortBy (fun a b => key b - key a) l ≡ₚ l.
Proof.
  induction l as [|x l IH]; simpl; [done|].
  unfold sortBy in *. simpl. by rewrite insertBy_perm, IH.
Qed.

Lemma sortBy_length l : length (sortBy (fun a b => key b - key a) l) = length l.
Proof. by rewrite sortBy_perm. Qed.

Lemma insertBy_descending x l :
  descending key l -> descending key (insertBy (fun a b => key b - key a) x l).
Proof.
  unfold descending. induction l as [|y l IH]; intros Hs; simpl.
  - repeat constructor.
  - apply StronglySorted_inv in Hs as [Hl Hy].
    destruct (0 <? (fun a b => key b - key a) x y) eqn:Hc.
    + apply Z.ltb_lt in Hc. simpl in Hc.
      constructor; [by apply IH|].
      rewrite insertBy_perm. constructor; [lia | done].
    + apply Z.ltb_ge in Hc. simpl in Hc.
      constructor; [by constructor|].
      constructor; [lia|].
      eapply Forall_impl; [exact Hy|]. simpl. intros z Hz. lia.
Qed.

Lemma sortBy_descending l : descending key (sortBy (fun a b => key b - key a) l).
Proof.
  induction l as [|x l IH]; [constructor|].
  unfold sortBy in *. simpl. by apply insertBy_descending.
Qed.

Lemma insertBy_ties x l k :
  List.filter (fun y => key y =? k) (insertBy (fun a b => key b - key a) x l)
  = List.filter (fun y => key y =? k) (x :: l).
Proof.
  induction l as [|y l IH]; [done|].
  simpl insertBy. destruct (0 <? (fun a b => key b - key a) x y) eqn:Hc; [|done].
  apply Z.ltb_lt in Hc. simpl in Hc.
  simpl in *. rewrite IH.
  destruct (key x =? k) eqn:Hx; [|done].
  apply Z.eqb_eq in Hx.
  destruct (key y =? k) eqn:Hy; [|done].
  apply Z.eqb_eq in Hy. lia.
Qed.

Lemma sortBy_ties l : keepsTies key l (sortBy (fun a b => key b - key a) l).
Proof.
  intros k. induction l as [|x l IH]; [done|].
  unfold sortBy in *. simpl foldr. rewrite insertBy_ties.
  simpl. by rewrite IH.
Qed.

End SortByKey.

(** ** Pairs of the top matches *)

Lemma pairs_length {A} (l : list A) :
  (2 * length (pairs l) = length l * (length l - 1))%nat.
Proof.
  induction l as [|a l IH]; simpl; [done|].
  rewrite length_app, length_map. nia.
Qed.

Lemma pairs_top_length {A} (l : list A) : (length (pairs (take 5 l)) <= 10)%nat.
Proof.
  pose proof (pairs_length (take 5 l)) as H.
  assert (length (take 5 l) <= 5)%nat by (rewrite length_take; lia).
  nia.
Qed.

Lemma omap_length_le {A B} (f : A -> option B) (l : list A) :
  (length (omap f l) <= length l)%nat.
Proof.
  induction l as [|a l IH]; [done|].
  simpl. change (list_omap A B f l) with (omap f l).
  destruct (f a); simpl; lia.
Qed.

Lemma connectTop_length sorted : (length (connectTop sorted) <= 10)%nat.
Proof.
  unfold connectTop.
  etrans; [apply omap_length_le | apply pairs_top_length].
Qed.

(** The pairs are the pairs of positions [i < j], first element first. *)
Lemma elem_of_pairs {A} (l : list A) (x y : A) :
  (x, y) ∈ pairs l
  <-> exists i j, (i < j)%nat /\ l !! i = Some x /\ l !! j = Some y.
Proof.
  induction l as [|a l IH]; simpl.
  - split; [by intros ?%elem_of_nil | by intros (i & j & _ & ? & _)].
  - rewrite elem_of_app, list_elem_of_fmap, IH. split.
    + intros [[z [Hz Hin]] | (i & j & Hij & Hi & Hj)].
      * inversion Hz; subst. apply list_elem_of_lookup in Hin as [j Hj].
        exists 0%nat, (S j). repeat split; [lia | done..].
      * exists (S i), (S j). repeat split; [lia | done..].
    + intros (i & j & Hij & Hi & Hj). destruct j as [|j]; [lia|].
      destruct i as [|i]; simpl in *.
      * left. exists y. split; [congruence|].
        apply list_elem_of_lookup. eauto.
      * right. exists i, j. repeat split; [lia | done..].
Qed.

(** ** Connection inference *)

Lemma sharedTaxonomies_fold taxB entries acc :
  fold_left (fun acc entry =>
               let category := fst entry in
               match snd entry, taxB !! category with
               | Some valuesA, Some (Some valuesB) =>
                   let shared := filter (fun value => value ∈ valuesB) valuesA in
                   if (0 <? length shared)%nat
                   then acc ++ [{| Result.category := category;
                                   Result.values := shared |}]
                   else acc
               | _, _ => acc
               end)
    entries acc
  = acc ++ omap (sharedEntry taxB) entries.
Proof.
  revert acc. induction entries as [|[c va] entries IH]; intros acc.
  - simpl. by rewrite app_nil_r.
  - simpl fold_left. rewrite IH. simpl omap. unfold sharedEntry at 2. simpl.
    change (list_omap _ _ (sharedEntry taxB) entries)
      with (omap (sharedEntry taxB) entries).
    destruct va as [va|]; [|done].
    destruct (taxB !! c) as [[vb|]|]; [|done..].
    destruct (0 <? length (filter _ va))%nat; [|done].
    by rewrite <- app_assoc.
Qed.

Lemma sharedTaxonomiesOf_omap a b taxA taxB :
  taxonomies a = Some taxA -> taxonomies b = Some taxB ->
  sharedTaxonomiesOf a b = omap (sharedEntry taxB) (map_to_list taxA).
Proof.
  intros Ha Hb. unfold sharedTaxonomiesOf. rewrite Ha, Hb.
  by rewrite sharedTaxonomies_fold.
Qed.

Lemma sharedEntry_Some taxB c va e :
  sharedEntry taxB (c, va) = Some e
  <-> exists valuesA valuesB,
        va = Some valuesA /\ taxB !! c = Some (Some valuesB)
        /\ filter (fun v => v ∈ valuesB) valuesA <> []
        /\ e = {| Result.category := c;
                  Result.values := filter (fun v => v ∈ valuesB) valuesA |}.
Proof.
  unfold sharedEntry. simpl. split.
  - destruct va as [va|]; [|done].
    destruct (taxB !! c) as [[vb|]|]; [|done..].
    destruct (0 <? length _)%nat eqn:Hlen; [|done].
    intros [= <-]. exists va, vb. repeat split.
    apply Nat.ltb_lt in Hlen. intros Hnil. rewrite Hnil in Hlen. simpl in Hlen. lia.
  - intros (valuesA & valuesB & -> & -> & Hne & ->).
    destruct (filter _ valuesA) as [|v l] eqn:Hf; [done|]. reflexivity.
Qed.

Lemma sharedTaxonomiesOf_elem a b e :
  e ∈ sharedTaxonomiesOf a b
  <-> exists va vb,
        tagsIn a (Result.category e) = Some va
        /\ tagsIn b (Result.category e) = Some vb
        /\ Result.values e = filter (fun v => v ∈ vb) va
        /\ Result.values e <> [].
Proof.
  unfold tagsIn, sharedTaxonomiesOf.
  destruct (taxonomies a) as [taxA|] eqn:Ha.
  2:{ split; [by intros ?%elem_of_nil | by intros (? & ? & ? & _)]. }
  destruct (taxonomies b) as [taxB|] eqn:Hb.
  2:{ split; [by intros ?%elem_of_nil | by intros (? & ? & _ & ? & _)]. }
  rewrite sharedTaxonomies_fold, app_nil_l, list_elem_of_omap. split.
  - intros ([c va] & Hin & He). apply elem_of_map_to_list in Hin.
    apply sharedEntry_Some in He as (valuesA & valuesB & -> & HB & Hne & ->).
    simpl. exists valuesA, valuesB. by rewrite Hin, HB.
  - intros (va & vb & HA & HB & Hv & Hne).
    destruct (taxA !! Result.category e) as [[va'|]|] eqn:HA'; [|done..].
    destruct (taxB !! Result.category e) as [[vb'|]|] eqn:HB'; [|done..].
    injection HA as ->. injection HB as ->.
    exists (Result.category e, Some va). split.
    + by apply elem_of_map_to_list.
    + apply sharedEntry_Some. exists va, vb. repeat split; try done.
      * by rewrite <- Hv.
      * destruct e; simpl in *. by rewrite Hv.
Qed.







(** ** The search as a whole *)

Lemma demoSearchBody_unfold relevanceOf now db q :
  demoSearchBody relevanceOf now db q
  = (matches ← scoreAll (keywords q) (default [] db);
     let matches := sortBy (fun a b => score b - score a) matches in
     let connections := connectTop matches in
     Ok {| Result.query := q;
           Result.timestamp := now;
           Result.matches := Some (map (matchOut relevanceOf matches) (take 10 matches));
           Result.connections :=
             Some (sortBy (fun a b => Result.strength b - Result.strength a)
                     connections);
           Result.analysis := analysisOf matches connections q |}).
Proof. by destruct db. Qed.

Lemma found_positive kws corpus : Forall (fun m => 0 < score m) (found kws corpus).
Proof.
  unfold found. apply Forall_forall. intros m Hin.
  apply list_elem_of_In, filter_In in Hin as [_ H]. by apply Z.ltb_lt.
Qed.

Lemma descending_take {A} (key : A -> Z) n l :
  descending key l -> descending key (take n l).
Proof.
  unfold descending. revert n. induction l as [|x l IH]; intros n Hs.
  - by rewrite take_nil.
  - destruct n as [|n]; [constructor|]. simpl.
    apply StronglySorted_inv in Hs as [Hl Hx].
    constructor; [by apply IH | by apply Forall_take].
Qed.

Lemma descending_map {A B} (f : A -> B) (keyA : A -> Z) (keyB : B -> Z) l :
  (forall x, keyB (f x) = keyA x) ->
  descending keyA l -> descending keyB (map f l).
Proof.
  intros Hk. unfold descending. induction 1 as [|x l Hl IH Hx]; simpl.
  - constructor.
  - constructor; [done|]. apply Forall_map.
    eapply Forall_impl; [exact Hx|]. simpl. intros y Hy. by rewrite !Hk.
Qed.

(** C2 (as amended). The result of a search depends on the clock only
    through its [timestamp]: two runs on the same query and corpus end the
    same way, and when they end with a result, the two results agree on
    [query], [matches], [connections] and [analysis], each carrying the
    clock reading of its own run as [timestamp]. *)
Theorem search_deterministic_up_to_clock relevanceOf now1 now2 db q :
  match demoSearchBody relevanceOf now1 db q,
        demoSearchBody relevanceOf now2 db q with
  | Ok r1, Ok r2 =>
      Result.timestamp r1 = now1 /\ Result.timestamp r2 = now2
      /\ Result.query r1 = Result.query r2
      /\ Result.matches r1 = Result.matches r2
      /\ Result.connections r1 = Result.connections r2
      /\ Result.analysis r1 = Result.analysis r2
  | Throw e1, Throw e2 => e1 = e2
  | _, _ => False
  end.
Proof.
  rewrite !demoSearchBody_unfold.
  destruct (scoreAll (keywords q) (default [] db)) as [ms|e].
  - rewrite !bind_Ok. simpl. repeat split.
  - by rewrite !bind_Throw.
Qed.

(** C2 (as stated) fails: two calls with the same query and corpus, made at
    different times, return results that differ in [timestamp]. *)
Lemma same_arguments_different_output :
  demoSearch plainRelevance "2025-03-01T10:00:00.000Z" (Some [foucault; butler]) "power"
  <> demoSearch plainRelevance "2025-03-01T10:00:05.000Z" (Some [foucault; butler]) "power".
Proof. vm_compute. intros H. discriminate H. Qed.

(** C3 (as amended). For every record that has a name and whose papers and
    events have titles, and every query, the score computed by the loop
    is: 5 if some token is a substring of the lower-cased name, plus 2 per
    token that is a substring of the lower-cased description when the
    description is not empty (an absent or empty description adds nothing),
    plus 3 per (tag value, token) pair and 1 per (paper title, token) and
    (event title, token) pair in which the token is a substring of the
    lower-cased value or title. The tokens are the pieces of the
    lower-cased query between runs of white space that are longer than 3
    characters, with their non-word characters removed. *)
Theorem score_formula q a :
  wellFormed a = true ->
  keywords q
  = map stripNonWord
      (List.filter (fun w => (3 <? String.length w)%nat)
         (split_ws (toLowerCase q)))
  /\ scoreAcademic (keywords q) a
     = Ok ((if existsb (fun k => includes (toLowerCase (default EmptyString (name a))) k)
                 (keywords q)
            then 5 else 0)
           + 2 * hits (keywords q)
                   (List.filter (fun b => negb (isEmpty b)) (option_list (bio a)))
           + 3 * hits (keywords q) (tagValues a)
           + hits (keywords q) (titlesOf (papers a))
           + hits (keywords q) (titlesOf (events a))).
Proof.
  intros H. split; [reflexivity|].
  by rewrite (scoreAcademic_wellFormed _ _ H).
Qed.

Lemma score_formula_witness :
  scoreAcademic (keywords "Power and GENDER") butler = Ok 6.
Proof.
  destruct (score_formula "Power and GENDER" butler) as [_ H]; [reflexivity|].
  rewrite H. vm_compute. reflexivity.
Defined.

(** C3 (as stated) fails on an empty description: the query [????] leaves
    the empty token, which is a substring of every string; the stated sum
    counts 2 for the empty description, the code skips a description that
    is the empty string. *)
Lemma empty_description_not_counted :
  keywords "????" = [EmptyString]
  /\ scoreAcademic (keywords "????") terse = Ok 5
  /\ statedScore (keywords "????") terse = 7.
Proof. repeat split; vm_compute; reflexivity. Qed.

Lemma elem_of_connectTop sorted rel :
  rel ∈ connectTop sorted
  <-> exists i j A B, (i < j < 5)%nat
        /\ sorted !! i = Some A /\ sorted !! j = Some B
        /\ connect (academic A) (academic B) = Some rel.
Proof.
  unfold connectTop. rewrite list_elem_of_omap. split.
  - intros ([A B] & Hin & Hc). apply elem_of_pairs in Hin as (i & j & Hij & Hi & Hj).
    apply lookup_take_Some in Hi as [Hi Hi5].
    apply lookup_take_Some in Hj as [Hj Hj5].
    exists i, j, A, B. repeat split; [lia | lia | done..].
  - intros (i & j & A & B & Hij & Hi & Hj & Hc).
    exists (A, B). split; [|done]. apply elem_of_pairs.
    exists i, j. split; [lia|].
    split; apply lookup_take_Some; (split; [done | lia]).
Qed.


Lemma connect_Some a b rel :
  connect a b = Some rel ->
  Result.academicA rel = name a /\ Result.academicB rel = name b
  /\ Result.isDirectlyConnected rel = (lists a b || lists b a)
  /\ Result.sharedTaxonomies rel = sharedTaxonomiesOf a b
  /\ Result.strength rel
     = (if Result.isDirectlyConnected rel then 5 else 0)
       + 2 * Z.of_nat (length (Result.sharedTaxonomies rel)).
Proof.
  unfold connect.
  destruct (_ || (0 <? length (sharedTaxonomiesOf a b))%nat); [|done].
  intros [= <-]. simpl. repeat split. lia.
Qed.

(** C5. On a corpus the scoring loop can read, the search returns a
    result whose matches are the first ten of the ranking [sorted]: the
    records that score above zero, ordered by non-increasing score, records
    of equal score in the order in which the corpus holds them. Every
    returned match has a score above zero, at most ten are returned, and at
    most ten connections, which are the ones of the index pairs [i < j] of
    the first five ranks, ordered by non-increasing strength. *)
Theorem search_ranking relevanceOf now db q :
  forallb wellFormed (default [] db) = true ->
  exists r sorted out conns,
    demoSearchBody relevanceOf now db q = Ok r
    /\ sorted ≡ₚ found (keywords q) (default [] db)
    /\ descending score sorted
    /\ keepsTies score (found (keywords q) (default [] db)) sorted
    /\ Result.matches r = Some out
    /\ out = map (matchOut relevanceOf sorted) (take 10 sorted)
    /\ Forall (fun m => 0 < Result.score m) out
    /\ descending Result.score out
    /\ (length out <= 10)%nat
    /\ Result.connections r = Some conns
    /\ conns ≡ₚ connectTop sorted
    /\ descending Result.strength conns
    /\ (length conns <= 10)%nat.
Proof.
  intros Hwf. rewrite demoSearchBody_unfold, (scoreAll_found _ _ Hwf), bind_Ok.
  set (ms := found (keywords q) (default [] db)).
  set (sorted := sortBy (fun a b => score b - score a) ms).
  eexists _, sorted, _, _. split; [reflexivity|]. simpl.
  assert (Hperm : sorted ≡ₚ ms) by apply (sortBy_perm score).
  assert (Hdesc : descending score sorted) by apply (sortBy_descending score).
  assert (Hpos : Forall (fun m => 0 < score m) sorted).
  { rewrite Hperm. apply found_positive. }
  repeat split.
  - exact Hperm.
  - exact Hdesc.
  - apply (sortBy_ties score).
  - apply Forall_map. apply Forall_take.
    eapply Forall_impl; [exact Hpos|]. done.
  - apply (descending_map _ score); [done|]. by apply descending_take.
  - rewrite length_map, length_take. lia.
  - apply (sortBy_perm Result.strength).
  - apply (sortBy_descending Result.strength).
  - rewrite (sortBy_length Result.strength). apply connectTop_length.
Qed.

Lemma search_ranking_witness :
  exists r, demoSearchBody plainRelevance "T" (Some [butler; terse; foucault]) "power"
            = Ok r.
Proof.
  destruct (search_ranking plainRelevance "T" (Some [butler; terse; foucault]) "power")
    as (r & _ & _ & _ & Hr & _); [reflexivity|].
  by exists r.
Defined.

(** ** Insertion-ordered dictionaries *)

Section AssocFacts.
Context {K V : Type} `{EqDecision K}.
Implicit Types (k : K) (v : V) (m : list (K * V)).

Lemma get_None k m : Assoc.get k m = None <-> k ∉ Assoc.keys m.
Proof.
  unfold Assoc.keys. induction m as [|[k' v'] m IH]; simpl.
  - split; [intros _; apply not_elem_of_nil | done].
  - rewrite not_elem_of_cons. destruct (decide (k = k')) as [->|Hne].
    + split; [done | by intros [? _]].
    + rewrite IH. tauto.
Qed.

Lemma has_keys k m : Assoc.has k m = true <-> k ∈ Assoc.keys m.
Proof.
  unfold Assoc.has. destruct (Assoc.get k m) as [v|] eqn:Hg.
  - split; [intros _ | done].
    destruct (decide (k ∈ Assoc.keys m)) as [|Hn]; [done|].
    apply get_None in Hn. congruence.
  - split; [done|]. intros Hin. by apply get_None in Hg.
Qed.

Lemma set_fresh k v m : k ∉ Assoc.keys m -> Assoc.set k v m = m ++ [(k, v)].
Proof.
  unfold Assoc.keys. induction m as [|[k' v'] m IH]; simpl; [done|].
  rewrite not_elem_of_cons. intros [Hne Hnotin].
  destruct (decide (k = k')); [done|]. by rewrite IH.
Qed.

Lemma keys_set_present k v m :
  k ∈ Assoc.keys m -> Assoc.keys (Assoc.set k v m) = Assoc.keys m.
Proof.
  unfold Assoc.keys. induction m as [|[k' v'] m IH]; simpl.
  - by intros ?%elem_of_nil.
  - intros Hin. destruct (decide (k = k')) as [->|Hne]; [done|].
    simpl. f_equal. apply IH. apply elem_of_cons in Hin as [?|?]; done.
Qed.

Lemma keys_set k v m :
  Assoc.keys (Assoc.set k v m)
  = if decide (k ∈ Assoc.keys m) then Assoc.keys m else Assoc.keys m ++ [k].
Proof.
  destruct (decide (k ∈ Assoc.keys m)) as [Hin|Hn].
  - by apply keys_set_present.
  - rewrite set_fresh by done. unfold Assoc.keys. by rewrite map_app.
Qed.

Lemma keys_length m : length (Assoc.keys m) = length m.
Proof. unfold Assoc.keys. apply length_map. Qed.

Lemma NoDup_keys_set k v m :
  NoDup (Assoc.keys m) -> NoDup (Assoc.keys (Assoc.set k v m)).
Proof.
  intros Hnd. rewrite keys_set. destruct (decide (k ∈ Assoc.keys m)); [done|].
  apply NoDup_app. repeat split; [done | | apply NoDup_singleton].
  intros x Hx Hk. apply list_elem_of_singleton in Hk. by subst.
Qed.

Lemma delete_absent k m : k ∉ Assoc.keys m -> Assoc.delete k m = m.
Proof.
  unfold Assoc.keys. induction m as [|[k' v'] m IH]; simpl; [done|].
  rewrite not_elem_of_cons. intros [Hne Hnotin].
  destruct (decide (k = k')); [done|]. by rewrite IH.
Qed.

Lemma delete_first k v m :
  NoDup (Assoc.keys ((k, v) :: m)) -> Assoc.delete k ((k, v) :: m) = m.
Proof.
  unfold Assoc.keys. simpl. intros [Hnotin _]%NoDup_cons.
  destruct (decide (k = k)); [|done]. by apply delete_absent.
Qed.

End AssocFacts.

(** ** The query cache and the progress flag *)

Lemma cacheStore_fresh key r cache :
  NoDup (Assoc.keys cache) -> key ∉ Assoc.keys cache ->
  cacheStore key r cache
  = if (length cache <? 20)%nat then cache ++ [(key, r)]
    else tail cache ++ [(key, r)].
Proof.
  intros Hnd Hfresh. unfold cacheStore.
  assert (Hnd' : NoDup (Assoc.keys (Assoc.set key r cache)))
    by by apply NoDup_keys_set.
  rewrite set_fresh in * by done.
  rewrite keys_length, length_app. simpl length.
  destruct (20 <? length cache + 1)%nat eqn:Hlt.
  - apply Nat.ltb_lt in Hlt.
    destruct (length cache <? 20)%nat eqn:Hlt'; [apply Nat.ltb_lt in Hlt'; lia|].
    destruct cache as [|[k v] cache]; [simpl in Hlt; lia|].
    simpl. simpl in Hnd'. destruct (decide (k = k)); [|done].
    apply delete_absent. unfold Assoc.keys in Hnd'. simpl in Hnd'.
    by apply NoDup_cons in Hnd' as [? _].
  - apply Nat.ltb_ge in Hlt.
    destruct (length cache <? 20)%nat eqn:Hlt'; [done|].
    apply Nat.ltb_ge in Hlt'. lia.
Qed.

Lemma cacheStore_present key r cache :
  (length cache <= 20)%nat -> key ∈ Assoc.keys cache ->
  cacheStore key r cache = Assoc.set key r cache.
Proof.
  intros Hlen Hin. unfold cacheStore.
  rewrite (keys_set_present _ _ _ Hin), keys_length.
  destruct (20 <? length cache)%nat eqn:Hlt; [|done].
  apply Nat.ltb_lt in Hlt. lia.
Qed.

Lemma cacheStore_invariant key r cache :
  NoDup (Assoc.keys cache) -> (length cache <= 20)%nat ->
  NoDup (Assoc.keys (cacheStore key r cache))
  /\ (length (cacheStore key r cache) <= 20)%nat.
Proof.
  intros Hnd Hlen. destruct (decide (key ∈ Assoc.keys cache)) as [Hin|Hn].
  - rewrite cacheStore_present by done. split; [by apply NoDup_keys_set|].
    by rewrite <- keys_length, keys_set_present, keys_length.
  - rewrite cacheStore_fresh by done.
    pose proof (NoDup_keys_set key r cache Hnd) as Hnd'.
    rewrite set_fresh in Hnd' by done.
    destruct (length cache <? 20)%nat eqn:Hlt.
    + apply Nat.ltb_lt in Hlt. split; [done|].
      rewrite length_app. simpl. lia.
    + destruct cache as [|e cache]; simpl in *.
      * split; [done | lia].
      * unfold Assoc.keys in *. simpl in Hnd'.
        apply NoDup_cons in Hnd' as [_ Hnd']. split; [done|].
        rewrite length_app. simpl. lia.
Qed.

Lemma blank_query q :
  isEmpty q || isEmpty (trim q) = isEmpty (trim q).
Proof. by destruct q. Qed.

Lemma executeSearch_blank relevanceOf w q options s :
  isEmpty (trim q) = true ->
  executeSearch relevanceOf w q options s = (Threw EmptyQuery, s).
Proof. intros H. unfold executeSearch. by rewrite blank_query, H. Qed.

Lemma executeSearch_hit relevanceOf w q options s cached :
  isEmpty (trim q) = false ->
  Assoc.get (cacheKeyOf (trim q) (depthOf options s)) (searchCache s)
  = Some (Some cached) ->
  executeSearch relevanceOf w q options s = (Returned (Some cached), s).
Proof.
  intros Hq Hc. unfold executeSearch. by rewrite blank_query, Hq, Hc.
Qed.

Lemma executeSearch_miss relevanceOf w q options s :
  isEmpty (trim q) = false ->
  (forall cached,
     Assoc.get (cacheKeyOf (trim q) (depthOf options s)) (searchCache s)
     <> Some (Some cached)) ->
  executeSearch relevanceOf w q options s
  = match settlement relevanceOf w (trim q) s with
    | Resolved results =>
        (Returned results,
         setInProgress false
           (setCache (cacheStore (cacheKeyOf (trim q) (depthOf options s))
                        results (searchCache s))
              (setInProgress true s)))
    | Rejected e => (Threw e, setInProgress false (setInProgress true s))
    | NeverSettles => (Pending, setInProgress true s)
    end.
Proof.
  intros Hq Hc. unfold executeSearch, settlement.
  rewrite blank_query, Hq.
  destruct (Assoc.get _ (searchCache s)) as [[cached|]|] eqn:Hg;
    [by destruct (Hc cached) | done..].
Qed.

Lemma executeSearch_quiescent relevanceOf w q options s c s' :
  quiescent s ->
  executeSearch relevanceOf w q options s = (c, s') ->
  c <> Pending -> quiescent s'.
Proof.
  intros (Hflag & Hnd & Hlen) Hexec Hc.
  destruct (isEmpty (trim q)) eqn:Hq.
  { rewrite executeSearch_blank in Hexec by done. by injection Hexec as <- <-. }
  destruct (Assoc.get (cacheKeyOf (trim q) (depthOf options s)) (searchCache s))
    as [[cached|]|] eqn:Hg.
  { rewrite (executeSearch_hit _ _ _ _ _ cached) in Hexec by done.
    by injection Hexec as <- <-. }
  all: rewrite executeSearch_miss in Hexec by (done || (intros ?; congruence)).
  all: destruct (settlement relevanceOf w (trim q) s) as [r|e|];
    injection Hexec as <- <-; try done.
  all: repeat split; simpl; try done.
  all: by apply cacheStore_invariant.
Qed.

Lemma reachable_quiescent relevanceOf s :
  reachable relevanceOf s -> quiescent s.
Proof.
  induction 1 as [savedKey | s c s' Hreach IH Hrun].
  - repeat split; simpl; [constructor | lia].
  - destruct c as [w q options | key | | d]; simpl in Hrun.
    + destruct (executeSearch relevanceOf w q options s) as [c s1] eqn:Hexec.
      assert (c <> Pending /\ s1 = s') as [Hc ->]
        by (destruct c; split; congruence).
      by eapply executeSearch_quiescent.
    + injection Hrun as <-. unfold setAPIKey. by destruct (isEmpty key).
    + by injection Hrun as <-.
    + injection Hrun as <-. unfold setSearchDepth. by destruct (bool_decide _).
Qed.

Lemma found_no_keywords corpus : found [] corpus = [].
Proof.
  unfold found. induction corpus as [|a corpus IH]; [done|].
  simpl. by rewrite describedScore_no_keywords.
Qed.

Lemma analysisOf_nothing q : analysisOf [] [] q = noMatchAnalysis q.
Proof. reflexivity. Qed.

(** C8. On an object whose calls are made one after the other, the cache
    holds at most 20 entries after every call of [executeSearch]. A call
    answered from the cache leaves the object as it was, so the order of the
    entries is not touched. A call that returns a result for a key the cache
    does not hold appends the entry, and when the cache was full (20
    entries) drops the entry at the head, which is the oldest. A call that
    throws or stays pending leaves the cache as it was. *)
Theorem cache_bounded_fifo relevanceOf s w query options c s' :
  reachable relevanceOf s ->
  executeSearch relevanceOf w query options s = (c, s') ->
  (length (searchCache s') <= 20)%nat
  /\ (forall cached,
        isEmpty (trim query) = false ->
        Assoc.get (cacheKeyOf (trim query) (depthOf options s)) (searchCache s)
        = Some (Some cached) ->
        c = Returned (Some cached) /\ s' = s)
  /\ (forall r,
        c = Returned r ->
        Assoc.get (cacheKeyOf (trim query) (depthOf options s)) (searchCache s)
        = None ->
        searchCache s'
        = if (length (searchCache s) <? 20)%nat
          then searchCache s ++ [(cacheKeyOf (trim query) (depthOf options s), r)]
          else tail (searchCache s)
               ++ [(cacheKeyOf (trim query) (depthOf options s), r)])
  /\ ((forall r, c <> Returned r) -> searchCache s' = searchCache s).
Proof.
  intros Hreach Hexec.
  pose proof (reachable_quiescent _ _ Hreach) as (Hflag & Hnd & Hlen).
  destruct (isEmpty (trim query)) eqn:Hq.
  { rewrite executeSearch_blank in Hexec by done. injection Hexec as <- <-.
    split; [done|]. split; [done|]. split; [done|]. done. }
  set (key := cacheKeyOf (trim query) (depthOf options s)) in *.
  destruct (Assoc.get key (searchCache s)) as [[cached|]|] eqn:Hg.
  { rewrite (executeSearch_hit _ _ _ _ _ cached) in Hexec by done.
    injection Hexec as <- <-.
    split; [done|]. split; [|split; [done|done]].
    by intros cached' _ [= ->]. }
  all: rewrite executeSearch_miss in Hexec
    by (done || (fold key; intros ?; congruence)).
  all: fold key in Hexec.
  all: destruct (settlement relevanceOf w (trim query) s) as [r|e|];
    injection Hexec as <- <-; simpl.
  all: (split; [by (done || apply cacheStore_invariant)|]).
  all: (split; [done|]).
  all: split; [|try done].
  all: try (by intros ? [= <-] ?).
  all: try (intros ? [=]).
  all: try (intros Hr; by destruct (Hr r)).
  intros _. subst. apply cacheStore_fresh; [done | by apply get_None].
Qed.

Lemma cache_bounded_fifo_witness :
  (length (searchCache
             (snd (executeSearch plainRelevance (localWorld [foucault]) "power"
                     noOptions (constructor None)))) <= 20)%nat.
Proof.
  eapply (cache_bounded_fifo plainRelevance (constructor None)
            (localWorld [foucault]) "power" noOptions).
  - apply reach_new.
  - apply surjective_pairing.
Defined.

(** After twenty-one distinct queries the cache holds the last twenty, in
    the order of the calls: the first one is gone. *)
Example cache_evicts_oldest :
  Assoc.keys (searchCache (runQueries manyQueries (constructor None)))
  = map (fun q => cacheKeyOf q "medium") (tail manyQueries).
Proof. vm_compute. reflexivity. Qed.

(** ** Network data *)

Lemma elem_of_set {K V} `{EqDecision K} (k : K) (v : V) m entry :
  entry ∈ Assoc.set k v m -> entry = (k, v) \/ entry ∈ m.
Proof.
  induction m as [|[k' v'] m IH]; simpl.
  - intros Hin%list_elem_of_singleton. by left.
  - destruct (decide (k = k')) as [->|Hne]; intros Hin.
    + apply elem_of_cons in Hin as [-> | Hin]; [by left|].
      right. by right.
    + apply elem_of_cons in Hin as [-> | Hin]; [right; left|].
      destruct (IH Hin) as [?|?]; [by left | right; by right].
Qed.

Lemma filedById_keys nodes :
  filedById nodes -> map Graph.id (map snd nodes) = Assoc.keys nodes.
Proof.
  unfold filedById, Assoc.keys. induction 1 as [|[k n] nodes Hk _ IH]; [done|].
  simpl in *. by rewrite Hk, IH.
Qed.

Lemma addMatchNodes_cons m ms nodes :
  addMatchNodes (m :: ms) nodes
  = addMatchNodes ms (Assoc.set (Result.name m) (matchNode m) nodes).
Proof. reflexivity. Qed.

Lemma addMatchNodes_keys ms nodes k :
  k ∈ Assoc.keys (addMatchNodes ms nodes)
  <-> k ∈ Assoc.keys nodes \/ k ∈ map Result.name ms.
Proof.
  revert nodes. induction ms as [|m ms IH]; intros nodes.
  - simpl. split; [by left | intros [?|Hnil]; [done | by apply elem_of_nil in Hnil]].
  - rewrite addMatchNodes_cons, IH, keys_set. simpl.
    rewrite elem_of_cons.
    destruct (decide (Result.name m ∈ Assoc.keys nodes)) as [Hin|Hn].
    + split; [tauto|]. intros [?|[->|?]]; tauto.
    + rewrite elem_of_app, list_elem_of_singleton. tauto.
Qed.

Lemma addMatchNodes_NoDup ms nodes :
  NoDup (Assoc.keys nodes) -> NoDup (Assoc.keys (addMatchNodes ms nodes)).
Proof.
  revert nodes. induction ms as [|m ms IH]; intros nodes Hnd; [done|].
  rewrite addMatchNodes_cons. by apply IH, NoDup_keys_set.
Qed.

Lemma addMatchNodes_entries ms nodes :
  Forall (fun entry => Graph.id (snd entry) = fst entry
                       /\ Graph.group (snd entry) = Graph.match_) nodes ->
  Forall (fun entry => Graph.id (snd entry) = fst entry
                       /\ Graph.group (snd entry) = Graph.match_)
    (addMatchNodes ms nodes).
Proof.
  revert nodes. induction ms as [|m ms IH]; intros nodes Hall; [done|].
  rewrite addMatchNodes_cons. apply IH.
  apply Forall_forall. intros entry Hin.
  apply elem_of_set in Hin as [-> | Hin]; [done|].
  rewrite Forall_forall in Hall. by apply Hall.
Qed.

Lemma addMatchNodes_distinct ms nodes :
  NoDup (map Result.name ms) ->
  (forall k, k ∈ map Result.name ms -> k ∉ Assoc.keys nodes) ->
  addMatchNodes ms nodes
  = nodes ++ map (fun m => (Result.name m, matchNode m)) ms.
Proof.
  revert nodes. induction ms as [|m ms IH]; intros nodes Hnd Hfresh.
  - simpl. by rewrite app_nil_r.
  - simpl in Hnd. apply NoDup_cons in Hnd as [Hm Hnd].
    rewrite addMatchNodes_cons, set_fresh by (apply Hfresh; simpl; left).
    rewrite IH; [by rewrite <- app_assoc | done |].
    intros k Hk. unfold Assoc.keys. rewrite map_app, elem_of_app. simpl.
    intros [Hin | Hin%list_elem_of_singleton].
    + apply (Hfresh k); [simpl; by right | done].
    + by subst.
Qed.

Lemma addRelated_app who nodes :
  (who ∈ Assoc.keys nodes /\ addRelated who nodes = nodes)
  \/ ((who ∉ Assoc.keys nodes)
      /\ addRelated who nodes = nodes ++ [(who, relatedNode who)]).
Proof.
  unfold addRelated. destruct (Assoc.has who nodes) eqn:Hhas.
  - left. split; [by apply has_keys | done].
  - right. assert (who ∉ Assoc.keys nodes) as Hn.
    { intros Hin%has_keys. congruence. }
    split; [done | by apply set_fresh].
Qed.

(** The entries appended for the endpoints of the connections. *)
Lemma addConnections_app conns nodes links :
  NoDup (Assoc.keys nodes) ->
  exists extra,
    addConnections conns (nodes, links)
    = (nodes ++ extra, links ++ map linkOf conns)
    /\ NoDup (Assoc.keys (nodes ++ extra))
    /\ (forall k, k ∈ Assoc.keys (nodes ++ extra)
                  <-> k ∈ Assoc.keys nodes
                      \/ k ∈ flat_map (fun c => [Result.academicA c;
                                                  Result.academicB c]) conns)
    /\ Forall (fun entry => snd entry = relatedNode (fst entry)
                            /\ fst entry ∉ Assoc.keys nodes) extra.
Proof.
  revert nodes links. induction conns as [|c conns IH]; intros nodes links Hnd.
  - exists []. simpl. rewrite !app_nil_r. repeat split; try done.
    + by left.
    + intros [?|Hnil]; [done | by apply elem_of_nil in Hnil].
  - assert (forall who ns, NoDup (Assoc.keys ns) ->
              exists e, addRelated who ns = ns ++ e
                /\ NoDup (Assoc.keys (ns ++ e))
                /\ (forall k, k ∈ Assoc.keys (ns ++ e)
                              <-> k ∈ Assoc.keys ns \/ k = who)
                /\ Forall (fun entry => snd entry = relatedNode (fst entry)
                                        /\ fst entry ∉ Assoc.keys ns) e)
      as Hone.
    { intros who ns Hns. destruct (addRelated_app who ns) as [[Hin ->]|[Hn ->]].
      - exists []. rewrite app_nil_r. repeat split; try done.
        + by left.
        + intros [? | ->]; done.
      - exists [(who, relatedNode who)]. split; [done|].
        unfold Assoc.keys. rewrite map_app. simpl. repeat split.
        + apply NoDup_app. repeat split; [done | | apply NoDup_singleton].
          intros x Hx Hk%list_elem_of_singleton. by subst.
        + rewrite elem_of_app, list_elem_of_singleton. tauto.
        + rewrite elem_of_app, list_elem_of_singleton. tauto.
        + by repeat constructor. }
    destruct (Hone (Result.academicA c) nodes Hnd) as (e1 & H1 & Hnd1 & Hk1 & He1).
    destruct (Hone (Result.academicB c) (nodes ++ e1) Hnd1)
      as (e2 & H2 & Hnd2 & Hk2 & He2).
    destruct (IH ((nodes ++ e1) ++ e2) (links ++ [linkOf c]) Hnd2)
      as (e3 & H3 & Hnd3 & Hk3 & He3).
    exists (e1 ++ e2 ++ e3).
    assert (Hassoc : nodes ++ e1 ++ e2 ++ e3 = ((nodes ++ e1) ++ e2) ++ e3)
      by by rewrite <- !app_assoc.
    rewrite Hassoc. split; [|split; [|split]].
    + unfold addConnections in *. simpl fold_left. simpl fst. simpl snd.
      rewrite H1, H2, H3. simpl. f_equal. by rewrite <- (app_assoc links).
    + done.
    + intros k. split.
      * intros Hk. apply Hk3 in Hk as [Hk|Hk].
        -- apply Hk2 in Hk as [Hk | ->].
           ++ apply Hk1 in Hk as [Hk | ->]; [by left|]. right. simpl. left.
           ++ right. simpl. right. left.
        -- right. simpl. by do 2 right.
      * intros [Hk|Hk]; apply Hk3.
        -- left. apply Hk2. left. apply Hk1. by left.
        -- simpl in Hk. apply elem_of_cons in Hk as [-> | Hk].
           { left. apply Hk2. left. apply Hk1. by right. }
           apply elem_of_cons in Hk as [-> | Hk].
           { left. apply Hk2. by right. }
           by right.
    + apply Forall_app. split; [done|]. apply Forall_app. split.
      * eapply Forall_impl; [exact He2|]. simpl. intros entry [? Hn].
        split; [done|]. intros Hin. apply Hn, Hk1. by left.
      * eapply Forall_impl; [exact He3|]. simpl. intros entry [? Hn].
        split; [done|]. intros Hin. apply Hn, Hk2. left. apply Hk1. by left.
Qed.

Lemma connect_strength a b rel : connect a b = Some rel -> 2 <= Result.strength rel.
Proof.
  unfold connect. destruct (lists a b || lists b a); simpl.
  - intros [= <-]. simpl. lia.
  - destruct (0 <? length (sharedTaxonomiesOf a b))%nat eqn:Hlen; [|done].
    apply Nat.ltb_lt in Hlen. intros [= <-]. simpl. lia.
Qed.

(** The connections of a search result all have a strength of 2 or more,
    so that [connection.strength || 1] is the strength itself. *)
Lemma demoSearch_strengths relevanceOf now db q r conns :
  demoSearchBody relevanceOf now db q = Ok r ->
  Result.connections r = Some conns ->
  Forall (fun c => Result.strength c <> 0) conns.
Proof.
  rewrite demoSearchBody_unfold.
  destruct (scoreAll (keywords q) (default [] db)) as [ms|e]; [|done].
  rewrite bind_Ok. intros [= <-]. simpl. intros [= <-].
  apply Forall_forall. intros c Hc.
  rewrite (sortBy_perm Result.strength) in Hc.
  apply elem_of_connectTop in Hc as (i & j & A & B & _ & _ & _ & Hc).
  apply connect_strength in Hc. lia.
Qed.

(** C7. For a result that has its connections (each of non-zero strength,
    as those of every search result are), the graph has one node per
    identifier among the match names and connection endpoints, and no two
    nodes with the same identifier; a node is tagged [match] when its
    identifier is a match name and [related] otherwise; when the match names
    are distinct the first nodes are those of the matches, in rank order;
    and the links are those of the connections, one each and in order, with
    the endpoints, the strength and the direct or indirect type of the
    connection. *)
Theorem convertToNetworkData_graph r ms conns :
  Result.connections r = Some conns ->
  default [] (Result.matches r) = ms ->
  Forall (fun c => Result.strength c <> 0) conns ->
  NoDup (map Graph.id (Graph.nodes (convertToNetworkData (Some r))))
  /\ (forall x, x ∈ map Graph.id (Graph.nodes (convertToNetworkData (Some r)))
                <-> x ∈ referenced ms conns)
  /\ (forall n, n ∈ Graph.nodes (convertToNetworkData (Some r)) ->
        Graph.group n
        = if bool_decide (Graph.id n ∈ map Result.name ms)
          then Graph.match_ else Graph.related)
  /\ (NoDup (map Result.name ms) ->
      take (length ms) (Graph.nodes (convertToNetworkData (Some r)))
      = map matchNode ms)
  /\ Forall2 (fun c l =>
                Graph.source l = Result.academicA c
                /\ Graph.target l = Result.academicB c
                /\ Graph.value l = Result.strength c
                /\ Graph.type l = if Result.isDirectlyConnected c
                                  then Graph.direct else Graph.indirect)
       conns (Graph.links (convertToNetworkData (Some r))).
Proof.
  intros Hconns Hms Hstr. unfold convertToNetworkData. rewrite Hconns.
  assert (HM : match Result.matches r with
               | Some ms' => addMatchNodes ms' []
               | None => []
               end = addMatchNodes ms []).
  { subst ms. by destruct (Result.matches r). }
  rewrite HM. clear HM. set (M := addMatchNodes ms []).
  assert (HndM : NoDup (Assoc.keys M)) by (apply addMatchNodes_NoDup; constructor).
  assert (HkM : forall k, k ∈ Assoc.keys M <-> k ∈ map Result.name ms).
  { intros k. unfold M. rewrite addMatchNodes_keys. simpl. split; [|by right].
    intros [Hnil|?]; [by apply elem_of_nil in Hnil | done]. }
  assert (HeM : Forall (fun entry => Graph.id (snd entry) = fst entry
                                     /\ Graph.group (snd entry) = Graph.match_) M)
    by (apply addMatchNodes_entries; constructor).
  destruct (addConnections_app conns M [] HndM) as (E & -> & Hnd & Hk & HE).
  simpl fst. simpl snd.
  assert (Hfiled : filedById (M ++ E)).
  { apply Forall_app. split.
    - eapply Forall_impl; [exact HeM|]. by intros entry [? _].
    - eapply Forall_impl; [exact HE|]. simpl. by intros [k n] [-> _]. }
  simpl Graph.nodes. simpl Graph.links.
  rewrite (filedById_keys _ Hfiled). split; [done|]. split; [|split; [|split]].
  - intros x. rewrite Hk, HkM. unfold referenced. by rewrite elem_of_app.
  - intros n Hn. apply list_elem_of_fmap in Hn as ([k n'] & -> & Hin). simpl.
    apply elem_of_app in Hin as [Hin|Hin].
    + rewrite Forall_forall in HeM. destruct (HeM _ Hin) as [Hid Hg].
      simpl in *. rewrite Hg, bool_decide_eq_true_2; [done|].
      apply HkM. rewrite Hid. unfold Assoc.keys.
      apply list_elem_of_fmap. by exists (k, n').
    + rewrite Forall_forall in HE. destruct (HE _ Hin) as [Hrel Hfresh].
      simpl in *. subst n'. simpl. rewrite bool_decide_eq_false_2; [done|].
      intros Hname. by apply Hfresh, HkM.
  - intros Hdistinct. unfold M.
    rewrite addMatchNodes_distinct; [|done|].
    2:{ intros k _ Hnil. by apply elem_of_nil in Hnil. }
    cbn [app]. rewrite map_app, map_map. cbn [snd].
    rewrite take_app_length'; [done | by rewrite length_map].
  - cbn [app]. apply Forall2_fmap_r, Forall_Forall2_diag.
    eapply Forall_impl; [exact Hstr|]. simpl. intros c Hc. repeat split.
    unfold orOne. destruct (Result.strength c =? 0) eqn:Hz; [|done].
    apply Z.eqb_eq in Hz. done.
Qed.

Lemma convertToNetworkData_graph_witness :
  map Graph.id (Graph.nodes (convertToNetworkData (Some scenarioResult)))
  = [Some "michel-foucault"; Some "judith-butler"; Some "gilles-deleuze"]%string
  /\ NoDup (map Graph.id (Graph.nodes (convertToNetworkData (Some scenarioResult)))).
Proof.
  split; [reflexivity|].
  eapply (convertToNetworkData_graph scenarioResult).
  - reflexivity.
  - reflexivity.
  - repeat constructor; simpl; discriminate.
Defined.

(** C9. When the argument is [null] or [undefined], or has no
    [connections], [convertToNetworkData] returns the graph without nodes
    and links. *)
Theorem convertToNetworkData_empty results :
  results = None \/ (exists r, results = Some r /\ Result.connections r = None) ->
  convertToNetworkData results = {| Graph.nodes := []; Graph.links := [] |}.
Proof.
  intros [-> | (r & -> & Hr)]; [done|].
  unfold convertToNetworkData. by rewrite Hr.
Qed.

Lemma convertToNetworkData_empty_witness :
  convertToNetworkData (Some withoutConnections)
  = {| Graph.nodes := []; Graph.links := [] |}.
Proof.
  apply convertToNetworkData_empty. right.
  exists withoutConnections. split; reflexivity.
Defined.

(** ** The scenario of the specification *)

Example scenario_power :
  exists r,
    demoSearchBody plainRelevance "T" (Some [foucault; butler]) "power" = Ok r
    /\ map Result.score (default [] (Result.matches r)) = [3; 3]
    /\ map Result.name (default [] (Result.matches r))
       = [Some "michel-foucault"; Some "judith-butler"]%string
    /\ Result.connections r
       = Some [{| Result.academicA := Some "michel-foucault";
                  Result.academicB := Some "judith-butler";
                  Result.isDirectlyConnected := true;
                  Result.sharedTaxonomies :=
                    [{| Result.category := "theme"; Result.values := ["Power"] |}];
                  Result.strength := 7 |}]%string.
Proof. eexists. split; [vm_compute; reflexivity|]. repeat split. Qed.

(** A local search whose scoring loop throws does not complete: its call
    stays pending and the flag stays set. *)
Example pending_search_keeps_flag :
  executeSearch plainRelevance (localWorld [nameless]) "power" noOptions
    (constructor None)
  = (Pending, setInProgress true (constructor None)).
Proof. reflexivity. Qed.

(** * Further properties of the code *)

(** ** Trimming and tokens *)

Lemma trimStart_blank s :
  isEmpty (trimStart s) = allChars isWhiteSpace s.
Proof.
  induction s as [|c s IH]; [done|]. simpl.
  destruct (isWhiteSpace c); [by rewrite IH | done].
Qed.

Lemma trimEnd_blank s :
  isEmpty (trimEnd s) = allChars isWhiteSpace s.
Proof.
  induction s as [|c s IH]; [done|]. simpl.
  destruct (isWhiteSpace c); simpl; [|done].
  rewrite <- IH. by destruct (isEmpty (trimEnd s)).
Qed.

Lemma trimStart_allChars p s :
  allChars p s = true -> allChars p (trimStart s) = true.
Proof.
  induction s as [|c s IH]; [done|]. simpl.
  intros [Hc Hs]%andb_true_iff.
  destruct (isWhiteSpace c); [by apply IH|]. simpl. by rewrite Hc, Hs.
Qed.

Lemma trimStart_blank_inv s :
  allChars isWhiteSpace (trimStart s) = allChars isWhiteSpace s.
Proof.
  induction s as [|c s IH]; [done|]. simpl.
  destruct (isWhiteSpace c) eqn:Hc; [done|]. simpl. by rewrite Hc.
Qed.

Lemma trim_blank s : isEmpty (trim s) = allChars isWhiteSpace s.
Proof. unfold trim. by rewrite trimEnd_blank, trimStart_blank_inv. Qed.

(** X1. The queries [executeSearch] refuses as empty are exactly the
    strings made of white space only (the empty string among them): for
    these it throws the empty-query error and leaves the object as it was.
    For any query holding another character, a search run locally (no key
    set) never throws: it returns, or its promise stays pending. *)
Theorem blank_queries_are_white_space relevanceOf w query options s :
  (allChars isWhiteSpace query = true ->
     executeSearch relevanceOf w query options s = (Threw EmptyQuery, s))
  /\ (allChars isWhiteSpace query = false ->
      isInitialized s = false ->
      forall e, fst (executeSearch relevanceOf w query options s) <> Threw e).
Proof.
  split.
  - intros H. apply executeSearch_blank. by rewrite trim_blank.
  - intros H Hinit e. rewrite <- trim_blank in H.
    destruct (Assoc.get (cacheKeyOf (trim query) (depthOf options s)) (searchCache s))
      as [[cached|]|] eqn:Hg.
    { by rewrite (executeSearch_hit _ _ _ _ _ cached). }
    all: rewrite executeSearch_miss by (done || (intros ?; congruence)).
    all: unfold settlement; rewrite Hinit; unfold demoSearch.
    all: by destruct (demoSearchBody _ _ _ _).
Qed.

Lemma blank_queries_are_white_space_witness :
  executeSearch plainRelevance (localWorld [foucault]) "   " noOptions (constructor None)
  = (Threw EmptyQuery, constructor None)
  /\ fst (executeSearch plainRelevance (localWorld [nameless]) " power " noOptions
            (constructor None))
     <> Threw TypeError.
Proof.
  split.
  - apply (blank_queries_are_white_space plainRelevance (localWorld [foucault]) "   ").
    reflexivity.
  - apply (blank_queries_are_white_space plainRelevance (localWorld [nameless])
             " power " noOptions (constructor None)); reflexivity.
Defined.

Lemma trimStart_head s : headChar (fun c => negb (isWhiteSpace c)) (trimStart s) = true.
Proof.
  induction s as [|c s IH]; [done|]. simpl.
  destruct (isWhiteSpace c) eqn:Hc; [done|]. simpl. by rewrite Hc.
Qed.

Lemma trimStart_clean s :
  headChar (fun c => negb (isWhiteSpace c)) s = true -> trimStart s = s.
Proof.
  destruct s as [|c s]; [done|]. simpl. by intros ->%negb_true_iff.
Qed.

Lemma trimEnd_head s :
  headChar (fun c => negb (isWhiteSpace c)) s = true ->
  headChar (fun c => negb (isWhiteSpace c)) (trimEnd s) = true.
Proof.
  destruct s as [|c s]; [done|]. simpl. intros Hc.
  apply negb_true_iff in Hc. rewrite Hc. simpl. by rewrite Hc.
Qed.

Lemma trimEnd_last s : lastChar (fun c => negb (isWhiteSpace c)) (trimEnd s) = true.
Proof.
  induction s as [|c s IH]; [done|]. simpl.
  destruct (isWhiteSpace c) eqn:Hc; simpl.
  - destruct (trimEnd s) as [|d r] eqn:Hr; [done|]. simpl. exact IH.
  - destruct (trimEnd s) as [|d r] eqn:Hr; simpl; [by rewrite Hc | exact IH].
Qed.

Lemma trimEnd_idempotent s : trimEnd (trimEnd s) = trimEnd s.
Proof.
  induction s as [|c s IH]; [done|]. simpl.
  destruct (isWhiteSpace c && isEmpty (trimEnd s)) eqn:Hc; [done|].
  simpl. by rewrite IH, Hc.
Qed.

(** Trimming is idempotent, and what it returns neither starts nor
    ends with white space. *)
Theorem trim_normalises s :
  trim (trim s) = trim s
  /\ headChar (fun c => negb (isWhiteSpace c)) (trim s) = true
  /\ lastChar (fun c => negb (isWhiteSpace c)) (trim s) = true.
Proof.
  assert (Hhead : headChar (fun c => negb (isWhiteSpace c)) (trim s) = true)
    by apply trimEnd_head, trimStart_head.
  repeat split; [|done | apply trimEnd_last].
  unfold trim at 1. rewrite trimStart_clean by done.
  unfold trim. apply trimEnd_idempotent.
Qed.

(** X2. [executeSearch] treats a query and its trimmed form alike: same
    outcome, same state. *)
Theorem executeSearch_trims relevanceOf w query options s :
  executeSearch relevanceOf w (trim query) options s
  = executeSearch relevanceOf w query options s.
Proof.
  destruct (trim_normalises query) as [Hidem _].
  unfold executeSearch. by rewrite !blank_query, Hidem.
Qed.

Lemma allChars_impl (p q : ascii -> bool) s :
  (forall c, p c = true -> q c = true) ->
  allChars p s = true -> allChars q s = true.
Proof.
  intros Hpq. induction s as [|c s IH]; [done|]. simpl.
  intros [Hc Hs]%andb_true_iff. by rewrite (Hpq _ Hc), IH.
Qed.

Lemma split_from_allChars p cur gap s :
  allChars p cur = true -> allChars p s = true ->
  Forall (fun piece => allChars p piece = true) (split_from cur gap s).
Proof.
  revert cur gap. induction s as [|c s IH]; intros cur gap Hcur Hs; simpl.
  - by repeat constructor.
  - simpl in Hs. apply andb_true_iff in Hs as [Hc Hs].
    destruct (isWhiteSpace c).
    + destruct gap; [by apply IH|]. constructor; [done | by apply IH].
    + apply IH; [|done]. by rewrite allChars_snoc, Hcur, Hc.
Qed.

Lemma stripNonWord_allChars p s :
  allChars p s = true ->
  allChars (fun c => isWordChar c && p c) (stripNonWord s) = true.
Proof.
  induction s as [|c s IH]; [done|]. simpl.
  intros [Hc Hs]%andb_true_iff.
  destruct (isWordChar c) eqn:Hw; [|by apply IH].
  simpl. by rewrite Hw, Hc, IH.
Qed.

Lemma lowerChar_not_capital c :
  negb ((65 <=? code (lowerChar c)) && (code (lowerChar c) <=? 90))%N = true.
Proof. by destruct c as [[] [] [] [] [] [] [] []]. Qed.

Lemma toLowerCase_no_capital s :
  allChars (fun c => negb ((65 <=? code c) && (code c <=? 90))%N) (toLowerCase s)
  = true.
Proof.
  induction s as [|c s IH]; [done|]. simpl.
  by rewrite lowerChar_not_capital, IH.
Qed.

(** X3. Every token of a query is made of the characters a-z, 0-9 and
    underscore only, whatever the query holds. *)
Theorem keywords_token_characters q :
  Forall (fun k => allChars isTokenChar k = true) (keywords q).
Proof.
  unfold keywords. apply Forall_map, Forall_forall. intros piece Hin.
  apply list_elem_of_In, filter_In in Hin as [Hin _].
  pose proof (split_from_allChars _ EmptyString false _ eq_refl
                (toLowerCase_no_capital q)) as Hall.
  rewrite Forall_forall in Hall. apply list_elem_of_In in Hin.
  specialize (Hall _ Hin). simpl in Hall.
  apply stripNonWord_allChars in Hall.
  eapply allChars_impl; [|exact Hall]. clear.
  intros c. by destruct c as [[] [] [] [] [] [] [] []].
Qed.

(** ** Which records match, and how much *)

Lemma hits_positive kws ts :
  0 < hits kws ts
  <-> exists t k, t ∈ ts /\ k ∈ kws /\ includes (toLowerCase t) k = true.
Proof.
  unfold hits. split.
  - intros Hpos.
    destruct (List.filter _ (list_prod ts kws)) as [|[t k] l] eqn:Hf;
      [simpl in Hpos; lia|].
    assert (Hin : In (t, k) (List.filter
                               (fun p => includes (toLowerCase (fst p)) (snd p))
                               (list_prod ts kws))) by (rewrite Hf; by left).
    apply filter_In in Hin as [Hin Hinc]. apply in_prod_iff in Hin as [Ht Hk].
    exists t, k. by rewrite !list_elem_of_In.
  - intros (t & k & Ht & Hk & Hinc).
    assert (Hin : In (t, k) (List.filter
                               (fun p => includes (toLowerCase (fst p)) (snd p))
                               (list_prod ts kws))).
    { apply filter_In. split; [|done]. apply in_prod_iff.
      by rewrite <- !list_elem_of_In. }
    destruct (List.filter _ (list_prod ts kws)); [done | simpl; lia].
Qed.

Lemma hits_bound kws ts : hits kws ts <= Z.of_nat (length kws) * Z.of_nat (length ts).
Proof.
  unfold hits.
  pose proof (filter_length_le
                (fun p : string * string => includes (toLowerCase (fst p)) (snd p))
                (list_prod ts kws)) as Hle.
  rewrite length_prod in Hle. nia.
Qed.

Lemma nameBonus_positive kws a :
  0 < nameBonus kws a
  <-> exists k, k ∈ kws
        /\ includes (toLowerCase (default EmptyString (name a))) k = true.
Proof.
  unfold nameBonus.
  destruct (existsb _ kws) eqn:He.
  - split; [intros _ | lia]. apply existsb_exists in He as (k & Hk & Hinc).
    exists k. by rewrite list_elem_of_In.
  - split; [lia|]. intros (k & Hk & Hinc).
    assert (existsb (fun k => includes (toLowerCase (default EmptyString (name a))) k)
              kws = true) as Htrue.
    { apply existsb_exists. exists k. by rewrite <- list_elem_of_In. }
    congruence.
Qed.

Lemma describedScore_positive kws a :
  is_Some (name a) ->
  0 < describedScore kws a
  <-> exists t k, t ∈ searchableTexts a /\ k ∈ kws
                  /\ includes (toLowerCase t) k = true.
Proof.
  intros [n Hn]. unfold describedScore, searchableTexts.
  set (bios := List.filter (fun b => negb (isEmpty b)) (option_list (bio a))).
  pose proof (hits_nonneg kws bios) as Hb.
  pose proof (hits_nonneg kws (tagValues a)) as Ht.
  pose proof (hits_nonneg kws (titlesOf (papers a))) as Hp.
  pose proof (hits_nonneg kws (titlesOf (events a))) as He.
  assert (0 <= nameBonus kws a) as Hnb
    by (unfold nameBonus; destruct (existsb _ kws); lia).
  split.
  - intros Hpos.
    assert (0 < nameBonus kws a \/ 0 < hits kws bios \/ 0 < hits kws (tagValues a)
            \/ 0 < hits kws (titlesOf (papers a))
            \/ 0 < hits kws (titlesOf (events a))) as Hcases by lia.
    destruct Hcases as [H|[H|[H|[H|H]]]].
    + apply nameBonus_positive in H as (k & Hk & Hinc). rewrite Hn in *. simpl in Hinc.
      exists n, k. split; [|done]. simpl. left.
    + apply hits_positive in H as (t & k & Hin & Hk & Hinc).
      exists t, k. split; [|done]. rewrite !elem_of_app. tauto.
    + apply hits_positive in H as (t & k & Hin & Hk & Hinc).
      exists t, k. split; [|done]. rewrite !elem_of_app. tauto.
    + apply hits_positive in H as (t & k & Hin & Hk & Hinc).
      exists t, k. split; [|done]. rewrite !elem_of_app. tauto.
    + apply hits_positive in H as (t & k & Hin & Hk & Hinc).
      exists t, k. split; [|done]. rewrite !elem_of_app. tauto.
  - intros (t & k & Hin & Hk & Hinc).
    rewrite Hn in Hin. simpl in Hin.
    apply elem_of_cons in Hin as [-> | Hin].
    + assert (0 < nameBonus kws a) as H; [|lia].
      apply nameBonus_positive. exists k. by rewrite Hn.
    + rewrite !elem_of_app in Hin.
      assert (forall ts, t ∈ ts -> 0 < hits kws ts) as Hhit.
      { intros ts Hts. apply hits_positive. by exists t, k. }
      destruct Hin as [H|[H|[H|H]]]; apply Hhit in H; fold bios in H; lia.
Qed.

(** X4. A record the scoring loop can read gets a score above zero, and
    so enters the ranking, exactly when some token is a substring of one of
    its lower-cased texts: its name, its description when that is not
    empty, a tag value, or the title of a paper or an event. *)
Theorem matched_iff_token_occurs kws a :
  wellFormed a = true ->
  exists sc,
    scoreAcademic kws a = Ok sc
    /\ (0 < sc
        <-> exists t k, t ∈ searchableTexts a /\ k ∈ kws
                        /\ includes (toLowerCase t) k = true).
Proof.
  intros Hwf. exists (describedScore kws a).
  split; [by apply scoreAcademic_wellFormed|].
  apply describedScore_positive.
  unfold wellFormed in Hwf. apply andb_true_iff in Hwf as [Hwf _].
  apply andb_true_iff in Hwf as [Hn _]. by apply bool_decide_eq_true in Hn.
Qed.

Lemma matched_iff_token_occurs_witness :
  exists sc, scoreAcademic (keywords "Gender studies") butler = Ok sc /\ 0 < sc.
Proof.
  destruct (matched_iff_token_occurs (keywords "Gender studies") butler)
    as (sc & Hsc & Hpos); [reflexivity|].
  exists sc. split; [exact Hsc|]. apply Hpos.
  exists "Gender"%string, "gender"%string. repeat split.
  - apply (bool_decide_unpack _). vm_compute. exact I.
  - apply (bool_decide_unpack _). vm_compute. exact I.
Defined.

Lemma describedScore_empty_token kws a :
  EmptyString ∈ kws -> 5 <= describedScore kws a.
Proof.
  intros Hin. unfold describedScore.
  pose proof (hits_nonneg kws (List.filter (fun b => negb (isEmpty b))
                                 (option_list (bio a)))).
  pose proof (hits_nonneg kws (tagValues a)).
  pose proof (hits_nonneg kws (titlesOf (papers a))).
  pose proof (hits_nonneg kws (titlesOf (events a))).
  assert (nameBonus kws a = 5) as ->; [|lia].
  unfold nameBonus.
  assert (existsb (fun k => includes (toLowerCase (default EmptyString (name a))) k)
            kws = true) as ->; [|done].
  apply existsb_exists. exists EmptyString.
  split; [by apply list_elem_of_In | apply includes_empty].
Qed.

Lemma found_all kws corpus :
  EmptyString ∈ kws -> map academic (found kws corpus) = corpus.
Proof.
  intros Hin. unfold found. induction corpus as [|a corpus IH]; [done|].
  simpl. pose proof (describedScore_empty_token kws a Hin).
  destruct (0 <? describedScore kws a) eqn:Hpos; [|apply Z.ltb_ge in Hpos; lia].
  simpl. by rewrite IH.
Qed.

(** X5. A token that is empty (what is left of a piece such as [????],
    longer than three characters and without any word character) occurs in
    every name: with such a token every readable record scores 5 or more,
    and over a corpus of readable records the scoring loop keeps every
    record, in corpus order, among the matches it hands to the ranking. *)
Theorem empty_token_matches_all kws :
  EmptyString ∈ kws ->
  (forall a, wellFormed a = true ->
     exists sc, scoreAcademic kws a = Ok sc /\ 5 <= sc)
  /\ forall corpus, forallb wellFormed corpus = true ->
       exists ms, scoreAll kws corpus = Ok ms
                  /\ map academic ms = corpus
                  /\ Forall (fun m => 5 <= score m) ms.
Proof.
  intros Hin. split.
  - intros a Hwf. exists (describedScore kws a).
    split; [by apply scoreAcademic_wellFormed|].
    by apply describedScore_empty_token.
  - intros corpus Hwf. exists (found kws corpus).
    split; [by apply scoreAll_found|]. split; [by apply found_all|].
    apply Forall_forall. intros m Hm. unfold found in Hm.
    apply list_elem_of_In, filter_In in Hm as [Hm _].
    apply in_map_iff in Hm as (a & <- & _). simpl.
    by apply describedScore_empty_token.
Qed.

Lemma empty_token_matches_all_witness :
  (exists sc, scoreAcademic (keywords "who ???? is") (bare "Simone Weil") = Ok sc
              /\ 5 <= sc)
  /\ exists ms, scoreAll (keywords "who ???? is") [bare "Simone Weil"; terse] = Ok ms
                /\ map academic ms = [bare "Simone Weil"; terse].
Proof.
  destruct (empty_token_matches_all (keywords "who ???? is")) as [Hone Hall].
  - apply (bool_decide_unpack _). vm_compute. exact I.
  - split.
    + apply Hone. reflexivity.
    + destruct (Hall [bare "Simone Weil"; terse]) as (ms & Hms & Hmap & _);
        [reflexivity|].
      by exists ms.
Defined.

(** X6. The score of a readable record is never negative and is at most
    5 plus, per token, 2 for the description, 3 per tag value and 1 per
    paper and per event. *)
Theorem score_bounds kws a :
  wellFormed a = true ->
  exists sc,
    scoreAcademic kws a = Ok sc
    /\ 0 <= sc
       <= 5 + Z.of_nat (length kws)
              * (2 + 3 * Z.of_nat (length (tagValues a))
                 + Z.of_nat (length (default [] (papers a)))
                 + Z.of_nat (length (default [] (events a)))).
Proof.
  intros Hwf. exists (describedScore kws a).
  split; [by apply scoreAcademic_wellFormed|].
  split; [apply describedScore_nonneg|].
  unfold describedScore, titlesOf.
  pose proof (hits_bound kws (List.filter (fun b => negb (isEmpty b))
                                (option_list (bio a)))) as Hb.
  pose proof (hits_bound kws (tagValues a)) as Ht.
  pose proof (hits_bound kws (omap title (default [] (papers a)))) as Hp.
  pose proof (hits_bound kws (omap title (default [] (events a)))) as He.
  pose proof (omap_length_le title (default [] (papers a))) as Hlp.
  pose proof (omap_length_le title (default [] (events a))) as Hle.
  assert (length (List.filter (fun b => negb (isEmpty b)) (option_list (bio a))) <= 1)%nat
    as Hlb.
  { destruct (bio a) as [b|]; simpl; [destruct (negb (isEmpty b)); simpl; lia | lia]. }
  assert (nameBonus kws a <= 5) as Hnb
    by (unfold nameBonus; destruct (existsb _ kws); lia).
  nia.
Qed.

Lemma score_bounds_witness :
  exists sc, scoreAcademic (keywords "power gender") butler = Ok sc /\ 0 <= sc <= 21.
Proof.
  destruct (score_bounds (keywords "power gender") butler) as (sc & Hsc & H0 & H1);
    [reflexivity|].
  exists sc. split; [exact Hsc|]. split; [exact H0|].
  etrans; [exact H1|]. vm_compute. intros H. discriminate H.
Defined.

(** ** The cache as seen by its readers *)

Lemma get_set_eq {K V} `{EqDecision K} (k : K) (v : V) m :
  Assoc.get k (Assoc.set k v m) = Some v.
Proof.
  induction m as [|[k' v'] m IH]; simpl.
  - by destruct (decide (k = k)).
  - destruct (decide (k = k')) as [->|Hne]; simpl.
    + by destruct (decide (k' = k')).
    + by destruct (decide (k = k')).
Qed.

Lemma get_app {K V} `{EqDecision K} (k : K) (m1 m2 : list (K * V)) :
  Assoc.get k (m1 ++ m2)
  = match Assoc.get k m1 with
    | Some v => Some v
    | None => Assoc.get k m2
    end.
Proof.
  induction m1 as [|[k' v'] m1 IH]; simpl; [done|].
  by destruct (decide (k = k')).
Qed.

Lemma get_tail_None {K V} `{EqDecision K} (k : K) (m : list (K * V)) :
  Assoc.get k m = None -> Assoc.get k (tail m) = None.
Proof.
  destruct m as [|[k' v'] m]; simpl; [done|].
  by destruct (decide (k = k')).
Qed.

Lemma get_cacheStore key results cache :
  NoDup (Assoc.keys cache) -> (length cache <= 20)%nat ->
  Assoc.get key (cacheStore key results cache) = Some results.
Proof.
  intros Hnd Hlen. destruct (decide (key ∈ Assoc.keys cache)) as [Hin|Hn].
  - rewrite cacheStore_present by done. apply get_set_eq.
  - rewrite cacheStore_fresh by done. apply get_None in Hn.
    destruct (length cache <? 20)%nat; rewrite get_app.
    + rewrite Hn. simpl. by destruct (decide (key = key)).
    + rewrite (get_tail_None _ _ Hn). simpl. by destruct (decide (key = key)).
Qed.

Lemma executeSearch_frame relevanceOf w q options s c s' :
  executeSearch relevanceOf w q options s = (c, s') ->
  apiKey s' = apiKey s /\ isInitialized s' = isInitialized s
  /\ searchDepth s' = searchDepth s.
Proof.
  unfold executeSearch.
  destruct (isEmpty q || isEmpty (trim q)); [by intros [= <- <-]|].
  destruct (Assoc.get _ (searchCache s)) as [[cached|]|]; [by intros [= <- <-]|..].
  all: simpl; destruct (if isInitialized s then _ else _); by intros [= <- <-].
Qed.

(** X7. On an object whose calls are made one after the other, a result
    that [executeSearch] has returned is in the cache afterwards:
    [getCachedResults] and [isQueryCached] find it under the trimmed query
    and the depth of the call. The same call made again is answered with
    that result and changes nothing, whatever the clock, the corpus and the
    remote service have become, and whether or not a key has been set or
    cleared in between. *)
Theorem cached_result_is_served relevanceOf s w query options r s' :
  reachable relevanceOf s ->
  executeSearch relevanceOf w query options s = (Returned (Some r), s') ->
  getCachedResults (trim query) (depthOf options s) s' = Some r
  /\ isQueryCached (trim query) (depthOf options s) s' = true
  /\ forall w' s'',
       searchCache s'' = searchCache s' -> searchDepth s'' = searchDepth s' ->
       executeSearch relevanceOf w' query options s'' = (Returned (Some r), s'').
Proof.
  intros Hreach Hexec.
  pose proof (reachable_quiescent _ _ Hreach) as (Hflag & Hnd & Hlen).
  pose proof (executeSearch_frame _ _ _ _ _ _ _ Hexec) as (_ & _ & Hdepth).
  assert (Hq : isEmpty (trim query) = false).
  { destruct (isEmpty (trim query)) eqn:Hq; [|done].
    by rewrite executeSearch_blank in Hexec. }
  assert (Hget : Assoc.get (cacheKeyOf (trim query) (depthOf options s)) (searchCache s')
                 = Some (Some r)).
  { destruct (Assoc.get (cacheKeyOf (trim query) (depthOf options s)) (searchCache s))
      as [[cached|]|] eqn:Hg.
    { rewrite (executeSearch_hit _ _ _ _ _ cached) in Hexec by done.
      by injection Hexec as <- <-. }
    all: rewrite executeSearch_miss in Hexec by (done || (intros ?; congruence)).
    all: destruct (settlement relevanceOf w (trim query) s) as [r'|e|];
      try discriminate Hexec.
    all: injection Hexec as -> <-; simpl.
    all: by apply get_cacheStore. }
  unfold getCachedResults, isQueryCached. rewrite Hget.
  split; [done|]. split; [done|].
  intros w' s'' Hcache Hd. apply executeSearch_hit; [done|].
  assert (depthOf options s'' = depthOf options s) as ->.
  { unfold depthOf. by rewrite Hd, Hdepth. }
  by rewrite Hcache.
Qed.

Lemma cached_result_is_served_witness :
  exists r,
    fst (executeSearch plainRelevance (localWorld [foucault]) " power " noOptions
           (constructor None))
    = Returned (Some r)
    /\ getCachedResults "power" "medium"
         (snd (executeSearch plainRelevance (localWorld [foucault]) " power " noOptions
                 (constructor None)))
       = Some r.
Proof.
  eexists. split; [reflexivity|].
  eapply (cached_result_is_served plainRelevance (constructor None)
            (localWorld [foucault]) " power " noOptions).
  - apply reach_new.
  - reflexivity.
Defined.

Lemma keys_delete_subset {K V} `{EqDecision K} (k x : K) (m : list (K * V)) :
  x ∈ Assoc.keys (Assoc.delete k m) -> x ∈ Assoc.keys m.
Proof.
  unfold Assoc.keys. induction m as [|[k' v'] m IH]; simpl; [done|].
  destruct (decide (k = k')); simpl.
  - intros Hin. right. by apply IH.
  - intros [-> | Hin]%elem_of_cons; [left | right; by apply IH].
Qed.

Lemma keys_cacheStore key results cache x :
  x ∈ Assoc.keys (cacheStore key results cache) ->
  x = key \/ x ∈ Assoc.keys cache.
Proof.
  unfold cacheStore.
  assert (x ∈ Assoc.keys (Assoc.set key results cache) ->
          x = key \/ x ∈ Assoc.keys cache) as Hset.
  { rewrite keys_set. destruct (decide (key ∈ Assoc.keys cache)); [by right|].
    rewrite elem_of_app, list_elem_of_singleton. tauto. }
  destruct (20 <? length _)%nat; [|done].
  destruct (Assoc.keys (Assoc.set key results cache)) eqn:Hk.
  - intros Hin. rewrite Hk in Hin. by apply Hset.
  - intros Hin%keys_delete_subset. rewrite Hk in Hin. by apply Hset.
Qed.

(** X8. On an object whose calls are made one after the other: the
    remote service is switched on exactly when the key held is not empty,
    the default depth is one of basic, medium and deep, and every key of the
    cache is built from a query that is trimmed and not empty (so it holds
    an underscore and no entry is ever filed for a blank query). *)
Theorem object_invariants relevanceOf s :
  reachable relevanceOf s ->
  isInitialized s = negb (isEmpty (apiKey s))
  /\ searchDepth s ∈ ["basic"; "medium"; "deep"]%string
  /\ Forall (fun key => exists q d,
                 key = cacheKeyOf q d /\ isEmpty q = false /\ trim q = q)
       (Assoc.keys (searchCache s)).
Proof.
  induction 1 as [savedKey | s c s' Hreach (Hinit & Hdepth & Hkeys) Hrun].
  - unfold constructor. destruct savedKey as [k|]; simpl.
    + destruct (isEmpty k) eqn:Hk; simpl; rewrite ?Hk;
        (split; [done | split; [set_solver | constructor]]).
    + split; [done | split; [set_solver | constructor]].
  - destruct c as [w q options | key | | d]; simpl in Hrun.
    + destruct (executeSearch relevanceOf w q options s) as [c s1] eqn:Hexec.
      assert (s1 = s') as -> by (destruct c; congruence).
      pose proof (executeSearch_frame _ _ _ _ _ _ _ Hexec) as (Hk & Hi & Hd).
      rewrite Hk, Hi, Hd. split; [done|]. split; [done|].
      pose proof (reachable_quiescent _ _ Hreach) as (_ & Hnd & Hlen).
      destruct (isEmpty (trim q)) eqn:Hq.
      { rewrite executeSearch_blank in Hexec by done. by injection Hexec as _ <-. }
      destruct (Assoc.get (cacheKeyOf (trim q) (depthOf options s)) (searchCache s))
        as [[cached|]|] eqn:Hg.
      { rewrite (executeSearch_hit _ _ _ _ _ cached) in Hexec by done.
        by injection Hexec as _ <-. }
      all: rewrite executeSearch_miss in Hexec by (done || (intros ?; congruence)).
      all: destruct (settlement relevanceOf w (trim q) s) as [r'|e|];
        injection Hexec as _ <-; simpl; try done.
      all: apply Forall_forall; intros x Hx.
      all: apply keys_cacheStore in Hx as [-> | Hx];
        [|rewrite Forall_forall in Hkeys; by apply Hkeys].
      all: exists (trim q), (depthOf options s); repeat split; try done.
      all: by destruct (trim_normalises q) as [? _].
    + injection Hrun as <-. unfold setAPIKey.
      destruct (isEmpty key) eqn:Hk; simpl; [done|]. by rewrite Hk.
    + by injection Hrun as <-.
    + injection Hrun as <-. unfold setSearchDepth.
      destruct (bool_decide _) eqn:Hd; simpl; [|done].
      by apply bool_decide_eq_true in Hd.
Qed.

Lemma object_invariants_witness :
  searchDepth (snd (executeSearch plainRelevance
                      {| now := "T"; databaseManager := None; remote := Resolved None |}
                      "power" {| depth := Some "exhaustive" |}
                      (setSearchDepth "exhaustive" (constructor (Some "secret")))))
  ∈ ["basic"; "medium"; "deep"]%string.
Proof.
  eapply (object_invariants plainRelevance).
  eapply reach_call
    with (c := ExecuteSearch
                 {| now := "T"; databaseManager := None; remote := Resolved None |}
                 "power" {| depth := Some "exhaustive" |}).
  - eapply reach_call with (c := SetSearchDepth "exhaustive").
    + apply (reach_new _ (Some "secret"%string)).
    + reflexivity.
  - reflexivity.
Defined.

(** ** The key in [localStorage] *)

(** X9. With a working storage, a key given to [setAPIKey] is found by
    the next object created: it starts with that key and with the remote
    service switched on; after [clearAPIKey] the next object starts without
    a key. An empty key is refused and changes neither the object nor the
    storage. *)
Theorem api_key_round_trip key s st :
  failing st = false ->
  (isEmpty key = false ->
     fst (fst (Method.setAPIKey key s st)) = true
     /\ snd (fst (Method.setAPIKey key s st)) = setAPIKey key s
     /\ apiKey (Method.create (snd (Method.setAPIKey key s st))) = key
     /\ isInitialized (Method.create (snd (Method.setAPIKey key s st))) = true)
  /\ (snd (fst (Method.clearAPIKey s st)) = clearAPIKey s
      /\ Method.create (snd (Method.clearAPIKey s st)) = constructor None)
  /\ (isEmpty key = true -> Method.setAPIKey key s st = (false, s, st)).
Proof.
  destruct st as [held f]. simpl. intros ->.
  unfold Method.setAPIKey, Method.clearAPIKey, Method.create, Method._saveAPIKey,
    Method._loadAPIKey, setAPIKey, clearAPIKey, constructor.
  simpl. split; [|split; [done|]].
  - intros Hk. rewrite Hk. simpl. by rewrite Hk.
  - by intros ->.
Qed.

Lemma api_key_round_trip_witness :
  apiKey (Method.create
            (snd (Method.setAPIKey "secret" (constructor None)
                    {| item := None; failing := false |})))
  = "secret"%string.
Proof.
  apply (api_key_round_trip "secret" (constructor None)
           {| item := None; failing := false |}); reflexivity.
Defined.

(** X10. When the storage throws, [setAPIKey] still answers [true] and
    the object uses the key, but nothing is saved: the storage is as before
    and the next object created starts without a key. *)
Theorem api_key_not_saved key s st :
  failing st = true ->
  isEmpty key = false ->
  Method.setAPIKey key s st = (true, setAPIKey key s, st)
  /\ isInitialized (setAPIKey key s) = true
  /\ Method.create st = constructor None.
Proof.
  destruct st as [held f]. simpl. intros -> Hk.
  unfold Method.setAPIKey, Method.create, Method._saveAPIKey, Method._loadAPIKey,
    setAPIKey.
  simpl. by rewrite Hk.
Qed.

Lemma api_key_not_saved_witness :
  Method.create {| item := Some "old"; failing := true |} = constructor None.
Proof.
  apply (api_key_not_saved "secret" (constructor None)
           {| item := Some "old"; failing := true |}); reflexivity.
Defined.

(** ** [formatAcademicData] *)

Lemma pushValue_fold c vals tax held :
  tax !! c = Some held -> NoDup held ->
  exists held',
    fold_left (pushValue c) vals tax !! c = Some held'
    /\ NoDup held'
    /\ (forall v, v ∈ held' <-> v ∈ held \/ v ∈ vals)
    /\ forall c', c' <> c -> fold_left (pushValue c) vals tax !! c' = tax !! c'.
Proof.
  revert tax held. induction vals as [|v vals IH]; intros tax held Hc Hnd.
  - exists held. simpl. split; [done|]. split; [done|]. split; [|done].
    intros x. split; [by left|].
    intros [?|Hnil]; [done | by apply elem_of_nil in Hnil].
  - simpl fold_left.
    assert (Hp : pushValue c tax v
                 = if bool_decide (v ∈ held) then tax
                   else <[c := held ++ [v]]> tax)
      by (unfold pushValue; by rewrite Hc).
    rewrite Hp. clear Hp. destruct (bool_decide (v ∈ held)) eqn:Hv.
    + apply bool_decide_eq_true in Hv.
      destruct (IH tax held Hc Hnd) as (held' & Hl & Hnd' & Hmem & Hother).
      exists held'. split; [done|]. split; [done|]. split; [|done].
      intros x. rewrite Hmem, elem_of_cons. split; [tauto|].
      intros [?|[-> | ?]]; tauto.
    + apply bool_decide_eq_false in Hv.
      destruct (IH (<[c := held ++ [v]]> tax) (held ++ [v])) as
        (held' & Hl & Hnd' & Hmem & Hother).
      { apply lookup_insert_eq. }
      { apply NoDup_app. split; [done|]. split; [|apply NoDup_singleton].
        intros x Hx Hxv%list_elem_of_singleton. by subst. }
      exists held'. split; [done|]. split; [done|]. split.
      * intros x. rewrite Hmem, elem_of_app, list_elem_of_singleton, elem_of_cons.
        tauto.
      * intros c' Hne. rewrite Hother by done. by apply lookup_insert_ne.
Qed.

Lemma mergeTaxonomy_merged entries tax e :
  mergedFrom entries tax -> mergedFrom (entries ++ [e]) (mergeTaxonomy tax e).
Proof.
  intros Hm. unfold mergeTaxonomy.
  set (cat := Result.category e).
  set (tax0 := match tax !! cat with Some _ => tax | None => <[cat := []]> tax end).
  assert (exists held, tax0 !! cat = Some held /\ NoDup held
            /\ (forall v, v ∈ held
                          <-> exists e', e' ∈ entries /\ Result.category e' = cat
                                         /\ v ∈ Result.values e')
            /\ forall c', c' <> cat -> tax0 !! c' = tax !! c')
    as (held & Hheld & Hnd & Hmem & Hother).
  { subst tax0. destruct (tax !! cat) as [held|] eqn:Hl.
    - exists held. destruct (Hm cat) as [_ Hvs].
      destruct (Hvs held Hl) as [Hnd Hmem]. done.
    - exists []. rewrite lookup_insert_eq. repeat split; [constructor | | |].
      + by intros Hnil%elem_of_nil.
      + intros (e' & He' & Hc' & _). destruct (Hm cat) as [Hsome _].
        assert (is_Some (tax !! cat)) as [? ?] by (apply Hsome; eauto). congruence.
      + intros c' Hne. by apply lookup_insert_ne. }
  destruct (pushValue_fold cat (Result.values e) tax0 held Hheld Hnd)
    as (held' & Hl' & Hnd' & Hmem' & Hother').
  intros c. destruct (decide (c = cat)) as [-> | Hne].
  - rewrite Hl'. split.
    + split; [intros _ | by eexists]. exists e. split; [|done].
      apply elem_of_app. right. left.
    + intros vs [= <-]. split; [done|]. intros v. rewrite Hmem', Hmem. split.
      * intros [(e' & He' & Hc' & Hv) | Hv].
        -- exists e'. split; [apply elem_of_app; by left | done].
        -- exists e. split; [apply elem_of_app; right; left | done].
      * intros (e' & [He' | ->%list_elem_of_singleton]%elem_of_app & Hc' & Hv).
        -- left. by exists e'.
        -- by right.
  - rewrite Hother', Hother by done. destruct (Hm c) as [Hsome Hvs]. split.
    + rewrite Hsome. split.
      * intros (e' & He' & Hc'). exists e'. split; [apply elem_of_app; by left | done].
      * intros (e' & [He' | ->%list_elem_of_singleton]%elem_of_app & Hc');
          [by exists e' | done].
    + intros vs Hl. destruct (Hvs vs Hl) as [Hnd0 Hmem0]. split; [done|].
      intros v. rewrite Hmem0. split.
      * intros (e' & He' & Hc' & Hv). exists e'.
        split; [apply elem_of_app; by left | done].
      * intros (e' & [He' | ->%list_elem_of_singleton]%elem_of_app & Hc' & Hv);
          [by exists e' | done].
Qed.

Lemma mergeTaxonomy_fold entries es tax :
  mergedFrom entries tax ->
  mergedFrom (entries ++ es) (fold_left mergeTaxonomy es tax).
Proof.
  revert entries tax. induction es as [|e es IH]; intros entries tax Hm.
  - simpl. by rewrite app_nil_r.
  - simpl. replace (entries ++ e :: es) with ((entries ++ [e]) ++ es)
      by (by rewrite <- app_assoc).
    by apply IH, mergeTaxonomy_merged.
Qed.

Lemma mergeConnections_flat conns tax :
  mergeConnections conns tax
  = fold_left mergeTaxonomy (flat_map Result.sharedTaxonomies conns) tax.
Proof.
  unfold mergeConnections. revert tax.
  induction conns as [|c conns IH]; intros tax; simpl; [done|].
  by rewrite IH, fold_left_app.
Qed.

Lemma mergedFrom_empty : mergedFrom [] ∅.
Proof.
  intros c. rewrite lookup_empty. split.
  - split; [by intros [? ?] | by intros (e & ?%elem_of_nil & _)].
  - done.
Qed.

(** ** What a search result holds together *)

Lemma Math_max_head {A} (key : A -> Z) x l :
  descending key (x :: l) -> Math_max (map key (x :: l)) = key x.
Proof.
  unfold descending. intros Hs. apply StronglySorted_inv in Hs as [_ Hx].
  simpl. induction l as [|y l IH]; [done|]. simpl.
  apply Forall_cons in Hx as [Hy Hl]. rewrite Z.max_l by done. by apply IH.
Qed.

Lemma descending_head_max {A} (key : A -> Z) x l :
  descending key (x :: l) -> Forall (fun y => key y <= key x) (x :: l).
Proof.
  unfold descending. intros Hs. apply StronglySorted_inv in Hs as [_ Hx].
  constructor; [lia | done].
Qed.

(** X13. In a search result the first match has the highest score of
    all records that matched, every returned match has its relevance
    computed against that score, and the number of returned matches is the
    number of records that matched, capped at ten. *)
Theorem relevance_is_relative_to_top relevanceOf now db q :
  forallb wellFormed (default [] db) = true ->
  exists r out,
    demoSearchBody relevanceOf now db q = Ok r
    /\ Result.matches r = Some out
    /\ length out = Nat.min 10 (length (found (keywords q) (default [] db)))
    /\ forall m0 rest, out = m0 :: rest ->
         Forall (fun m => Result.score m <= Result.score m0
                          /\ Result.relevance m
                             = relevanceOf (Result.score m) (Result.score m0))
           out
         /\ Forall (fun m => score m <= Result.score m0)
              (found (keywords q) (default [] db)).
Proof.
  intros Hwf. rewrite demoSearchBody_unfold, (scoreAll_found _ _ Hwf), bind_Ok.
  set (ms := found (keywords q) (default [] db)).
  set (sorted := sortBy (fun a b => score b - score a) ms).
  eexists _, _. split; [reflexivity|]. split; [reflexivity|].
  assert (Hperm : sorted ≡ₚ ms) by apply (sortBy_perm score).
  assert (Hdesc : descending score sorted) by apply (sortBy_descending score).
  split.
  { rewrite length_map, length_take, Hperm. lia. }
  intros m0 rest Hout.
  destruct sorted as [|s0 srest] eqn:Hsorted; [done|].
  simpl in Hout. injection Hout as <- <-.
  pose proof (Math_max_head score s0 srest Hdesc) as Hmax.
  pose proof (descending_head_max score s0 srest Hdesc) as Hle.
  split.
  - change (matchOut relevanceOf (s0 :: srest) s0
            :: map (matchOut relevanceOf (s0 :: srest)) (take 9 srest))
      with (map (matchOut relevanceOf (s0 :: srest)) (take 10 (s0 :: srest))).
    apply Forall_map, Forall_take.
    eapply Forall_impl; [exact Hle|]. cbv beta. intros m Hm.
    unfold matchOut. cbn [Result.score Result.relevance].
    split; [done|]. by rewrite Hmax.
  - rewrite <- Hperm. exact Hle.
Qed.

Lemma relevance_is_relative_to_top_witness :
  exists r, demoSearchBody plainRelevance "T" (Some [terse; butler]) "gender ????" = Ok r.
Proof.
  destruct (relevance_is_relative_to_top plainRelevance "T" (Some [terse; butler])
              "gender ????") as (r & out & Hr & _); [reflexivity|].
  by exists r.
Defined.

(** X14. The analysis of a search result counts every record that
    matched, also beyond the ten that are returned, counts the connections
    that are returned, quotes the query, and names the first returned match
    (or [none] when there is no match or its name is empty). *)
Theorem analysis_reports relevanceOf now db q :
  forallb wellFormed (default [] db) = true ->
  exists r out conns,
    demoSearchBody relevanceOf now db q = Ok r
    /\ Result.matches r = Some out
    /\ Result.connections r = Some conns
    /\ Result.analysis r
       = "Found " +:+ decimal (length (found (keywords q) (default [] db)))
         +:+ " academics and " +:+ decimal (length conns)
         +:+ " connections related to " +:+ quote +:+ q +:+ quote +:+ "."
         +:+ newline +:+ "The most relevant academic is "
         +:+ match out with
             | m0 :: _ => match Result.name m0 with
                          | Some n => if isEmpty n then "none" else n
                          | None => "none"
                          end
             | [] => "none"
             end
         +:+ ".".
Proof.
  intros Hwf. rewrite demoSearchBody_unfold, (scoreAll_found _ _ Hwf), bind_Ok.
  set (ms := found (keywords q) (default [] db)).
  set (sorted := sortBy (fun a b => score b - score a) ms).
  eexists _, _, _. split; [reflexivity|]. simpl.
  split; [reflexivity|]. split; [reflexivity|].
  unfold analysisOf.
  rewrite (sortBy_length Result.strength).
  assert (length sorted = length ms) as -> by apply (sortBy_length score).
  assert (topName sorted
          = match map (matchOut relevanceOf sorted) (take 10 sorted) with
            | m0 :: _ => match Result.name m0 with
                         | Some n => if isEmpty n then "none" else n
                         | None => "none"
                         end
            | [] => "none"
            end)%string as ->; [|done].
  by destruct sorted.
Qed.

Lemma analysis_reports_witness :
  exists r, demoSearchBody plainRelevance "T" (Some [foucault; butler]) "power" = Ok r.
Proof.
  destruct (analysis_reports plainRelevance "T" (Some [foucault; butler]) "power")
    as (r & out & conns & Hr & _); [reflexivity|].
  by exists r.
Defined.

Lemma connectTop_endpoints sorted rel :
  rel ∈ connectTop sorted ->
  Result.academicA rel ∈ map (fun m => name (academic m)) (take 10 sorted)
  /\ Result.academicB rel ∈ map (fun m => name (academic m)) (take 10 sorted).
Proof.
  intros (i & j & A & B & Hij & Hi & Hj & Hc)%elem_of_connectTop.
  apply connect_Some in Hc as (-> & -> & _).
  split; apply list_elem_of_fmap.
  - exists A. split; [done|]. apply elem_of_take. exists i. split; [done | lia].
  - exists B. split; [done|]. apply elem_of_take. exists j. split; [done | lia].
Qed.

(** The endpoints of the connections of a search result are names of
    returned matches. *)
Lemma search_endpoints relevanceOf sorted rel :
  rel ∈ sortBy (fun a b => Result.strength b - Result.strength a) (connectTop sorted) ->
  Result.academicA rel ∈ map Result.name (map (matchOut relevanceOf sorted) (take 10 sorted))
  /\ Result.academicB rel
     ∈ map Result.name (map (matchOut relevanceOf sorted) (take 10 sorted)).
Proof.
  rewrite (sortBy_perm Result.strength). intros Hrel%connectTop_endpoints.
  by rewrite map_map.
Qed.

Lemma otherEnd_endpoint top conn :
  otherEnd top conn = Result.academicA conn \/ otherEnd top conn = Result.academicB conn.
Proof. unfold otherEnd. destruct (bool_decide _); tauto. Qed.

Lemma set_length_le {K V} `{EqDecision K} (k : K) (v : V) m :
  (length (Assoc.set k v m) <= S (length m))%nat.
Proof.
  induction m as [|[k' v'] m IH]; simpl; [lia|].
  destruct (decide (k = k')); simpl; lia.
Qed.

Lemma addMatchNodes_length ms nodes :
  (length (addMatchNodes ms nodes) <= length nodes + length ms)%nat.
Proof.
  revert nodes. induction ms as [|m ms IH]; intros nodes; [simpl; lia|].
  rewrite addMatchNodes_cons. etrans; [apply IH|].
  pose proof (set_length_le (Result.name m) (matchNode m) nodes). simpl. lia.
Qed.

(** X16. The graph of a search result has nodes of the group [match]
    only (every endpoint of a connection is a returned match), at most ten
    of them, and at most ten links. *)
Theorem search_graph_only_matches relevanceOf now db q :
  forallb wellFormed (default [] db) = true ->
  exists r,
    demoSearchBody relevanceOf now db q = Ok r
    /\ Forall (fun n => Graph.group n = Graph.match_)
         (Graph.nodes (convertToNetworkData (Some r)))
    /\ (length (Graph.nodes (convertToNetworkData (Some r))) <= 10)%nat
    /\ (length (Graph.links (convertToNetworkData (Some r))) <= 10)%nat.
Proof.
  intros Hwf. rewrite demoSearchBody_unfold, (scoreAll_found _ _ Hwf), bind_Ok.
  set (ms := found (keywords q) (default [] db)).
  set (sorted := sortBy (fun a b => score b - score a) ms).
  eexists. split; [reflexivity|]. simpl.
  unfold convertToNetworkData. simpl.
  set (out := map (matchOut relevanceOf sorted) (take 10 sorted)).
  set (conns := sortBy (fun a b => Result.strength b - Result.strength a)
                  (connectTop sorted)).
  set (M := addMatchNodes out []).
  assert (HndM : NoDup (Assoc.keys M)) by (apply addMatchNodes_NoDup; constructor).
  assert (HkM : forall k, k ∈ Assoc.keys M <-> k ∈ map Result.name out).
  { intros k. unfold M. rewrite addMatchNodes_keys. simpl. split; [|by right].
    intros [Hnil|?]; [by apply elem_of_nil in Hnil | done]. }
  destruct (addConnections_app conns M [] HndM) as (E & -> & Hnd & Hk & HE).
  assert (E = []) as ->.
  { destruct E as [|[k n] E]; [done|]. exfalso.
    apply Forall_cons in HE as [[_ Hfresh] _]. simpl in Hfresh. apply Hfresh.
    assert (k ∈ Assoc.keys (M ++ (k, n) :: E)) as Hin.
    { unfold Assoc.keys. rewrite map_app, elem_of_app. right. simpl. left. }
    apply Hk in Hin as [?|Hin]; [done|]. apply HkM.
    apply list_elem_of_In, in_flat_map in Hin as (rel & Hrel & Hin).
    apply list_elem_of_In, (search_endpoints relevanceOf) in Hrel as [HA HB].
    simpl in Hin. destruct Hin as [<- | [<- | []]]; done. }
  rewrite app_nil_r. simpl.
  assert (Hlen : (length out <= 10)%nat)
    by (unfold out; rewrite length_map, length_take; lia).
  split; [|split].
  - apply Forall_fmap.
    eapply Forall_impl; [apply (addMatchNodes_entries out []); constructor|].
    by intros entry [_ ?].
  - rewrite length_map. pose proof (addMatchNodes_length out []) as Hl.
    simpl in Hl. fold M in Hl. lia.
  - rewrite length_map. unfold conns. rewrite (sortBy_length Result.strength).
    apply connectTop_length.
Qed.

Lemma search_graph_only_matches_witness :
  exists r, demoSearchBody plainRelevance "T" (Some [foucault; butler]) "power" = Ok r.
Proof.
  destruct (search_graph_only_matches plainRelevance "T" (Some [foucault; butler])
              "power") as (r & Hr & _); [reflexivity|].
  by exists r.
Defined.

(** ** The record store *)

Lemma lowerChar_idempotent c : lowerChar (lowerChar c) = lowerChar c.
Proof. by destruct c as [[] [] [] [] [] [] [] []]. Qed.

Lemma toLowerCase_idempotent s : toLowerCase (toLowerCase s) = toLowerCase s.
Proof.
  induction s as [|c s IH]; [done|]. simpl. by rewrite lowerChar_idempotent, IH.
Qed.

Lemma dashSpaces_allChars p gap s :
  p "-"%char = true -> allChars p s = true ->
  allChars p (Store.dashSpaces gap s) = true.
Proof.
  intros Hdash. revert gap. induction s as [|c s IH]; intros gap; [done|]. simpl.
  intros [Hc Hs]%andb_true_iff.
  destruct (isWhiteSpace c); [destruct gap|]; simpl; rewrite ?Hdash, ?Hc; by apply IH.
Qed.

Lemma stripKey_allChars p s :
  allChars p s = true ->
  allChars (fun c => Store.isKeyChar c && p c) (Store.stripKey s) = true.
Proof.
  induction s as [|c s IH]; [done|]. simpl.
  intros [Hc Hs]%andb_true_iff.
  destruct (Store.isKeyChar c) eqn:Hk; [|by apply IH].
  simpl. by rewrite Hk, Hc, IH.
Qed.


(** X17. The key under which a record is stored is made of a-z, 0-9,
    underscore and hyphen only, and does not depend on the case of the
    name: names that differ in case only share one key. *)
Theorem keyOf_normal_form n :
  allChars (fun c => isTokenChar c || (code c =? 45)%N) (Store.keyOf n) = true
  /\ Store.keyOf (toLowerCase n) = Store.keyOf n
  /\ forall m, toLowerCase m = toLowerCase n -> Store.keyOf m = Store.keyOf n.
Proof.
  unfold Store.keyOf. split; [|split].
  - pose proof (dashSpaces_allChars _ false _ eq_refl (toLowerCase_no_capital n)) as H.
    apply stripKey_allChars in H.
    eapply allChars_impl; [|exact H]. clear.
    intros c. by destruct c as [[] [] [] [] [] [] [] []].
  - by rewrite toLowerCase_idempotent.
  - by intros m ->.
Qed.

Lemma keyOf_normal_form_witness :
  Store.keyOf "MICHEL FOUCAULT (1926)" = Store.keyOf "Michel Foucault (1926)".
Proof.
  apply (keyOf_normal_form "Michel Foucault (1926)"). vm_compute. reflexivity.
Defined.

Lemma elem_of_getAllAcademics db a :
  a ∈ Store.getAllAcademics db <-> exists k, db !! k = Some a.
Proof.
  unfold Store.getAllAcademics. rewrite list_elem_of_fmap. split.
  - intros ([k a'] & -> & Hin). exists k. by apply elem_of_map_to_list.
  - intros [k Hk]. exists (k, a). split; [done | by apply elem_of_map_to_list].
Qed.

Lemma keyed_insert db a n :
  Store.keyed db -> name a = Some n -> isEmpty n = false ->
  Store.keyed (<[Store.keyOf n := a]> db).
Proof.
  intros Hk Hn Hne k a' Hl.
  destruct (decide (k = Store.keyOf n)) as [-> | Hneq].
  - rewrite lookup_insert_eq in Hl. injection Hl as <-. by exists n.
  - rewrite lookup_insert_ne in Hl by done. by apply Hk.
Qed.

Lemma keyed_delete db k : Store.keyed db -> Store.keyed (delete k db).
Proof.
  intros Hk k' a Hl. apply lookup_delete_Some in Hl as [_ Hl]. by apply Hk.
Qed.

Lemma built_keyed db : Store.built db -> Store.keyed db.
Proof.
  induction 1 as [|a db _ Hb IH | n db Hb IH].
  - intros k a Hl. by rewrite lookup_empty in Hl.
  - unfold Store.addOrUpdateAcademic. destruct a as [a|]; [|done].
    destruct (name a) as [n|] eqn:Hn; [|done].
    destruct (isEmpty n) eqn:Hne; [done|]. by apply keyed_insert.
  - unfold Store.deleteAcademic. destruct (List.find _ _); [|done].
    by apply keyed_delete.
Qed.

Lemma find_unique {A} (p : A -> bool) (l : list A) x :
  x ∈ l -> p x = true -> (forall y, y ∈ l -> p y = true -> y = x) ->
  List.find p l = Some x.
Proof.
  intros Hin Hp Huniq. destruct (List.find p l) as [y|] eqn:Hf.
  - apply find_some in Hf as [Hy Hpy]. f_equal.
    apply Huniq; [by apply list_elem_of_In | done].
  - apply list_elem_of_In in Hin.
    pose proof (find_none _ _ Hf _ Hin). congruence.
Qed.

(** X18. [addOrUpdateAcademic] answers [false] exactly when the record is
    missing, has no name or has the empty name, and then leaves the store as
    it was; otherwise it files the record under the key of its name (a key
    other than [__proto__]), replacing what that key held. *)
Theorem addOrUpdateAcademic_refuses a db :
  (fst (Store.addOrUpdateAcademic a db) = false
   <-> forall r n, a = Some r -> name r = Some n -> n = EmptyString)
  /\ (fst (Store.addOrUpdateAcademic a db) = false ->
      snd (Store.addOrUpdateAcademic a db) = db)
  /\ (forall r n, a = Some r -> name r = Some n -> n <> EmptyString ->
      Store.ownKey (Store.keyOf n) ->
      Store.addOrUpdateAcademic a db = (true, <[Store.keyOf n := r]> db)).
Proof.
  unfold Store.addOrUpdateAcademic.
  destruct a as [r|]; [destruct (name r) as [[|c n]|] eqn:Hn|]; simpl;
    (split; [split|split]); intros; simplify_eq; try done.
  - by specialize (H r _ eq_refl Hn).
Qed.

Lemma addOrUpdateAcademic_refuses_witness :
  snd (Store.addOrUpdateAcademic (Some nameless) ∅) = ∅
  /\ Store.addOrUpdateAcademic (Some foucault) ∅
     = (true, <[Store.keyOf "michel-foucault" := foucault]> ∅).
Proof.
  split.
  - destruct (addOrUpdateAcademic_refuses (Some nameless) ∅) as (Hiff & Hsame & _).
    apply Hsame, Hiff. intros r n [= <-] Hn. discriminate Hn.
  - destruct (addOrUpdateAcademic_refuses (Some foucault) ∅) as (_ & _ & Hadd).
    apply (Hadd foucault "michel-foucault"%string).
    + reflexivity.
    + reflexivity.
    + discriminate.
    + vm_compute. discriminate.
Defined.

(** X19. In a store built by adding and deleting, a record that has just
    been added (under a key other than [__proto__]) is listed by
    [getAllAcademics] and is the one [getAcademic] returns for its name. *)
Theorem store_round_trip a n db :
  Store.built db ->
  name a = Some n -> isEmpty n = false -> Store.ownKey (Store.keyOf n) ->
  fst (Store.addOrUpdateAcademic (Some a) db) = true
  /\ a ∈ Store.getAllAcademics (snd (Store.addOrUpdateAcademic (Some a) db))
  /\ Store.getAcademic n (snd (Store.addOrUpdateAcademic (Some a) db)) = Ok (Some a).
Proof.
  intros Hb Hn Hne _.
  pose proof (keyed_insert _ _ _ (built_keyed _ Hb) Hn Hne) as Hk.
  unfold Store.addOrUpdateAcademic. rewrite Hn, Hne. simpl.
  assert (Hin : a ∈ Store.getAllAcademics (<[Store.keyOf n := a]> db)).
  { apply elem_of_getAllAcademics. exists (Store.keyOf n). apply lookup_insert_eq. }
  repeat split; [done|].
  unfold Store.getAcademic.
  rewrite (find_unique _ _ a); [done | done | by apply bool_decide_eq_true |].
  intros a' Hin' Hname%bool_decide_eq_true.
  apply elem_of_getAllAcademics in Hin' as [k Hl].
  destruct (Hk _ _ Hl) as (n' & Hn' & _ & ->).
  rewrite Hname in Hn'. injection Hn' as <-.
  rewrite lookup_insert_eq in Hl. congruence.
Qed.

Lemma store_round_trip_witness :
  Store.getAcademic "judith-butler"
    (snd (Store.addOrUpdateAcademic (Some butler)
            (snd (Store.addOrUpdateAcademic (Some foucault) ∅))))
  = Ok (Some butler).
Proof.
  destruct (store_round_trip butler "judith-butler"
              (snd (Store.addOrUpdateAcademic (Some foucault) ∅)))
    as (_ & _ & H).
  - apply Store.built_add; [|apply Store.built_empty].
    intros r n [= <-] [= <-]. vm_compute. discriminate.
  - reflexivity.
  - reflexivity.
  - vm_compute. discriminate.
  - exact H.
Defined.








(** * The prototype chain *)

(** ** The pair loop *)

Lemma read_own {V} (v : V) key : Proto.read (Some v) key = Proto.Own v.
Proof. reflexivity. Qed.

Lemma read_plain {V} key :
  key ∉ Proto.prototypeNames -> Proto.read (@None V) key = Proto.Absent.
Proof. intros H. unfold Proto.read. by rewrite bool_decide_eq_false_2. Qed.

Lemma read_inherited {V} key :
  key ∈ Proto.prototypeNames -> Proto.read (@None V) key = Proto.Inherited.
Proof. intros H. unfold Proto.read. by rewrite bool_decide_eq_true_2. Qed.

(** The loop over the categories of one record throws exactly when an
    entry clashes; otherwise it gathers the evidence of the own-property
    reading. *)
Lemma sharedTaxonomies_forEach taxB entries acc :
  forEachM (fun sharedTaxonomies entry =>
              let category := fst entry in
              match snd entry, Proto.read (taxB !! category) category with
              | Some valuesA, Proto.Own (Some valuesB) =>
                  let shared := filter (fun value => value ∈ valuesB) valuesA in
                  Ok (if (0 <? length shared)%nat
                      then sharedTaxonomies
                           ++ [{| Result.category := category;
                                  Result.values := shared |}]
                      else sharedTaxonomies)
              | Some (_ :: _), Proto.Inherited => Throw TypeError
              | _, _ => Ok sharedTaxonomies
              end)
    entries acc
  = if existsb (clash taxB) entries then Throw TypeError
    else Ok (acc ++ omap (sharedEntry taxB) entries).
Proof.
  match goal with |- forEachM ?f _ _ = _ => set (body := f) end.
  assert (Hstep : forall acc entry,
            body acc entry
            = if clash taxB entry then Throw TypeError
              else Ok (acc ++ option_list (sharedEntry taxB entry))).
  { intros acc' [c va]. unfold body, clash, sharedEntry. simpl.
    destruct va as [[|v va]|]; [| |by rewrite app_nil_r].
    - destruct (taxB !! c) as [[vb|]|]; simpl; rewrite ?app_nil_r; try done.
      unfold Proto.read. by destruct (bool_decide (c ∈ Proto.prototypeNames)).
    - destruct (taxB !! c) as [[vb|]|] eqn:Hb; simpl.
      + destruct (0 <? length _)%nat; simpl; by rewrite ?app_nil_r.
      + by rewrite app_nil_r.
      + unfold Proto.read.
        destruct (bool_decide (c ∈ Proto.prototypeNames)); [done|].
        by rewrite app_nil_r. }
  clearbody body.
  revert acc. induction entries as [|entry entries IH]; intros acc.
  - simpl. by rewrite app_nil_r.
  - simpl forEachM. simpl existsb. rewrite Hstep.
    destruct (clash taxB entry); [done|]. rewrite bind_Ok, IH. simpl.
    destruct (existsb _ entries); [done|].
    change (list_omap _ _ (sharedEntry taxB) entries)
      with (omap (sharedEntry taxB) entries).
    destruct (sharedEntry taxB entry); simpl; by rewrite <- ?app_assoc, ?app_nil_r.
Qed.

Lemma Proto_sharedTaxonomiesOf a b :
  Proto.sharedTaxonomiesOf a b
  = if clashes a b then Throw TypeError else Ok (sharedTaxonomiesOf a b).
Proof.
  unfold Proto.sharedTaxonomiesOf, clashes, sharedTaxonomiesOf.
  destruct (taxonomies a) as [taxA|]; [|done].
  destruct (taxonomies b) as [taxB|]; [|done].
  by rewrite sharedTaxonomies_forEach, sharedTaxonomies_fold.
Qed.

Lemma Proto_connect a b :
  Proto.connect a b = if clashes a b then Throw TypeError else Ok (connect a b).
Proof.
  unfold Proto.connect, connect. rewrite Proto_sharedTaxonomiesOf.
  by destruct (clashes a b).
Qed.

Lemma connectTop_forEach (l : list (Scored * Scored)) acc :
  forEachM (fun connections p =>
              connection ← Proto.connect (academic (fst p)) (academic (snd p));
              Ok (match connection with
                  | Some c => connections ++ [c]
                  | None => connections
                  end))
    l acc
  = if existsb (fun p => clashes (academic (fst p)) (academic (snd p))) l
    then Throw TypeError
    else Ok (acc ++ omap (fun p => connect (academic (fst p)) (academic (snd p))) l).
Proof.
  revert acc. induction l as [|p l IH]; intros acc.
  - simpl. by rewrite app_nil_r.
  - simpl forEachM. simpl existsb. rewrite Proto_connect.
    destruct (clashes _ _); [done|]. rewrite !bind_Ok, IH. simpl.
    destruct (existsb _ l); [done|].
    change (list_omap _ _ ?f l) with (omap f l).
    destruct (connect _ _); [|done]. by rewrite <- app_assoc.
Qed.

Lemma Proto_connectTop sorted :
  Proto.connectTop sorted
  = if topClash sorted then Throw TypeError else Ok (connectTop sorted).
Proof. unfold Proto.connectTop, topClash, connectTop. by rewrite connectTop_forEach. Qed.

(** ** The search with the inherited members *)

(** The search throws where the own-property reading does, and also when
    two of the first five records of the ranking clash; otherwise the two
    return the same result. *)
Lemma Proto_demoSearchBody relevanceOf now db q :
  Proto.demoSearchBody relevanceOf now db q
  = match demoSearchBody relevanceOf now db q with
    | Ok r =>
        if topClash (sortBy (fun a b => score b - score a)
                       (found (keywords q) (default [] db)))
        then Throw TypeError else Ok r
    | Throw e => Throw e
    end.
Proof.
  rewrite demoSearchBody_unfold.
  assert (Proto.demoSearchBody relevanceOf now db q
          = (matches ← scoreAll (keywords q) (default [] db);
             let matches := sortBy (fun a b => score b - score a) matches in
             connections ← Proto.connectTop matches;
             Ok {| Result.query := q;
                   Result.timestamp := now;
                   Result.matches :=
                     Some (map (matchOut relevanceOf matches) (take 10 matches));
                   Result.connections :=
                     Some (sortBy (fun a b => Result.strength b - Result.strength a)
                             connections);
                   Result.analysis := analysisOf matches connections q |})) as ->
    by (by destruct db).
  destruct (forallb wellFormed (default [] db)) eqn:Hwf.
  - rewrite (scoreAll_found _ _ Hwf), !bind_Ok. cbv zeta.
    rewrite Proto_connectTop. by destruct (topClash _).
  - by rewrite (scoreAll_malformed _ _ Hwf), !bind_Throw.
Qed.

Lemma demoSearchBody_Ok_wellFormed relevanceOf now db q r :
  demoSearchBody relevanceOf now db q = Ok r ->
  forallb wellFormed (default [] db) = true.
Proof.
  rewrite demoSearchBody_unfold. intros H.
  destruct (forallb wellFormed (default [] db)) eqn:Hwf; [done|].
  by rewrite (scoreAll_malformed _ _ Hwf), bind_Throw in H.
Qed.

Lemma Proto_demoSearchBody_Ok relevanceOf now db q r :
  Proto.demoSearchBody relevanceOf now db q = Ok r
  <-> demoSearchBody relevanceOf now db q = Ok r
      /\ topClash (sortBy (fun a b => score b - score a)
                     (found (keywords q) (default [] db))) = false.
Proof.
  rewrite Proto_demoSearchBody.
  destruct (demoSearchBody relevanceOf now db q) as [r'|e].
  - destruct (topClash _); split; (intros [? ?] || intros ?); done.
  - split; [done | by intros [? _]].
Qed.

(** Every result the search returns is the result of the own-property
    reading, over a corpus the scoring loop can read: what is proved of
    [demoSearchBody] on such corpora holds of every result [demoSearch]
    resolves with. *)
Lemma Proto_result relevanceOf now db q r :
  Proto.demoSearchBody relevanceOf now db q = Ok r ->
  forallb wellFormed (default [] db) = true
  /\ demoSearchBody relevanceOf now db q = Ok r.
Proof.
  intros [Hr _]%Proto_demoSearchBody_Ok. split; [|done].
  by eapply demoSearchBody_Ok_wellFormed.
Qed.

Lemma Proto_demoSearchBody_Throw relevanceOf now db q e :
  Proto.demoSearchBody relevanceOf now db q = Throw e -> e = TypeError.
Proof.
  rewrite Proto_demoSearchBody, demoSearchBody_unfold.
  destruct (forallb wellFormed (default [] db)) eqn:Hwf.
  - rewrite (scoreAll_found _ _ Hwf), bind_Ok. cbv zeta.
    destruct (topClash _); congruence.
  - rewrite (scoreAll_malformed _ _ Hwf), bind_Throw. congruence.
Qed.

Lemma plainCategories_lookup a tax c :
  plainCategories a = true -> taxonomies a = Some tax ->
  c ∈ Proto.prototypeNames -> tax !! c = None.
Proof.
  unfold plainCategories. intros H Ha Hc. rewrite Ha in H.
  rewrite forallb_forall in H. apply list_elem_of_In in Hc.
  by apply H, bool_decide_eq_true in Hc.
Qed.

Lemma plain_no_clash a b : plainCategories a = true -> clashes a b = false.
Proof.
  intros Hp. unfold clashes.
  destruct (taxonomies a) as [taxA|] eqn:Ha; [|done].
  destruct (taxonomies b) as [taxB|]; [|done].
  apply not_true_is_false. intros (entry & Hin & Hc)%existsb_exists.
  destruct entry as [c va]. apply list_elem_of_In, elem_of_map_to_list in Hin.
  unfold clash in Hc. simpl in Hc. destruct va as [[|v va]|]; try done.
  apply andb_true_iff in Hc as [_ Hc%bool_decide_eq_true].
  by rewrite (plainCategories_lookup a taxA c Hp Ha Hc) in Hin.
Qed.

Lemma plain_no_topClash sorted :
  Forall (fun m => plainCategories (academic m) = true) sorted ->
  topClash sorted = false.
Proof.
  intros Hp. unfold topClash.
  apply not_true_is_false. intros ([A B] & Hin & Hc)%existsb_exists.
  apply list_elem_of_In, elem_of_pairs in Hin as (i & j & _ & Hi & _).
  apply lookup_take_Some in Hi as [Hi _].
  rewrite Forall_forall in Hp.
  assert (HA : A ∈ sorted) by (apply list_elem_of_lookup; eauto).
  simpl in Hc. by rewrite (plain_no_clash _ _ (Hp _ HA)) in Hc.
Qed.

Lemma found_academic kws corpus m :
  m ∈ found kws corpus -> academic m ∈ corpus.
Proof.
  unfold found. intros [Hin _]%list_elem_of_In%filter_In.
  apply list_elem_of_In, list_elem_of_fmap in Hin as (a & -> & Hin). done.
Qed.

Lemma plain_ranking kws corpus :
  forallb plainCategories corpus = true ->
  Forall (fun m => plainCategories (academic m) = true)
    (sortBy (fun a b => score b - score a) (found kws corpus)).
Proof.
  intros Hp. rewrite (sortBy_perm score). apply Forall_forall. intros m Hm.
  apply found_academic, list_elem_of_In in Hm.
  rewrite forallb_forall in Hp. by apply Hp.
Qed.

(** Where no category names a member of [Object.prototype], the search is
    the one of the own-property reading. *)
Lemma Proto_demoSearchBody_plain relevanceOf now db q :
  forallb plainCategories (default [] db) = true ->
  Proto.demoSearchBody relevanceOf now db q = demoSearchBody relevanceOf now db q.
Proof.
  intros Hp. rewrite Proto_demoSearchBody.
  rewrite (plain_no_topClash _ (plain_ranking _ _ Hp)).
  by destruct (demoSearchBody _ _ _ _).
Qed.

Lemma Proto_demoSearch_plain relevanceOf now db q :
  forallb plainCategories (default [] db) = true ->
  Proto.demoSearch relevanceOf now db q = demoSearch relevanceOf now db q.
Proof.
  intros Hp. unfold Proto.demoSearch, demoSearch.
  by rewrite Proto_demoSearchBody_plain.
Qed.

(** The record [arendt] has the category [constructor], [foucault] has
    not: the pair loop throws on the two, and the promise of [demoSearch]
    stays pending. *)
Example inherited_category_throws :
  forallb wellFormed [arendt; foucault] = true
  /\ Proto.demoSearchBody plainRelevance "T" (Some [arendt; foucault]) "power"
     = Throw TypeError
  /\ Proto.demoSearch plainRelevance "T" (Some [arendt; foucault]) "power"
     = NeverSettles.
Proof. repeat split; vm_compute; reflexivity. Qed.

(** C1 (as amended). On a corpus whose records all have a name and whose
    papers and events all have a title, every record is scored (absent
    description, taxonomies, papers, events and connections are passed
    over); when moreover no category of a record names a member of
    [Object.prototype], the search resolves with a result. A record without
    a name is not skipped: the scoring loop stops with a [TypeError] there,
    and the promise of [demoSearch] never settles. *)
Theorem search_needs_names relevanceOf now db q :
  (forallb wellFormed (default [] db) = true ->
     scoreAll (keywords q) (default [] db)
     = Ok (found (keywords q) (default [] db))
     /\ (forallb plainCategories (default [] db) = true ->
         exists r, Proto.demoSearch relevanceOf now db q = Resolved r))
  /\ (forallb wellFormed (default [] db) = false ->
        Proto.demoSearchBody relevanceOf now db q = Throw TypeError
        /\ Proto.demoSearch relevanceOf now db q = NeverSettles).
Proof.
  split; intros H.
  - split; [by apply scoreAll_found|]. intros Hp.
    rewrite (Proto_demoSearch_plain _ _ _ _ Hp).
    unfold demoSearch. rewrite demoSearchBody_unfold.
    rewrite (scoreAll_found _ _ H), bind_Ok. eauto.
  - unfold Proto.demoSearch. rewrite Proto_demoSearchBody, demoSearchBody_unfold.
    by rewrite (scoreAll_malformed _ _ H), bind_Throw.
Qed.

Lemma search_needs_names_witness :
  (exists r, Proto.demoSearch plainRelevance "T" (Some [foucault; butler]) "power"
             = Resolved r)
  /\ Proto.demoSearch plainRelevance "T" (Some [nameless; foucault]) "power"
     = NeverSettles.
Proof.
  split.
  - apply (search_needs_names plainRelevance "T" (Some [foucault; butler]) "power");
      vm_compute; reflexivity.
  - apply (search_needs_names plainRelevance "T" (Some [nameless; foucault]) "power").
    reflexivity.
Defined.

(** C1 (as stated) fails: with a nameless record in the corpus the search
    does not skip it and score the others; it produces no result at all. *)
Lemma nameless_record_not_skipped :
  scoreAcademic (keywords "power") foucault = Ok 3
  /\ demoSearchBody plainRelevance "T" (Some [nameless; foucault]) "power"
     = Throw TypeError
  /\ demoSearch plainRelevance "T" (Some [nameless; foucault]) "power"
     = NeverSettles
  /\ Proto.demoSearchBody plainRelevance "T" (Some [nameless; foucault]) "power"
     = Throw TypeError
  /\ Proto.demoSearch plainRelevance "T" (Some [nameless; foucault]) "power"
     = NeverSettles.
Proof. repeat split; vm_compute; reflexivity. Qed.





(** ** The query cache with the inherited members *)

Lemma Proto_executeSearch_blank relevanceOf w q options s :
  isEmpty (trim q) = true ->
  Proto.executeSearch relevanceOf w q options s = (Proto.Threw EmptyQuery, s).
Proof. intros H. unfold Proto.executeSearch. by rewrite blank_query, H. Qed.

Lemma Proto_executeSearch_hit relevanceOf w q options s cached :
  isEmpty (trim q) = false ->
  Assoc.get (cacheKeyOf (trim q) (depthOf options s)) (searchCache s)
  = Some (Some cached) ->
  Proto.executeSearch relevanceOf w q options s = (Proto.Returned (Some cached), s).
Proof.
  intros Hq Hc. unfold Proto.executeSearch. by rewrite blank_query, Hq, Hc.
Qed.

(** Under a key that names a member of [Object.prototype], and that the
    cache does not hold, the call returns that member: nothing is searched
    and nothing is stored. *)
Lemma Proto_executeSearch_member relevanceOf w q options s :
  isEmpty (trim q) = false ->
  Assoc.get (cacheKeyOf (trim q) (depthOf options s)) (searchCache s) = None ->
  cacheKeyOf (trim q) (depthOf options s) ∈ Proto.prototypeNames ->
  Proto.executeSearch relevanceOf w q options s
  = (Proto.ReturnedMember (cacheKeyOf (trim q) (depthOf options s)), s).
Proof.
  intros Hq Hc Hin. unfold Proto.executeSearch.
  by rewrite blank_query, Hq, Hc, read_inherited.
Qed.

Lemma Proto_executeSearch_miss relevanceOf w q options s :
  isEmpty (trim q) = false ->
  (forall cached,
     Assoc.get (cacheKeyOf (trim q) (depthOf options s)) (searchCache s)
     <> Some (Some cached)) ->
  (Assoc.get (cacheKeyOf (trim q) (depthOf options s)) (searchCache s) = None ->
   cacheKeyOf (trim q) (depthOf options s) ∉ Proto.prototypeNames) ->
  Proto.executeSearch relevanceOf w q options s
  = match Proto.settlement relevanceOf w (trim q) s with
    | Resolved results =>
        (Proto.Returned results,
         setInProgress false
           (setCache (cacheStore (cacheKeyOf (trim q) (depthOf options s))
                        results (searchCache s))
              (setInProgress true s)))
    | Rejected e => (Proto.Threw e, setInProgress false (setInProgress true s))
    | NeverSettles => (Proto.Pending, setInProgress true s)
    end.
Proof.
  intros Hq Hc Hkey. unfold Proto.executeSearch, Proto.settlement.
  rewrite blank_query, Hq.
  destruct (Assoc.get _ (searchCache s)) as [[cached|]|] eqn:Hg.
  - by destruct (Hc cached).
  - done.
  - by rewrite read_plain by auto.
Qed.

(** The query [_] searched with the depth [proto__] has the key
    [__proto__]: the call returns the prototype of the cache, the object is
    left as it was. *)
Example inherited_key_is_returned :
  Proto.executeSearch plainRelevance (localWorld [foucault]) "_"
    {| depth := Some "proto__" |} (constructor None)
  = (Proto.ReturnedMember "__proto__", constructor None).
Proof. vm_compute. reflexivity. Qed.

(** A key built with one of the three depths names no member of
    [Object.prototype]: it ends in another letter. *)
Lemma lastChar_append p s t :
  t <> EmptyString -> lastChar p (s +:+ t) = lastChar p t.
Proof.
  intros Ht. induction s as [|c s IH]; [done|].
  simpl. rewrite IH. destruct (s +:+ t) eqn:Hst; [|done].
  destruct s; [|done]. simpl in Hst. done.
Qed.

Lemma cacheKeyOf_depth query depth :
  depth ∈ ["basic"; "medium"; "deep"]%string ->
  cacheKeyOf query depth ∉ Proto.prototypeNames.
Proof.
  intros Hd Hin.
  set (p := fun c : ascii => bool_decide (c ∈ ["c"; "m"; "p"]%char)).
  assert (Hlast : lastChar p (cacheKeyOf query depth) = true).
  { unfold cacheKeyOf. rewrite lastChar_append.
    - repeat (apply elem_of_cons in Hd as [-> | Hd]; [vm_compute; reflexivity|]).
      by apply elem_of_nil in Hd.
    - repeat (apply elem_of_cons in Hd as [-> | Hd]; [done|]).
      by apply elem_of_nil in Hd. }
  assert (Hnames : Forall (fun n => lastChar p n = false) Proto.prototypeNames).
  { repeat constructor. }
  rewrite Forall_forall in Hnames. specialize (Hnames _ Hin). congruence.
Qed.

(** Where the key names no member of [Object.prototype] and no category
    does either, the call ends as in the own-property reading. *)
Lemma Proto_executeSearch_plain relevanceOf w q options s :
  cacheKeyOf (trim q) (depthOf options s) ∉ Proto.prototypeNames ->
  forallb plainCategories (default [] (databaseManager w)) = true ->
  Proto.executeSearch relevanceOf w q options s
  = (withMembers (fst (executeSearch relevanceOf w q options s)),
     snd (executeSearch relevanceOf w q options s)).
Proof.
  intros Hkey Hp. unfold Proto.executeSearch, executeSearch.
  destruct (isEmpty q || isEmpty (trim q)); [done|].
  destruct (Assoc.get _ (searchCache s)) as [[cached|]|]; simpl; [done| |].
  all: rewrite ?(bool_decide_eq_false_2 _ Hkey).
  all: rewrite (Proto_demoSearch_plain _ _ _ _ Hp).
  all: destruct (isInitialized s); [destruct (remote w); reflexivity|].
  all: destruct (demoSearch _ _ _ _); reflexivity.
Qed.

(** C6 (as amended). A query that is empty, or blank once trimmed, makes
    [executeSearch] throw the empty-query error at once: whatever the
    clock, the corpus and the remote service are, and with the object left
    as it was. Any other query, searched locally (no key set, no answer
    cached for it, a cache key that names no member of [Object.prototype])
    over a corpus the scoring loop can read and in which no category names
    such a member, returns a result; over an empty or undefined corpus, or
    when no token survives the filter, that result has no matches, no
    connections, and the analysis of a search that found nothing. *)
Theorem executeSearch_validation relevanceOf w query options s :
  (isEmpty (trim query) = true ->
     Proto.executeSearch relevanceOf w query options s
     = (Proto.Threw EmptyQuery, s))
  /\ (isEmpty (trim query) = false ->
      isInitialized s = false ->
      (forall cached,
         Assoc.get (cacheKeyOf (trim query) (depthOf options s)) (searchCache s)
         <> Some (Some cached)) ->
      cacheKeyOf (trim query) (depthOf options s) ∉ Proto.prototypeNames ->
      forallb wellFormed (default [] (databaseManager w)) = true ->
      forallb plainCategories (default [] (databaseManager w)) = true ->
      exists r,
        fst (Proto.executeSearch relevanceOf w query options s)
        = Proto.Returned (Some r)
        /\ Proto.demoSearchBody relevanceOf (now w) (databaseManager w) (trim query)
           = Ok r
        /\ (default [] (databaseManager w) = [] \/ keywords (trim query) = [] ->
            Result.matches r = Some []
            /\ Result.connections r = Some []
            /\ Result.analysis r = noMatchAnalysis (trim query))).
Proof.
  split; [apply Proto_executeSearch_blank|].
  intros Hq Hinit Hcache Hkey Hwf Hp.
  rewrite Proto_executeSearch_miss by done.
  unfold Proto.settlement, Proto.demoSearch. rewrite Hinit.
  rewrite (Proto_demoSearchBody_plain _ _ _ _ Hp).
  rewrite demoSearchBody_unfold, (scoreAll_found _ _ Hwf), bind_Ok. simpl.
  eexists. split; [reflexivity|]. split; [reflexivity|]. simpl.
  intros Hnone.
  assert (Hfound : found (keywords (trim query)) (default [] (databaseManager w)) = []).
  { destruct Hnone as [-> | ->]; [done | apply found_no_keywords]. }
  rewrite Hfound. repeat split.
Qed.

Lemma executeSearch_validation_witness :
  Proto.executeSearch plainRelevance (localWorld [foucault]) "   " noOptions
    (constructor None)
  = (Proto.Threw EmptyQuery, constructor None)
  /\ exists r,
       fst (Proto.executeSearch plainRelevance (localWorld [foucault]) "a is to"
              noOptions (constructor None))
       = Proto.Returned (Some r)
       /\ Result.matches r = Some [].
Proof.
  split.
  - apply (executeSearch_validation plainRelevance (localWorld [foucault]) "   ").
    reflexivity.
  - destruct (executeSearch_validation plainRelevance (localWorld [foucault])
                "a is to" noOptions (constructor None)) as [_ H].
    destruct H as (r & Hr & _ & Hnone).
    + reflexivity.
    + reflexivity.
    + intros cached. simpl. discriminate.
    + apply cacheKeyOf_depth. apply (bool_decide_unpack _). vm_compute. exact I.
    + reflexivity.
    + vm_compute. reflexivity.
    + exists r. split; [exact Hr|]. apply Hnone. right. reflexivity.
Defined.

(** C6 (as stated) fails: the query [a is to] is not blank and loses all
    its tokens to the filter, yet over a corpus holding a nameless record
    the search neither returns the empty result nor any other: the scoring
    loop throws and the call stays pending. *)
Lemma filtered_query_without_result :
  isEmpty (trim "a is to") = false
  /\ keywords (trim "a is to") = []
  /\ demoSearchBody plainRelevance "T" (Some [nameless]) (trim "a is to")
     = Throw TypeError
  /\ fst (executeSearch plainRelevance (localWorld [nameless]) "a is to" noOptions
            (constructor None))
     = Pending
  /\ Proto.demoSearchBody plainRelevance "T" (Some [nameless]) (trim "a is to")
     = Throw TypeError
  /\ fst (Proto.executeSearch plainRelevance (localWorld [nameless]) "a is to"
            noOptions (constructor None))
     = Proto.Pending.
Proof. repeat split; vm_compute; reflexivity. Qed.

(** C10 (as amended). A call of [executeSearch] that runs a search (the
    query is not blank and the cache lookup finds nothing) and completes,
    by returning the result or by throwing the error of the search, leaves
    [isSearching()] false, whatever it was before. A call that is refused
    for a blank query, or answered by the cache lookup, leaves the object
    as it was, flag included. So after every completed call made while no
    search was pending the flag is false. *)
Theorem searchInProgress_reset relevanceOf w query options s c s' :
  Proto.executeSearch relevanceOf w query options s = (c, s') ->
  c <> Proto.Pending ->
  (isEmpty (trim query) = false ->
   Proto.read (Assoc.get (cacheKeyOf (trim query) (depthOf options s))
                 (searchCache s))
     (cacheKeyOf (trim query) (depthOf options s)) = Proto.Own None
   \/ Proto.read (Assoc.get (cacheKeyOf (trim query) (depthOf options s))
                    (searchCache s))
        (cacheKeyOf (trim query) (depthOf options s)) = Proto.Absent ->
   isSearching s' = false)
  /\ (isEmpty (trim query) = true
      \/ (exists cached,
            Proto.read (Assoc.get (cacheKeyOf (trim query) (depthOf options s))
                          (searchCache s))
              (cacheKeyOf (trim query) (depthOf options s))
            = Proto.Own (Some cached))
      \/ Proto.read (Assoc.get (cacheKeyOf (trim query) (depthOf options s))
                       (searchCache s))
           (cacheKeyOf (trim query) (depthOf options s)) = Proto.Inherited ->
      s' = s)
  /\ (isSearching s = false -> isSearching s' = false).
Proof.
  intros Hexec Hc. unfold Proto.executeSearch in Hexec.
  rewrite blank_query in Hexec.
  destruct (isEmpty (trim query)) eqn:Hq.
  { injection Hexec as <- <-. split; [done|]. split; [done|]. done. }
  destruct (Proto.read _ _) as [[cached|]| |] eqn:Hread.
  - injection Hexec as <- <-. split; [by intros _ [?|?]|]. split; [done|]. done.
  - assert (isSearching s' = false) as Hs'.
    { destruct (if isInitialized (setInProgress true s) then _ else _);
        injection Hexec as <- <-; done. }
    split; [done|]. split; [|done].
    by intros [? | [[? ?] | ?]].
  - injection Hexec as <- <-. split; [by intros _ [?|?]|]. split; [done|]. done.
  - assert (isSearching s' = false) as Hs'.
    { destruct (if isInitialized (setInProgress true s) then _ else _);
        injection Hexec as <- <-; done. }
    split; [done|]. split; [|done].
    by intros [? | [[? ?] | ?]].
Qed.

Lemma searchInProgress_reset_witness :
  isSearching
    (snd (Proto.executeSearch plainRelevance
            {| now := "T"; databaseManager := None;
               remote := Rejected (ApiError "API request failed with status 500") |}
            "power" noOptions (setInProgress true (constructor (Some "secret")))))
  = false.
Proof.
  destruct (searchInProgress_reset plainRelevance
              {| now := "T"; databaseManager := None;
                 remote := Rejected (ApiError "API request failed with status 500") |}
              "power" noOptions (setInProgress true (constructor (Some "secret")))
              _ _ (surjective_pairing _)) as [H _].
  - vm_compute. discriminate.
  - apply H; [reflexivity | right; vm_compute; reflexivity].
Defined.

(** C10 (as stated) fails. While the remote request of a first call is
    awaited the flag is true, and a second call, refused for its blank
    query, completes and leaves it true. The flag is also left true by a
    local search that fails in its timer callback: that call never
    completes, and the calls completed after it find the flag set. *)
Lemma completed_call_leaves_flag :
  (let s1 := snd (Proto.executeSearch plainRelevance awaitingWorld "power"
                    noOptions (constructor (Some "secret"))) in
   fst (Proto.executeSearch plainRelevance awaitingWorld "power"
          noOptions (constructor (Some "secret"))) = Proto.Pending
   /\ Proto.executeSearch plainRelevance awaitingWorld "   " noOptions s1
      = (Proto.Threw EmptyQuery, s1)
   /\ isSearching s1 = true)
  /\ (let s2 := snd (Proto.executeSearch plainRelevance (localWorld [nameless])
                       "power" noOptions (constructor None)) in
      fst (Proto.executeSearch plainRelevance (localWorld [nameless])
             "power" noOptions (constructor None)) = Proto.Pending
      /\ Proto.executeSearch plainRelevance (localWorld [nameless]) "   " noOptions s2
         = (Proto.Threw EmptyQuery, s2)
      /\ isSearching s2 = true).
Proof. repeat split; vm_compute; reflexivity. Qed.

(** ** [formatAcademicData] with the inherited members *)

Lemma forEachM_app {A S} (body : S -> A -> res S) l1 l2 s :
  forEachM body (l1 ++ l2) s = (s' ← forEachM body l1 s; forEachM body l2 s').
Proof.
  revert s. induction l1 as [|a l1 IH]; intros s; [done|].
  simpl. destruct (body s a) as [s1|e]; [|done]. rewrite !bind_Ok. apply IH.
Qed.

Lemma pushValue_is_Some c tax v :
  is_Some (tax !! c) -> is_Some (pushValue c tax v !! c).
Proof.
  intros H. unfold pushValue. destruct (bool_decide _); [done|].
  rewrite lookup_insert_eq. by eexists.
Qed.

Lemma pushValue_other c tax v c' :
  c' <> c -> pushValue c tax v !! c' = tax !! c'.
Proof.
  intros H. unfold pushValue. destruct (bool_decide _); [done|].
  by apply lookup_insert_ne.
Qed.

Lemma pushValue_fold_other c vals tax c' :
  c' <> c -> fold_left (pushValue c) vals tax !! c' = tax !! c'.
Proof.
  intros H. revert tax. induction vals as [|v vals IH]; intros tax; [done|].
  simpl. by rewrite IH, pushValue_other.
Qed.

Lemma Proto_pushValue_own c tax v :
  is_Some (tax !! c) -> Proto.pushValue c tax v = Ok (pushValue c tax v).
Proof. intros [held H]. unfold Proto.pushValue, pushValue. by rewrite H. Qed.

Lemma Proto_pushValue_fold c vals tax :
  is_Some (tax !! c) ->
  forEachM (Proto.pushValue c) vals tax = Ok (fold_left (pushValue c) vals tax).
Proof.
  revert tax. induction vals as [|v vals IH]; intros tax H; [done|].
  simpl. rewrite Proto_pushValue_own, bind_Ok by done.
  by apply IH, pushValue_is_Some.
Qed.

(** Under a category that names no member of [Object.prototype] the
    merge is the one of the own-property reading. *)
Lemma Proto_mergeTaxonomy_plain tax e :
  Result.category e ∉ Proto.prototypeNames ->
  Proto.mergeTaxonomy tax e = Ok (mergeTaxonomy tax e).
Proof.
  intros Hc. unfold Proto.mergeTaxonomy, mergeTaxonomy.
  destruct (tax !! Result.category e) as [held|] eqn:Hl.
  - rewrite read_own. apply Proto_pushValue_fold. by rewrite Hl.
  - rewrite read_plain by done. apply Proto_pushValue_fold.
    rewrite lookup_insert_eq. by eexists.
Qed.

(** Under a category that names such a member, and that the object does
    not own, nothing is merged and the first value throws. *)
Lemma Proto_mergeTaxonomy_inherited tax e :
  Result.category e ∈ Proto.prototypeNames ->
  tax !! Result.category e = None ->
  Proto.mergeTaxonomy tax e
  = if unmergeable e then Throw TypeError else Ok tax.
Proof.
  intros Hc Hl. unfold Proto.mergeTaxonomy, unmergeable.
  rewrite Hl, read_inherited, (bool_decide_eq_true_2 _ Hc) by done.
  destruct (Result.values e) as [|v vals]; [done|]. simpl.
  unfold Proto.pushValue. by rewrite Hl, read_inherited.
Qed.

Lemma mergeTaxonomy_other tax e c :
  c <> Result.category e -> mergeTaxonomy tax e !! c = tax !! c.
Proof.
  intros H. unfold mergeTaxonomy. rewrite pushValue_fold_other by done.
  destruct (tax !! Result.category e); [done|]. by apply lookup_insert_ne.
Qed.

Lemma Proto_mergeTaxonomy_forEach es tax :
  (forall c, c ∈ Proto.prototypeNames -> tax !! c = None) ->
  match forEachM Proto.mergeTaxonomy es tax with
  | Ok tax' =>
      existsb unmergeable es = false
      /\ forall c, c ∈ Proto.prototypeNames -> tax' !! c = None
  | Throw e => e = TypeError /\ existsb unmergeable es = true
  end.
Proof.
  revert tax. induction es as [|e es IH]; intros tax Hown; [done|].
  simpl forEachM. simpl existsb.
  destruct (decide (Result.category e ∈ Proto.prototypeNames)) as [Hin|Hn].
  - rewrite Proto_mergeTaxonomy_inherited by auto.
    destruct (unmergeable e); [done|]. rewrite bind_Ok. by apply IH.
  - rewrite Proto_mergeTaxonomy_plain, bind_Ok by done.
    assert (unmergeable e = false) as ->
      by (unfold unmergeable; by rewrite (bool_decide_eq_false_2 _ Hn)).
    apply IH. intros c Hc. rewrite mergeTaxonomy_other; [by apply Hown|].
    by intros ->.
Qed.

Lemma Proto_mergeConnections_flat conns tax :
  Proto.mergeConnections conns tax
  = forEachM Proto.mergeTaxonomy (flat_map Result.sharedTaxonomies conns) tax.
Proof.
  unfold Proto.mergeConnections. revert tax.
  induction conns as [|c conns IH]; intros tax; [done|].
  simpl. rewrite forEachM_app.
  destruct (forEachM Proto.mergeTaxonomy (Result.sharedTaxonomies c) tax); [|done].
  rewrite !bind_Ok. apply IH.
Qed.

Lemma Proto_mergeTaxonomy_fold_plain es tax :
  Forall (fun e => Result.category e ∉ Proto.prototypeNames) es ->
  forEachM Proto.mergeTaxonomy es tax = Ok (fold_left mergeTaxonomy es tax).
Proof.
  intros H. revert tax. induction H as [|e es He Hes IH]; intros tax; [done|].
  simpl. by rewrite Proto_mergeTaxonomy_plain, bind_Ok.
Qed.

(** Where the evidence of the connections of the first match names no
    member of [Object.prototype], [formatAcademicData] is the one of the
    own-property reading. *)
Lemma Proto_formatAcademicData_plain r :
  (forall top rest conns,
     Result.matches r = Some (top :: rest) -> Result.connections r = Some conns ->
     Forall (fun e => Result.category e ∉ Proto.prototypeNames)
       (flat_map Result.sharedTaxonomies
          (List.filter (involves (Result.name top)) conns))) ->
  Proto.formatAcademicData (Some r) = formatAcademicData (Some r).
Proof.
  intros H. unfold Proto.formatAcademicData, formatAcademicData.
  destruct (Result.matches r) as [[|top rest]|]; [done| |done].
  destruct (Result.connections r) as [conns|]; [|done].
  rewrite Proto_mergeConnections_flat, mergeConnections_flat.
  by rewrite (Proto_mergeTaxonomy_fold_plain _ _ (H _ _ _ eq_refl eq_refl)).
Qed.

(** X11. [formatAcademicData] returns [null] exactly when the result is
    missing or has no match. It throws, always a [TypeError], exactly when
    there is a match and either the [connections] field is missing (a case
    [convertToNetworkData] answers with the empty graph) or a connection of
    the first match has evidence holding a value under a category named
    like a member of [Object.prototype]. *)
Theorem formatAcademicData_outcomes results :
  (Proto.formatAcademicData results = Ok None
   <-> results = None
       \/ exists r, results = Some r
                    /\ (Result.matches r = None \/ Result.matches r = Some []))
  /\ ((exists e, Proto.formatAcademicData results = Throw e)
      <-> exists r m ms,
            results = Some r /\ Result.matches r = Some (m :: ms)
            /\ (Result.connections r = None
                \/ exists conns conn e,
                     Result.connections r = Some conns
                     /\ conn ∈ conns /\ involves (Result.name m) conn = true
                     /\ e ∈ Result.sharedTaxonomies conn
                     /\ Result.category e ∈ Proto.prototypeNames
                     /\ Result.values e <> []))
  /\ (forall e, Proto.formatAcademicData results = Throw e -> e = TypeError)
  /\ ((exists r m ms, results = Some r /\ Result.matches r = Some (m :: ms)
                      /\ Result.connections r = None) ->
      Proto.formatAcademicData results = Throw TypeError
      /\ convertToNetworkData results = {| Graph.nodes := []; Graph.links := [] |}).
Proof.
  unfold Proto.formatAcademicData, convertToNetworkData.
  destruct results as [r|].
  2:{ split; [split; [by left | done]|]. split; [|split].
      - split; [by intros [? ?] | by intros (? & ? & ? & ? & _)].
      - done.
      - by intros (? & ? & ? & ? & _). }
  destruct (Result.matches r) as [[|m ms]|] eqn:Hm.
  - split; [split; [intros _; right; exists r; by split; [|right] | done]|].
    split; [|split].
    + split; [by intros [? ?]|]. intros (r' & m & ms & [= <-] & Hm' & _). congruence.
    + done.
    + intros (r' & m & ms & [= <-] & Hm' & _). congruence.
  - destruct (Result.connections r) as [conns|] eqn:Hc.
    + rewrite Proto_mergeConnections_flat.
      pose proof (Proto_mergeTaxonomy_forEach
                    (flat_map Result.sharedTaxonomies
                       (List.filter (involves (Result.name m)) conns)) ∅
                    (fun c _ => lookup_empty c)) as Hmerge.
      destruct (forEachM Proto.mergeTaxonomy _ ∅) as [tax|err].
      * destruct Hmerge as [Hnone _]. rewrite bind_Ok.
        split.
        { split; [done|]. intros [?|(r' & [= <-] & [?|?])]; congruence. }
        split; [|split].
        -- split; [by intros [? ?]|].
           intros (r' & m' & ms' & [= <-] & Hm' & [?|Hbad]); [congruence|].
           rewrite Hm in Hm'. injection Hm' as <- <-.
           destruct Hbad as (conns' & conn & e & Hc' & Hconn & Hinv & He & Hcat & Hval).
           rewrite Hc in Hc'. injection Hc' as <-.
           exfalso. apply not_true_iff_false in Hnone. apply Hnone.
           apply existsb_exists. exists e. split.
           ++ apply in_flat_map. exists conn. split; [|by apply list_elem_of_In].
              apply filter_In. split; [by apply list_elem_of_In | done].
           ++ unfold unmergeable. rewrite (bool_decide_eq_true_2 _ Hcat).
              by rewrite (bool_decide_eq_false_2 _ Hval).
        -- done.
        -- intros (r' & m' & ms' & [= <-] & _ & ?). congruence.
      * destruct Hmerge as [-> Hbad]. rewrite bind_Throw.
        split.
        { split; [done|]. intros [?|(r' & [= <-] & [?|?])]; congruence. }
        split; [|split].
        -- split; [intros _ | by eexists].
           exists r, m, ms. split; [done|]. split; [done|]. right.
           apply existsb_exists in Hbad as (e & He & Hun).
           apply in_flat_map in He as (conn & Hconn & He).
           apply filter_In in Hconn as [Hconn Hinv].
           unfold unmergeable in Hun. apply andb_true_iff in Hun as [Hcat Hval].
           apply bool_decide_eq_true in Hcat.
           apply negb_true_iff, bool_decide_eq_false in Hval.
           exists conns, conn, e. repeat split; try done; by apply list_elem_of_In.
        -- by intros e [= <-].
        -- intros (r' & m' & ms' & [= <-] & _ & ?). congruence.
    + split.
      { split; [done|]. intros [?|(r' & [= <-] & [?|?])]; congruence. }
      split; [|split].
      * split; [|by eexists]. intros _. exists r, m, ms. by repeat split; [..|left].
      * by intros e [= <-].
      * done.
  - split; [split; [intros _; right; exists r; by split; [|left] | done]|].
    split; [|split].
    + split; [by intros [? ?]|]. intros (r' & m & ms & [= <-] & Hm' & _). congruence.
    + done.
    + intros (r' & m & ms & [= <-] & Hm' & _). congruence.
Qed.

Lemma formatAcademicData_outcomes_witness :
  Proto.formatAcademicData (Some withoutConnections) = Throw TypeError
  /\ convertToNetworkData (Some withoutConnections)
     = {| Graph.nodes := []; Graph.links := [] |}.
Proof.
  apply (formatAcademicData_outcomes (Some withoutConnections)).
  eexists _, _, _. repeat split; reflexivity.
Defined.

(** A result whose connection has evidence under [constructor] makes
    [formatAcademicData] throw. *)
Example inherited_evidence_throws :
  Proto.formatAcademicData (Some inheritedEvidence) = Throw TypeError.
Proof. vm_compute. reflexivity. Qed.

(** X12. When the evidence of the connections the first match takes part
    in names no member of [Object.prototype], [formatAcademicData] returns
    a record that carries the name of the first match, no papers and no
    events; its connections are the other ends of those connections, in
    their order; and its taxonomies merge their evidence: a category is
    present exactly when one of them has evidence for it, and holds each of
    its values once. *)
Theorem formatAcademicData_record r top rest conns :
  Result.matches r = Some (top :: rest) ->
  Result.connections r = Some conns ->
  Forall (fun e => Result.category e ∉ Proto.prototypeNames)
    (flat_map Result.sharedTaxonomies
       (List.filter (involves (Result.name top)) conns)) ->
  exists f,
    Proto.formatAcademicData (Some r) = Ok (Some f)
    /\ Formatted.name f = Result.name top
    /\ Formatted.papers f = [] /\ Formatted.events f = []
    /\ Formatted.connections f
       = map (otherEnd (Result.name top))
           (List.filter (involves (Result.name top)) conns)
    /\ mergedFrom
         (flat_map Result.sharedTaxonomies
            (List.filter (involves (Result.name top)) conns))
         (Formatted.taxonomies f).
Proof.
  intros Hm Hc Hplain. rewrite Proto_formatAcademicData_plain.
  2:{ intros top' rest' conns' Hm' Hc'. rewrite Hm in Hm'. rewrite Hc in Hc'.
      injection Hm' as <- <-. by injection Hc' as <-. }
  unfold formatAcademicData. rewrite Hm, Hc.
  eexists. split; [reflexivity|].
  do 4 (split; [reflexivity|]).
  cbn [Formatted.taxonomies]. rewrite mergeConnections_flat.
  apply (mergeTaxonomy_fold [] _ ∅ mergedFrom_empty).
Qed.

Lemma formatAcademicData_record_witness :
  exists f,
    Proto.formatAcademicData (Some sharedResult) = Ok (Some f)
    /\ Formatted.connections f = [Some "michel-foucault"; Some "gilles-deleuze"]%string
    /\ Formatted.taxonomies f !! "theme"%string = Some ["Power"; "Desire"]%string.
Proof.
  destruct (formatAcademicData_record sharedResult
              {| Result.name := Some "judith-butler"; Result.score := 6;
                 Result.relevance := "100.0%" |} []
              (default [] (Result.connections sharedResult)))
    as (f & Hf & _ & _ & _ & Hconn & _); [reflexivity | reflexivity | |].
  - apply (bool_decide_unpack _). vm_compute. exact I.
  - exists f. split; [exact Hf|]. split; [by rewrite Hconn|].
    vm_compute in Hf. injection Hf as <-. vm_compute. reflexivity.
Defined.

Lemma plain_evidence a b e :
  plainCategories a = true -> e ∈ sharedTaxonomiesOf a b ->
  Result.category e ∉ Proto.prototypeNames.
Proof.
  intros Hp (va & _ & Ha & _)%sharedTaxonomiesOf_elem Hin.
  unfold tagsIn in Ha. destruct (taxonomies a) as [tax|] eqn:Htax; [|done].
  by rewrite (plainCategories_lookup a tax _ Hp Htax Hin) in Ha.
Qed.

Lemma connectTop_evidence_plain sorted conn e :
  Forall (fun m => plainCategories (academic m) = true) sorted ->
  conn ∈ connectTop sorted -> e ∈ Result.sharedTaxonomies conn ->
  Result.category e ∉ Proto.prototypeNames.
Proof.
  intros Hp (i & j & A & B & _ & Hi & _ & Hc)%elem_of_connectTop He.
  apply connect_Some in Hc as (_ & _ & _ & Hs & _). rewrite Hs in He.
  apply (plain_evidence (academic A) (academic B)); [|done].
  rewrite Forall_forall in Hp. apply Hp, list_elem_of_lookup. eauto.
Qed.

(** X15. On the result of a search over a corpus in which no category
    names a member of [Object.prototype], [formatAcademicData] does not
    throw: it returns [null] when nothing matched, and otherwise a record
    that carries the name of the first match and lists as connections only
    names of returned matches. *)
Theorem formatAcademicData_of_search relevanceOf now db q :
  forallb wellFormed (default [] db) = true ->
  forallb plainCategories (default [] db) = true ->
  exists r out,
    Proto.demoSearchBody relevanceOf now db q = Ok r
    /\ Result.matches r = Some out
    /\ (out = [] -> Proto.formatAcademicData (Some r) = Ok None)
    /\ (forall m0 rest, out = m0 :: rest ->
          exists f,
            Proto.formatAcademicData (Some r) = Ok (Some f)
            /\ Formatted.name f = Result.name m0
            /\ forall x, x ∈ Formatted.connections f -> x ∈ map Result.name out).
Proof.
  intros Hwf Hp. rewrite (Proto_demoSearchBody_plain _ _ _ _ Hp).
  rewrite demoSearchBody_unfold, (scoreAll_found _ _ Hwf), bind_Ok.
  set (ms := found (keywords q) (default [] db)).
  set (sorted := sortBy (fun a b => score b - score a) ms).
  eexists _, _. split; [reflexivity|]. cbv zeta. split; [reflexivity|].
  match goal with |- context [Proto.formatAcademicData (Some ?r)] => set (res := r) end.
  assert (Hsame : Proto.formatAcademicData (Some res) = formatAcademicData (Some res)).
  { apply Proto_formatAcademicData_plain. intros top rest conns _ [= <-].
    apply Forall_forall. intros e He.
    apply list_elem_of_In, in_flat_map in He as (conn & Hconn & He).
    apply filter_In in Hconn as [Hconn _].
    apply list_elem_of_In in Hconn.
    rewrite (sortBy_perm Result.strength) in Hconn.
    apply (connectTop_evidence_plain sorted conn e); [|done|by apply list_elem_of_In].
    apply plain_ranking, Hp. }
  rewrite Hsame. subst res. split.
  - intros Hout. unfold formatAcademicData. simpl. by rewrite Hout.
  - intros m0 rest Hout. unfold formatAcademicData. simpl. rewrite Hout.
    eexists. split; [reflexivity|]. split; [reflexivity|]. simpl.
    intros x (conn & -> & Hconn)%list_elem_of_fmap.
    apply list_elem_of_In, filter_In in Hconn as [Hconn _].
    apply list_elem_of_In, (search_endpoints relevanceOf) in Hconn as [HA HB].
    rewrite Hout in HA, HB.
    destruct (otherEnd_endpoint (Result.name m0) conn) as [-> | ->]; done.
Qed.

Lemma formatAcademicData_of_search_witness :
  exists r f,
    Proto.demoSearchBody plainRelevance "T" (Some [foucault; butler]) "power" = Ok r
    /\ Proto.formatAcademicData (Some r) = Ok (Some f).
Proof.
  destruct (formatAcademicData_of_search plainRelevance "T" (Some [foucault; butler])
              "power") as (r & out & Hr & Hout & _ & Hf);
    [vm_compute; reflexivity | vm_compute; reflexivity |].
  assert (exists m0 rest, out = m0 :: rest) as (m0 & rest & Houtc).
  { vm_compute in Hr. injection Hr as <-. vm_compute in Hout.
    injection Hout as <-. eauto. }
  destruct (Hf m0 rest Houtc) as (f & Hff & _).
  exists r, f. split; [exact Hr | exact Hff].
Defined.

(** Two records that share a value under the category [constructor]: the
    search returns a result, on which [formatAcademicData] throws. *)
Example search_result_not_formatted :
  exists r,
    Proto.demoSearchBody plainRelevance "T" (Some [arendt; weil]) "power" = Ok r
    /\ Proto.formatAcademicData (Some r) = Throw TypeError.
Proof. eexists. split; vm_compute; reflexivity. Qed.

(** X22. Every record a store built by adding and deleting hands to the
    search has a name that is not empty, so the scoring loop never fails on
    a name; when the papers and events of the records all have titles and
    no category of a record names a member of [Object.prototype], the local
    search over that store resolves with a result. *)
Theorem store_corpus_is_named relevanceOf now q db :
  Store.built db ->
  Forall (fun a => exists n, name a = Some n /\ n <> EmptyString)
    (Store.getAllAcademics db)
  /\ (forallb (fun a => titled (papers a) && titled (events a))
        (Store.getAllAcademics db) = true ->
      forallb plainCategories (Store.getAllAcademics db) = true ->
      exists r, Proto.demoSearch relevanceOf now (Some (Store.getAllAcademics db)) q
                = Resolved r).
Proof.
  intros Hk%built_keyed.
  assert (Hnamed : Forall (fun a => exists n, name a = Some n /\ n <> EmptyString)
                     (Store.getAllAcademics db)).
  { apply Forall_forall. intros a Hin.
    apply elem_of_getAllAcademics in Hin as [k Hl].
    destruct (Hk _ _ Hl) as (n & Hn & Hne & _). exists n. split; [done|].
    by intros ->. }
  split; [done|]. intros Htitled Hp.
  assert (Hwf : forallb wellFormed (default [] (Some (Store.getAllAcademics db))) = true).
  { simpl. apply forallb_forall. intros a Hin.
    rewrite forallb_forall in Htitled. specialize (Htitled a Hin).
    rewrite Forall_forall in Hnamed. apply list_elem_of_In in Hin.
    destruct (Hnamed a Hin) as (n & Hn & _).
    unfold wellFormed. rewrite bool_decide_eq_true_2 by (by exists n).
    apply andb_true_iff in Htitled as [-> ->]. done. }
  rewrite Proto_demoSearch_plain by done.
  unfold demoSearch. rewrite demoSearchBody_unfold, (scoreAll_found _ _ Hwf), bind_Ok.
  eauto.
Qed.

Lemma store_corpus_is_named_witness :
  exists r,
    Proto.demoSearch plainRelevance "T"
      (Some (Store.getAllAcademics
               (snd (Store.addOrUpdateAcademic (Some butler)
                       (snd (Store.addOrUpdateAcademic (Some nameless) ∅))))))
      "power"
    = Resolved r.
Proof.
  apply (store_corpus_is_named plainRelevance "T" "power").
  - apply Store.built_add; [|apply Store.built_add; [|apply Store.built_empty]].
    + intros r n [= <-] [= <-]. vm_compute. discriminate.
    + intros r n [= <-] Hn. discriminate Hn.
  - vm_compute. reflexivity.
  - vm_compute. reflexivity.
Defined.

(** ** When the search does not settle *)




